(** * image_tree: an m-ary tree of image dependencies

    A shallow embedding of [CI-scripts/image_tree.py] (classes [Image] and
    [ImageTree]) and the properties of it that the specification states.

    Conventions of the embedding.
    - A Python [str] is a [string]; characters are code points below 256.
    - An [Image] object lives in a heap (a list, the address is the index);
      object identity ([is], [in] on lists of objects, hashing in [set]) is
      equality of addresses.
    - Methods that mutate or raise are functions in the monad [M]: the state
      is the [ImageTree] with its heap, the result is a value or the
      exception raised.  An exception does not undo earlier mutations.
    - The file system below [root_dir] is a parameter [fs]: what is found at
      [root_dir.joinpath(name)].
    - Recursion that Python bounds by its recursion limit takes a fuel
      argument; running out of it is [RecursionError]. *)

From Stdlib Require Import Ascii String.
From stdpp Require Import base list strings sorting.

(** ** Python [str] methods used by the program *)

Module Str.

(** [s.startswith(pre)] *)
Fixpoint startswith (s pre : string) : bool :=
  match pre, s with
  | EmptyString, _ => true
  | String _ _, EmptyString => false
  | String a pre', String b s' =>
      if Ascii.eqb a b then startswith s' pre' else false
  end.

(** [s.replace(old, new)]: the occurrences of [old] are found left to right
    and do not overlap.  [skip] counts the characters of an occurrence that
    are still to be dropped. *)
Fixpoint replace_from (old new : string) (skip : nat) (s : string) : string :=
  match s with
  | EmptyString =>
      match old with EmptyString => new | String _ _ => EmptyString end
  | String c s' =>
      match skip with
      | S k => replace_from old new k s'
      | O =>
          if startswith s old
          then new +:+
               match old with
               | EmptyString => String c (replace_from old new 0 s')
               | String _ _ => replace_from old new (String.length old - 1) s'
               end
          else String c (replace_from old new 0 s')
      end
  end.

Definition replace (s old new : string) : string := replace_from old new 0 s.

(** [s.lstrip(c)] for a one-character argument *)
Fixpoint lstrip (c : ascii) (s : string) : string :=
  match s with
  | String a s' => if Ascii.eqb a c then lstrip c s' else s
  | EmptyString => EmptyString
  end.

(** [s.split(sep)] for a one-character separator: one more part than there
    are separators *)
Fixpoint split (sep : ascii) (s : string) : list string :=
  match s with
  | EmptyString => [EmptyString]
  | String c s' =>
      if Ascii.eqb c sep then EmptyString :: split sep s'
      else match split sep s' with
           | part :: parts => String c part :: parts
           | [] => [String c EmptyString]
           end
  end.

(** [sep.join(parts)] *)
Fixpoint join (sep : string) (parts : list string) : string :=
  match parts with
  | [] => EmptyString
  | [p] => p
  | p :: ps => p +:+ sep +:+ join sep ps
  end.

(** [c.isdigit()]: the decimal digits and, below 256, the superscripts
    two, three and one (code points 178, 179, 185). *)
Definition isdigit (c : ascii) : bool :=
  let n := nat_of_ascii c in
  (Nat.leb 48 n && Nat.leb n 57) || Nat.eqb n 178 || Nat.eqb n 179 || Nat.eqb n 185.

(** Counting, and the text around the first separator: used to state what
    the split does. *)
Fixpoint count (sep : ascii) (s : string) : nat :=
  match s with
  | EmptyString => 0
  | String c s' => (if Ascii.eqb c sep then 1 else 0) + count sep s'
  end.

Fixpoint before_first (sep : ascii) (s : string) : string :=
  match s with
  | EmptyString => EmptyString
  | String c s' => if Ascii.eqb c sep then EmptyString else String c (before_first sep s')
  end.

Fixpoint after_first (sep : ascii) (s : string) : string :=
  match s with
  | EmptyString => EmptyString
  | String c s' => if Ascii.eqb c sep then s' else after_first sep s'
  end.

End Str.

(** ** Exceptions, outcomes *)

Inductive exn : Type :=
  | StopIteration            (* [next] on an exhausted generator *)
  | OSError                  (* [read_text] on a missing Dockerfile *)
  | IndexError               (* [parent_tag[0]] on an empty tag *)
  | AttributeError           (* an attribute of [None] *)
  | ValueError (msg : string)
  | RecursionError           (* out of fuel *)
  | DanglingRef.             (* an address outside the heap: no Python
                                counterpart, objects are never freed *)

Inductive outcome (A : Type) : Type :=
  | Ok (a : A)
  | Raise (e : exn).
Arguments Ok {A} a.
Arguments Raise {A} e.

(** ** The parent reference of a Dockerfile (the pure part of
    [Image._parse_parent_from_dockerfile]) *)

(** [next(l for l in lines if l.startswith(pre))] *)
Definition next_startswith (pre : string) (lines : list string) : outcome string :=
  match List.find (fun l => Str.startswith l pre) lines with
  | Some l => Ok l
  | None => Raise StopIteration
  end.

Definition declaration_of (var : string) : string :=
  "ARG " +:+ Str.lstrip "$" var +:+ "=".

Definition _value_from_arg (var : string) (_dockerfile : list string) : outcome string :=
  let declaration := declaration_of var in
  match next_startswith declaration _dockerfile with
  | Ok arg_line => Ok (Str.replace arg_line declaration "")
  | Raise e => Raise e
  end.

(** [parent_info], after the build-arg is resolved *)
Definition parent_info_of (dockerfile : list string) : outcome string :=
  match next_startswith "FROM" dockerfile with
  | Raise e => Raise e
  | Ok from_line =>
      let parent_info := Str.replace from_line "FROM " "" in
      if Str.startswith parent_info "$"
      then _value_from_arg parent_info dockerfile
      else Ok parent_info
  end.

(** [image_tag = parent_info.replace('contextlab/', '')] *)
Definition image_tag_of (dockerfile : list string) : outcome string :=
  match parent_info_of dockerfile with
  | Ok parent_info => Ok (Str.replace parent_info "contextlab/" "")
  | Raise e => Raise e
  end.

(** [parent_image, parent_tag = image_tag.split(':')]: unpacking raises
    [ValueError] unless there are exactly two parts, and the handler takes
    the whole reference as the image with no tag. *)
Definition split_image_tag (image_tag : string) : string * option string :=
  match Str.split ":" image_tag with
  | [parent_image; parent_tag] => (parent_image, Some parent_tag)
  | _ => (image_tag, None)
  end.

(** The test of the [if]: [None] stands for the [IndexError] of
    [parent_tag[0]] on an empty tag. *)
Definition pinned_elsewhere (parent_tag : option string) (python_version : option string)
  : option bool :=
  match parent_tag with
  | None => Some false
  | Some tag =>
      match tag with
      | EmptyString => None
      | String c _ =>
          Some (Str.isdigit c && negb (bool_decide (Some tag = python_version)))
      end
  end.

(** ** Objects and the tree *)

Abbreviation addr := nat (only parsing).

(** [class Image]; the back-reference [self.tree] is the state itself. *)
Record Image : Type := mkImage {
  name : string;
  parent : option addr;
  children : list addr;
  dirpath : option string;
  python_compat : bool
}.

Definition set_parent (p : option addr) (i : Image) : Image :=
  mkImage (name i) p (children i) (dirpath i) (python_compat i).
Definition set_children (cs : list addr) (i : Image) : Image :=
  mkImage (name i) (parent i) cs (dirpath i) (python_compat i).
Definition set_dirpath (d : option string) (i : Image) : Image :=
  mkImage (name i) (parent i) (children i) d (python_compat i).
Definition set_python_compat (b : bool) (i : Image) : Image :=
  mkImage (name i) (parent i) (children i) (dirpath i) b.

(** [class ImageTree]: [images] is a [dict], which keeps insertion order;
    [python_version] is [getenv("PYTHON_VERSION")], [None] when unset. *)
Record ImageTree : Type := mkImageTree {
  heap : list Image;
  images : list (string * addr);
  root_image : option addr;
  python_version : option string
}.

Definition with_heap (h : list Image) (t : ImageTree) : ImageTree :=
  mkImageTree h (images t) (root_image t) (python_version t).
Definition with_images (d : list (string * addr)) (t : ImageTree) : ImageTree :=
  mkImageTree (heap t) d (root_image t) (python_version t).
Definition with_root_image (r : option addr) (t : ImageTree) : ImageTree :=
  mkImageTree (heap t) (images t) r (python_version t).

(** [d[k]], [d[k] = v] and [d.keys()] *)
Fixpoint dict_get (k : string) (d : list (string * addr)) : option addr :=
  match d with
  | [] => None
  | (k', v) :: d' => if decide (k = k') then Some v else dict_get k d'
  end.

Fixpoint dict_set (k : string) (v : addr) (d : list (string * addr))
  : list (string * addr) :=
  match d with
  | [] => [(k, v)]
  | (k', v') :: d' =>
      if decide (k = k') then (k, v) :: d' else (k', v') :: dict_set k v d'
  end.

Definition dict_keys (d : list (string * addr)) : list string := d.*1.

(** What is found at [root_dir.joinpath(name)]: no directory, or a directory
    with the lines of its Dockerfile ([None] when it cannot be read). *)
Inductive dir_entry : Type :=
  | NoDir
  | Dir (dockerfile : option (list string)).

Definition filesystem := string -> dir_entry.

Definition is_dir (e : dir_entry) : bool :=
  match e with NoDir => false | Dir _ => true end.

(** ** The state and exception monad *)

Definition M (A : Type) : Type := ImageTree -> outcome A * ImageTree.

Definition ret {A} (a : A) : M A := fun t => (Ok a, t).
Definition raise {A} (e : exn) : M A := fun t => (Raise e, t).
Definition bind {A B} (m : M A) (k : A -> M B) : M B :=
  fun t => match m t with
           | (Ok a, t') => k a t'
           | (Raise e, t') => (Raise e, t')
           end.
Definition lift {A} (o : outcome A) : M A := fun t => (o, t).

Notation "'let!' x ':=' m 'in' k" := (bind m (fun x => k))
  (at level 10, x name, m at level 100, k at level 200, only parsing).
Notation "'do!' m 'in' k" := (bind m (fun _ => k))
  (at level 10, m at level 100, k at level 200, only parsing).

(** Reading an object, and assigning to its attributes *)
Definition obj (a : addr) : M Image :=
  fun t => match heap t !! a with
           | Some i => (Ok i, t)
           | None => (Raise DanglingRef, t)
           end.

Definition update (a : addr) (f : Image -> Image) : M unit :=
  fun t => (Ok tt, with_heap (alter f a (heap t)) t).

(** ** [class Image] *)

(** [Image(name, tree)] *)
Definition Image_init (image_name : string) : M addr :=
  fun t => (Ok (length (heap t)),
            with_heap (heap t ++ [mkImage image_name None [] (Some image_name) true]) t).

(** [self.ancestors] *)
Fixpoint ancestors (fuel : nat) (t : ImageTree) (self : addr) : outcome (list addr) :=
  match fuel with
  | O => Raise RecursionError
  | S fuel' =>
      match heap t !! self with
      | None => Raise DanglingRef
      | Some img =>
          if decide (parent img = root_image t) then Ok [self]
          else match parent img with
               | None => Raise AttributeError
               | Some p =>
                   match ancestors fuel' t p with
                   | Ok ancs => Ok (ancs ++ [self])
                   | Raise e => Raise e
                   end
               end
      end
  end.

(** [for x in xs: acc.extend(g(x))] *)
Fixpoint extend_each {A} (g : A -> outcome (list addr)) (xs : list A)
  : outcome (list addr) :=
  match xs with
  | [] => Ok []
  | x :: xs' =>
      match g x with
      | Raise e => Raise e
      | Ok d =>
          match extend_each g xs' with
          | Raise e => Raise e
          | Ok ds => Ok (d ++ ds)
          end
      end
  end.

(** [self.descendants] *)
Fixpoint descendants (fuel : nat) (t : ImageTree) (self : addr) : outcome (list addr) :=
  match fuel with
  | O => Raise RecursionError
  | S fuel' =>
      match heap t !! self with
      | None => Raise DanglingRef
      | Some img =>
          match extend_each (descendants fuel' t) (children img) with
          | Ok descs => Ok (self :: descs)
          | Raise e => Raise e
          end
      end
  end.

(** [self.add_parent(parent)] and [self.add_child(child)] *)
Definition add_parent (self parent : addr) : M unit :=
  update self (set_parent (Some parent)).

Definition add_child (self child : addr) : M unit :=
  let! img := obj self in
  if bool_decide (child ∈ children img) then ret tt
  else update self (set_children (children img ++ [child])).

Section WithFilesystem.

Variable fs : filesystem.

(** [self._parse_parent_from_dockerfile()] *)
Definition _parse_parent_from_dockerfile (self : addr) : M string :=
  let! img := obj self in
  match dirpath img with
  | None => raise AttributeError
  | Some d =>
      match fs d with
      | NoDir | Dir None => raise OSError
      | Dir (Some dockerfile) =>
          let! image_tag := lift (image_tag_of dockerfile) in
          let '(parent_image, parent_tag) := split_image_tag image_tag in
          fun t =>
            match pinned_elsewhere parent_tag (python_version t) with
            | None => (Raise IndexError, t)
            | Some true =>
                (do! update self (set_python_compat false) in ret parent_image) t
            | Some false => (Ok parent_image, t)
            end
      end
  end.

(** An argument of [link_images]: a name or an [Image] *)
Inductive ref : Type :=
  | ByName (image_name : string)
  | ByImage (image : addr).

Definition no_image_msg (image_name : string) (d : list (string * addr)) : string :=
  "No Image named " +:+ image_name +:+ " in:" +:+ Str.join ", " (dict_keys d).

Section WithCreate.

(** The methods below call each other through [create_image]; they are
    written over the recursive call, which [create_image] then ties. *)
Variable create_image_rec : string -> M addr.

(** [self.get_image(image_name, create_new)] *)
Definition get_image_with (image_name : string) (create_new : bool) : M addr :=
  fun t => match dict_get image_name (images t) with
           | Some a => (Ok a, t)
           | None =>
               if create_new then create_image_rec image_name t
               else (Raise (ValueError (no_image_msg image_name (images t))), t)
           end.

Definition resolve (r : ref) : M addr :=
  match r with
  | ByImage a => ret a
  | ByName n => get_image_with n true
  end.

(** [self.link_images(parent, child)] *)
Definition link_images_with (parent child : ref) : M unit :=
  let! parent := resolve parent in
  let! child := resolve child in
  let! pimg := obj parent in
  do! (if python_compat pimg then ret tt
       else update child (set_python_compat false)) in
  do! add_child parent child in
  add_parent child parent.

(** [self.add_to_tree()] *)
Definition add_to_tree_with (self : addr) : M unit :=
  let! img := obj self in
  match dirpath img with
  | None => raise AttributeError
  | Some d =>
      if is_dir (fs d) then
        let! parent_image := _parse_parent_from_dockerfile self in
        link_images_with (ByName parent_image) (ByImage self)
      else
        do! update self (set_dirpath None) in
        fun t => (Ok tt, with_root_image (Some self) t)
  end.

End WithCreate.

(** [self.create_image(image_name)] *)
Fixpoint create_image (fuel : nat) (image_name : string) : M addr :=
  match fuel with
  | O => raise RecursionError
  | S fuel' =>
      let! image := Image_init image_name in
      do! add_to_tree_with (create_image fuel') image in
      do! (fun t => (Ok tt, with_images (dict_set image_name image (images t)) t)) in
      ret image
  end.

Definition get_image (fuel : nat) := get_image_with (create_image fuel).
Definition link_images (fuel : nat) := link_images_with (create_image fuel).
Definition add_to_tree (fuel : nat) := add_to_tree_with (create_image fuel).

(** [self._create_tree()], over the names [df_path.parent.name] of the
    Dockerfiles found, in the order found *)
Fixpoint _create_tree (fuel : nat) (dockerfile_paths : list string) : M unit :=
  match dockerfile_paths with
  | [] => ret tt
  | image_name :: rest =>
      let! image := get_image fuel image_name true in
      do! add_to_tree fuel image in
      _create_tree fuel rest
  end.

(** [ImageTree(root_dir)] *)
Definition empty_tree (version : option string) : ImageTree :=
  mkImageTree [] [] None version.

Definition ImageTree_init (version : option string) (fuel : nat)
    (dockerfile_paths : list string) : outcome unit * ImageTree :=
  _create_tree fuel dockerfile_paths (empty_tree version).

(** The operations that change a tree, to state what holds in the states
    they reach: [Register n] is one turn of the loop of [_create_tree],
    [Link p c] is [link_images] called on two names. *)
Inductive step : Type :=
  | Register (image_name : string)
  | Link (parent child : string).

Definition run_step (fuel : nat) (s : step) : M unit :=
  match s with
  | Register image_name =>
      let! image := get_image fuel image_name true in
      add_to_tree fuel image
  | Link parent child => link_images fuel (ByName parent) (ByName child)
  end.

Fixpoint run (fuel : nat) (steps : list step) : M unit :=
  match steps with
  | [] => ret tt
  | s :: rest => do! run_step fuel s in run fuel rest
  end.

End WithFilesystem.

(** ** [ImageTree.determine_rebuilds] *)

(** [sorted(xs, key=...)] is stable: insertion from the right, an element
    going before the first one whose key is not smaller. *)
Fixpoint insert_by_key (x : nat * addr) (l : list (nat * addr)) : list (nat * addr) :=
  match l with
  | [] => [x]
  | y :: l' => if Nat.leb (fst x) (fst y) then x :: y :: l' else y :: insert_by_key x l'
  end.

Definition sort_by_key (l : list (nat * addr)) : list (nat * addr) :=
  foldr insert_by_key [] l.

(** The keys are computed for every element, in order, before sorting. *)
Fixpoint keyed (fuel : nat) (t : ImageTree) (l : list addr) : outcome (list (nat * addr)) :=
  match l with
  | [] => Ok []
  | a :: l' =>
      match ancestors fuel t a with
      | Raise e => Raise e
      | Ok ancs =>
          match keyed fuel t l' with
          | Raise e => Raise e
          | Ok ks => Ok ((length ancs, a) :: ks)
          end
      end
  end.

(** [[img.name for img in imgs if img.python_compat]] *)
Fixpoint compatible_names (t : ImageTree) (imgs : list addr) : outcome (list string) :=
  match imgs with
  | [] => Ok []
  | a :: imgs' =>
      match heap t !! a with
      | None => Raise DanglingRef
      | Some img =>
          match compatible_names t imgs' with
          | Raise e => Raise e
          | Ok ns => Ok (if python_compat img then name img :: ns else ns)
          end
      end
  end.

Section DetermineRebuilds.

Variable fs : filesystem.

(** [list(set(xs))]: the order in which a set of objects is iterated is
    not specified; it is a parameter. *)
Variable set_order : list addr -> list addr.

(** The loop that fills [dependent_imgs] *)
Fixpoint dependents (fuel : nat) (edited_img_names : list string) : M (list addr) :=
  match edited_img_names with
  | [] => ret []
  | img_name :: rest =>
      let! image := get_image fs fuel img_name false in
      let! descs := (fun t => (descendants fuel t image, t)) in
      let! more := dependents fuel rest in
      ret (descs ++ more)
  end.

Definition determine_rebuilds (fuel : nat) (edited_img_names : list string)
  : M (list string) :=
  let! dependent_imgs := dependents fuel edited_img_names in
  let unique_dependents := set_order dependent_imgs in
  let! ks := (fun t => (keyed fuel t unique_dependents, t)) in
  let sorted_dependents := (sort_by_key ks).*2 in
  fun t => (compatible_names t sorted_dependents, t).

End DetermineRebuilds.

(** * The vocabulary of the properties

    The definitions below are not in the program: they say what the
    properties are about (chains, descendants, the shape of a tree, what
    the file system makes the construction do) and name pieces of the
    program's code that the proofs reason about. *)

(** ** Reading a reference *)


(** The Dockerfile has no line starting with [FROM]. *)
Definition lacks_from (dockerfile : list string) : Prop :=
  Forall (fun l => Str.startswith l "FROM" = false) dockerfile.

(** The base image is given by a build-arg that no line declares. *)
Definition lacks_declaration (dockerfile : list string) : Prop :=
  ∃ from_line,
    next_startswith "FROM" dockerfile = Ok from_line
    ∧ Str.startswith (Str.replace from_line "FROM " "") "$" = true
    ∧ Forall (fun l => Str.startswith l
                (declaration_of (Str.replace from_line "FROM " "")) = false) dockerfile.

Definition malformed (dockerfile : list string) : Prop :=
  lacks_from dockerfile ∨ lacks_declaration dockerfile.

(** ** Ancestors and descendants *)

(** The chain of [a]: the nodes on the parent chain from the child of the
    root image down to [a]. *)
Inductive parent_chain (t : ImageTree) : addr → list addr → Prop :=
  | chain_top a img :
      heap t !! a = Some img →
      parent img = root_image t →
      parent_chain t a [a]
  | chain_below a img p l :
      heap t !! a = Some img →
      parent img = Some p →
      Some p ≠ root_image t →
      parent_chain t p l →
      parent_chain t a (l ++ [a]).

(** The number of parent links from a node up to the root image. *)
Inductive depth_below_root (t : ImageTree) : addr → nat → Prop :=
  | depth_child a img :
      heap t !! a = Some img → parent img = root_image t →
      depth_below_root t a 1
  | depth_deeper a img p d :
      heap t !! a = Some img → parent img = Some p → Some p ≠ root_image t →
      depth_below_root t p d →
      depth_below_root t a (S d).

(** [x] is [a] or below it along [children] edges. *)
Inductive descends (t : ImageTree) (a : addr) : addr → Prop :=
  | descends_self : descends t a a
  | descends_child y yimg x :
      descends t a y → heap t !! y = Some yimg → x ∈ children yimg →
      descends t a x.

(** [a] is below the root image: a proper descendant of it. *)
Definition below_root (t : ImageTree) (a : addr) : Prop :=
  ∃ r, root_image t = Some r ∧ descends t r a ∧ a ≠ r.

(** The name and the flag of the node at an address *)
Definition node_name (t : ImageTree) (a : addr) : string :=
  match heap t !! a with Some img => name img | None => EmptyString end.

Definition node_compat (t : ImageTree) (a : addr) : bool :=
  match heap t !! a with Some img => python_compat img | None => false end.

(** The length of the chain of ancestors *)
Definition depth_of (t : ImageTree) (a : addr) : nat :=
  match ancestors (length (images t)) t a with
  | Ok l => length l
  | Raise _ => 0
  end.

(** The order of [sort_by_key] *)
Definition key_le (x y : nat * addr) : Prop := x.1 ≤ y.1.


(** ** The flag over time *)

(** Every node of [t] is a node of [t'], and is incompatible there when it
    is in [t]. *)
Definition flags_le (t t' : ImageTree) : Prop :=
  ∀ a img, heap t !! a = Some img →
    ∃ img', heap t' !! a = Some img'
            ∧ (python_compat img = false → python_compat img' = false).

Definition keeps_flags {A} (m : M A) : Prop := ∀ t, flags_le t (snd (m t)).

(** ** What no operation undoes *)

(** A node later on: the same name, the children it had, in the same order,
    before any new ones, and its directory unless it was found missing. *)
Definition node_le (img img' : Image) : Prop :=
  name img' = name img
  ∧ children img `prefix_of` children img'
  ∧ (dirpath img' = dirpath img ∨ dirpath img' = None).

(** Every node of [t] is a node of [t'], the keys of [t] are the first keys
    of [t'], and the version is the same. *)
Definition grows (t t' : ImageTree) : Prop :=
  (∀ a img, heap t !! a = Some img →
     ∃ img', heap t' !! a = Some img' ∧ node_le img img')
  ∧ dict_keys (images t) `prefix_of` dict_keys (images t')
  ∧ python_version t' = python_version t.

Definition only_grows {A} (m : M A) : Prop := ∀ t, grows t (snd (m t)).

(** ** Pieces of the code of a registration *)

(** [link_images] once both arguments are resolved *)
Definition link_tail (parent child : addr) : M unit :=
  let! pimg := obj parent in
  do! (if python_compat pimg then ret tt
       else update child (set_python_compat false)) in
  do! add_child parent child in
  add_parent child parent.

(** The heap after [link_tail]. *)
Definition link_heap (h : list Image) (p a : addr) (pimg : Image) : list Image :=
  let h1 := if python_compat pimg then h else alter (set_python_compat false) a h in
  let h2 := if bool_decide (a ∈ children pimg) then h1
            else alter (set_children (children pimg ++ [a])) p h1 in
  alter (set_parent (Some p)) a h2.

(** The node that [Image(name, tree)] allocates, and the end of
    [create_image]: storing the node and returning it *)
Definition fresh_image (image_name : string) : Image :=
  mkImage image_name None [] (Some image_name) true.

Definition store (image_name : string) (image : addr) : M addr :=
  do! (fun t => (Ok tt, with_images (dict_set image_name image (images t)) t)) in
  ret image.

(** ** The nodes of the mapping *)

(** A node is registered when the mapping holds it. *)
Definition registered (t : ImageTree) (a : addr) : Prop := a ∈ (images t).*2.

Definition all_registered (t : ImageTree) : Prop :=
  ∀ x, x < length (heap t) → registered t x.

(** ** The shape of a tree, by names *)

(** The name of the parent of the node stored under [n]. *)
Definition parent_name (t : ImageTree) (n : string) : option string :=
  match dict_get n (images t) with
  | Some a =>
      match heap t !! a with
      | Some img =>
          match parent img with
          | Some p => Some (node_name t p)
          | None => None
          end
      | None => None
      end
  | None => None
  end.

(** The names of the children of the node stored under [n]. *)
Definition child_names (t : ImageTree) (n : string) : list string :=
  match dict_get n (images t) with
  | Some a =>
      match heap t !! a with
      | Some img => node_name t <$> children img
      | None => []
      end
  | None => []
  end.

(** The same nodes, the same parent for every node, and the same set of
    children. *)
Definition same_shape (t t' : ImageTree) : Prop :=
  (∀ n, n ∈ dict_keys (images t) ↔ n ∈ dict_keys (images t'))
  ∧ (∀ n, parent_name t n = parent_name t' n)
  ∧ (∀ n m, m ∈ child_names t n ↔ m ∈ child_names t' n).

(** ** What the file system makes the construction do *)

Section Vocabulary.

Variable fs : filesystem.
Variable version : option string.



(** The parse of the Dockerfile of directory [d]: the parent image and
    whether the node is pinned to another version. *)
Definition parse_pure (d : string) : outcome (string * bool) :=
  match fs d with
  | NoDir | Dir None => Raise OSError
  | Dir (Some dockerfile) =>
      match image_tag_of dockerfile with
      | Raise e => Raise e
      | Ok image_tag =>
          match pinned_elsewhere (snd (split_image_tag image_tag)) version with
          | None => Raise IndexError
          | Some b => Ok (fst (split_image_tag image_tag), b)
          end
      end
  end.

(** The names that [create_image] registers, the requested one first, when
    the keys of the mapping are [D]; [None] when the creation raises. *)
Fixpoint plan (fuel : nat) (D : list string) (n : string) : option (list string) :=
  match fuel with
  | O => None
  | S fuel' =>
      if is_dir (fs n) then
        match parse_pure n with
        | Raise _ => None
        | Ok (p, _) =>
            if decide (p ∈ D) then Some [n] else (n ::.) <$> plan fuel' D p
        end
      else Some [n]
  end.

(** The keys of the mapping after [_create_tree], [None] when it raises. *)
Fixpoint plan_tree (fuel : nat) (D : list string) (paths : list string)
  : option (list string) :=
  match paths with
  | [] => Some D
  | n :: rest =>
      if is_dir (fs n) then
        if decide (n ∈ D) then plan_tree fuel D rest
        else match plan fuel D n with
             | Some c => plan_tree fuel (D ++ reverse c) rest
             | None => None
             end
      else None
  end.

(** The parent that the definition of [n] names, when [n] has a directory. *)
Definition parent_of (n : string) : option string :=
  if is_dir (fs n) then
    match parse_pure n with
    | Ok (p, _) => Some p
    | Raise _ => None
    end
  else None.

(** [m] is [n] or an ancestor of [n] by the definitions. *)
Inductive reach : string → string → Prop :=
  | reach_refl n : reach n n
  | reach_step n p m : parent_of n = Some p → reach p m → reach n m.

(** The chain of definitions above [n] ends at a name without directory. *)
Definition resolves (n : string) : Prop := ∃ k c, plan k [] n = Some c.

(** ** The invariant of the construction *)

(** What holds of the node [img] at address [a], stored under [n] as the
    [i]-th entry of the mapping. *)
Record node_ok (t : ImageTree) (i : nat) (n : string) (a : addr) (img : Image)
  : Prop := {
  ok_name : name img = n;
  ok_children_nodup : NoDup (children img);
  ok_children : ∀ c, c ∈ children img →
    registered t c ∧ ∃ cimg, heap t !! c = Some cimg ∧ parent cimg = Some a;
  ok_dir : is_dir (fs n) = true →
    dirpath img = Some n
    ∧ ∃ P b j p pimg,
        parse_pure n = Ok (P, b)
        ∧ j < i ∧ images t !! j = Some (P, p)
        ∧ parent img = Some p
        ∧ heap t !! p = Some pimg ∧ a ∈ children pimg
        ∧ python_compat img = negb b && python_compat pimg;
  ok_nodir : is_dir (fs n) = false →
    dirpath img = None ∧ parent img = None
    ∧ python_compat img = true ∧ is_Some (root_image t)
}.

Record wf (t : ImageTree) : Prop := {
  wf_version : python_version t = version;
  wf_keys : NoDup (dict_keys (images t));
  wf_addrs : NoDup (images t).*2;
  wf_nodes : ∀ i n a, images t !! i = Some (n, a) →
    ∃ img, heap t !! a = Some img ∧ node_ok t i n a img;
  wf_root : ∀ r, root_image t = Some r →
    ∃ i n, images t !! i = Some (n, r) ∧ is_dir (fs n) = false
}.

(** What a successful [create_image] leaves: the invariant, the mapping
    extended by the names in [c] (last registered first in [c]), every node
    allocated meanwhile registered, and unregistered nodes untouched. *)
Record extends (t t' : ImageTree) (c : list string) : Prop := {
  ex_wf : wf t';
  ex_images : ∃ new, images t' = images t ++ new ∧ new.*1 = reverse c;
  ex_length : length (heap t) ≤ length (heap t');
  ex_frame : ∀ x, x < length (heap t) → ¬ registered t x →
    heap t' !! x = heap t !! x ∧ ¬ registered t' x;
  ex_new : ∀ x, length (heap t) ≤ x < length (heap t') → registered t' x
}.

(** A constructed tree: what the constructor returns. *)
Definition constructed (t : ImageTree) : Prop :=
  ∃ fuel paths, ImageTree_init fs version fuel paths = (Ok tt, t).

End Vocabulary.

(** ** Examples: the stack of the specification's scenarios *)

Module Examples.

(** [base] is external; [mid] is built from it, [leaf1] (through a
    build-arg) and [leaf2] from [mid]. *)
Definition stack_fs : filesystem := fun d =>
  if decide (d = "mid") then Dir (Some ["FROM contextlab/base"])
  else if decide (d = "leaf1") then Dir (Some ["ARG BASE=contextlab/mid"; "FROM $BASE"])
  else if decide (d = "leaf2") then Dir (Some ["FROM mid"])
  else NoDir.

Definition stack : ImageTree :=
  Eval vm_compute in
    snd (ImageTree_init stack_fs (Some "3.8") 4 ["leaf1"; "mid"; "leaf2"]).


(** [app] is built from an image in a registry that is named with its
    port. *)
Definition registry_fs : filesystem := fun d =>
  if decide (d = "app")
  then Dir (Some ["FROM localhost:5000/contextlab/base:3.8"])
  else NoDir.

(** [app] names its base image by a build-arg that it does not declare. *)
Definition broken_fs : filesystem := fun d =>
  if decide (d = "app") then Dir (Some ["FROM $BASE"]) else NoDir.

(** [a] is built from [b] and [b] from [a]. *)
Definition cyclic_fs : filesystem := fun d =>
  if decide (d = "a") then Dir (Some ["FROM b"])
  else if decide (d = "b") then Dir (Some ["FROM a"])
  else NoDir.

(** Two external images: [a] is built from [ext1], [b] from [ext2]. *)
Definition two_bases_fs : filesystem := fun d =>
  if decide (d = "a") then Dir (Some ["FROM ext1"])
  else if decide (d = "b") then Dir (Some ["FROM ext2"])
  else NoDir.

Definition two_bases : ImageTree :=
  Eval vm_compute in snd (ImageTree_init two_bases_fs None 2 ["a"; "b"]).

End Examples.

(** * Properties *)

(** ** Splitting a reference *)

Module StrFacts.
Import Str.

Lemma split_length sep s : length (split sep s) = S (count sep s).
Proof.
  induction s as [|c s IH]; simpl; [done|].
  destruct (Ascii.eqb c sep); simpl; [by rewrite IH|].
  destruct (split sep s) as [|p ps]; simpl in *; lia.
Qed.

Lemma split_head sep s : head (split sep s) = Some (before_first sep s).
Proof.
  induction s as [|c s IH]; simpl; [done|].
  destruct (Ascii.eqb c sep); simpl; [done|].
  destruct (split sep s) as [|p ps]; simpl in *; congruence.
Qed.

Lemma split_no_sep sep s : count sep s = 0 → split sep s = [s].
Proof.
  induction s as [|c s IH]; simpl; [done|].
  destruct (Ascii.eqb c sep); simpl; [done|].
  intros H. by rewrite IH.
Qed.

Lemma split_one_sep sep s :
  count sep s = 1 → split sep s = [before_first sep s; after_first sep s].
Proof.
  induction s as [|c s IH]; simpl; [done|].
  destruct (Ascii.eqb c sep); simpl.
  - intros H. rewrite split_no_sep by lia. done.
  - intros H. by rewrite IH.
Qed.

Lemma before_first_no_sep sep s : count sep s = 0 → before_first sep s = s.
Proof.
  induction s as [|c s IH]; simpl; [done|].
  destruct (Ascii.eqb c sep); simpl; [done|].
  intros H. by rewrite IH.
Qed.

Lemma before_after_first sep s :
  count sep s ≠ 0 → s = before_first sep s +:+ String sep (after_first sep s).
Proof.
  induction s as [|c s IH]; simpl; [done|].
  destruct (Ascii.eqb_spec c sep) as [->|Hne]; simpl; [done|].
  intros H. change (String c s = String c (before_first sep s +:+ String sep (after_first sep s))).
  f_equal. by apply IH.
Qed.

Lemma find_startswith_none pre lines :
  Forall (fun l => startswith l pre = false) lines →
  next_startswith pre lines = Raise StopIteration.
Proof.
  unfold next_startswith. induction 1 as [|l ls Hl _ IH]; simpl; [done|].
  rewrite Hl. exact IH.
Qed.

Lemma append_cons c s1 s2 : String c s1 +:+ s2 = String c (s1 +:+ s2).
Proof. reflexivity. Qed.

Lemma append_nil_l s : EmptyString +:+ s = s.
Proof. reflexivity. Qed.

Lemma append_nil_r s : s +:+ EmptyString = s.
Proof. induction s as [|c s IH]; [done|]. by rewrite append_cons, IH. Qed.

Lemma append_assoc s1 s2 s3 : (s1 +:+ s2) +:+ s3 = s1 +:+ (s2 +:+ s3).
Proof. induction s1 as [|c s1 IH]; [done|]. by rewrite !append_cons, IH. Qed.

Lemma join_contains sep k ks :
  k ∈ ks → ∃ pre post, join sep ks = pre +:+ k +:+ post.
Proof.
  induction ks as [|p ps IH]; [by intros ?%elem_of_nil|].
  intros [->|Hin]%elem_of_cons.
  - exists EmptyString. destruct ps as [|q qs]; simpl.
    + exists EmptyString. by rewrite append_nil_r.
    + by exists (sep +:+ join sep (q :: qs)).
  - destruct (IH Hin) as (pre & post & E).
    destruct ps as [|q qs]; [by apply elem_of_nil in Hin|].
    exists (p +:+ sep +:+ pre), post.
    change (join sep (p :: q :: qs)) with (p +:+ sep +:+ join sep (q :: qs)).
    rewrite E. by rewrite !append_assoc.
Qed.

End StrFacts.

(** What the split returns, by the number of colons of the reference. *)
Lemma split_image_tag_spec (image_tag : string) :
  split_image_tag image_tag =
    if decide (Str.count ":" image_tag = 1)
    then (Str.before_first ":" image_tag, Some (Str.after_first ":" image_tag))
    else (image_tag, None).
Proof.
  unfold split_image_tag. case_decide as H.
  - by rewrite StrFacts.split_one_sep.
  - pose proof (StrFacts.split_length ":" image_tag) as L.
    destruct (Str.split ":" image_tag) as [|a [|b [|c l]]]; simpl in L; try done.
    lia.
Qed.

(** ** Unfolding the monad *)

Lemma bind_ok {A B} (m : M A) (k : A -> M B) t a t' :
  m t = (Ok a, t') → bind m k t = k a t'.
Proof. unfold bind. by intros ->. Qed.

Lemma bind_raise {A B} (m : M A) (k : A -> M B) t e t' :
  m t = (Raise e, t') → bind m k t = (Raise e, t').
Proof. unfold bind. by intros ->. Qed.

Lemma obj_ok a t img : heap t !! a = Some img → obj a t = (Ok img, t).
Proof. unfold obj. by intros ->. Qed.

Lemma dict_get_Some_elem k d a : dict_get k d = Some a → (k, a) ∈ d.
Proof.
  induction d as [|[k' v] d IH]; simpl; [done|].
  case_decide as E; [intros [= ->]; subst; left | intros H; right; auto].
Qed.

Lemma dict_get_is_Some k d : is_Some (dict_get k d) ↔ k ∈ dict_keys d.
Proof.
  unfold dict_keys. induction d as [|[k' v] d IH]; simpl.
  - split; [by intros [? ?] | by intros ?%elem_of_nil].
  - case_decide as E; subst.
    + split; [intros _; left | eauto].
    + rewrite IH, elem_of_cons. split; [by right | by intros [?|?]].
Qed.

Lemma dict_get_None k d : dict_get k d = None ↔ k ∉ dict_keys d.
Proof. rewrite <- dict_get_is_Some, eq_None_not_Some. done. Qed.

(** ** Parsing the parent reference *)

Section Parse.

Variable fs : filesystem.


Lemma image_tag_of_malformed dockerfile :
  malformed dockerfile → image_tag_of dockerfile = Raise StopIteration.
Proof.
  unfold image_tag_of, parent_info_of.
  intros [H|(from_line & Hfrom & Hvar & Hdecl)].
  - by rewrite (StrFacts.find_startswith_none _ _ H).
  - rewrite Hfrom. simpl. rewrite Hvar. unfold _value_from_arg.
    by rewrite (StrFacts.find_startswith_none _ _ Hdecl).
Qed.

Lemma parse_malformed t self img d dockerfile :
  heap t !! self = Some img → dirpath img = Some d →
  fs d = Dir (Some dockerfile) → malformed dockerfile →
  _parse_parent_from_dockerfile fs self t = (Raise StopIteration, t).
Proof.
  intros Hself Hd Hfs Hbad. unfold _parse_parent_from_dockerfile.
  rewrite (bind_ok _ _ _ _ _ (obj_ok _ _ _ Hself)). rewrite Hd, Hfs.
  unfold bind, lift. by rewrite (image_tag_of_malformed _ Hbad).
Qed.

Lemma add_to_tree_malformed cr t self img d dockerfile :
  heap t !! self = Some img → dirpath img = Some d →
  fs d = Dir (Some dockerfile) → malformed dockerfile →
  add_to_tree_with fs cr self t = (Raise StopIteration, t).
Proof.
  intros Hself Hd Hfs Hbad. unfold add_to_tree_with.
  rewrite (bind_ok _ _ _ _ _ (obj_ok _ _ _ Hself)). rewrite Hd, Hfs. simpl.
  apply bind_raise. by eapply parse_malformed.
Qed.

End Parse.

(** ** Looking an image up *)

(** C5. [get_image] without [create_new] returns the node stored under the
    name when the name is a key of the mapping; otherwise it raises a
    [ValueError] whose message contains every key of the mapping.  The tree
    is left as it was either way. *)
Theorem get_image_existing_or_not_found (fs : filesystem) (fuel : nat)
    (image_name : string) (t : ImageTree) :
  (image_name ∈ dict_keys (images t) →
     ∃ a, (image_name, a) ∈ images t
          ∧ get_image fs fuel image_name false t = (Ok a, t))
  ∧ (image_name ∉ dict_keys (images t) →
     get_image fs fuel image_name false t
       = (Raise (ValueError ("No Image named " +:+ image_name +:+ " in:"
                             +:+ Str.join ", " (dict_keys (images t)))), t)
     ∧ ∀ k, k ∈ dict_keys (images t) →
         ∃ pre post, Str.join ", " (dict_keys (images t)) = pre +:+ k +:+ post).
Proof.
  unfold get_image, get_image_with. split.
  - intros [a Ha]%dict_get_is_Some. exists a. rewrite Ha.
    split; [by apply dict_get_Some_elem | done].
  - intros Hnone%dict_get_None. rewrite Hnone. split; [done|].
    intros k Hk. by apply StrFacts.join_contains.
Qed.

(** ** C4: a reference with a registry port *)

(** C4 (the code at the failing input).  The base image line
    [FROM localhost:5000/contextlab/base:3.8] gives the reference
    [localhost:5000/base:3.8]; the text before its first colon is
    [localhost], but the split has three parts, the unpacking raises and
    the handler returns the whole reference as the parent image, with no
    tag.  With at most one colon the split is on that colon. *)
Theorem split_image_tag_two_colons :
  image_tag_of ["FROM localhost:5000/contextlab/base:3.8"]
    = Ok "localhost:5000/base:3.8"
  ∧ Str.before_first ":" "localhost:5000/base:3.8" = "localhost"
  ∧ split_image_tag "localhost:5000/base:3.8" = ("localhost:5000/base:3.8", None)
  ∧ fst (_parse_parent_from_dockerfile Examples.registry_fs 0
           (snd (Image_init "app" (empty_tree (Some "3.8")))))
      = Ok "localhost:5000/base:3.8"
  ∧ (∀ image_tag, Str.count ":" image_tag = 0 →
       split_image_tag image_tag = (image_tag, None))
  ∧ (∀ image_tag, Str.count ":" image_tag = 1 →
       split_image_tag image_tag
         = (Str.before_first ":" image_tag, Some (Str.after_first ":" image_tag))).
Proof.
  split; [vm_compute; reflexivity|]. split; [vm_compute; reflexivity|].
  split; [vm_compute; reflexivity|]. split; [vm_compute; reflexivity|]. split.
  - intros s H. rewrite split_image_tag_spec. by rewrite decide_False by lia.
  - intros s H. rewrite split_image_tag_spec. by rewrite decide_True.
Qed.

(** ** The chain of ancestors *)

Lemma ancestors_sound fuel t a l :
  ancestors fuel t a = Ok l → parent_chain t a l.
Proof.
  revert a l. induction fuel as [|fuel IH]; intros a l; simpl; [done|].
  destruct (heap t !! a) as [img|] eqn:Ha; [|done].
  case_decide as Hroot.
  - intros [= <-]. by eapply chain_top.
  - destruct (parent img) as [p|] eqn:Hp; [|done].
    destruct (ancestors fuel t p) as [ancs|] eqn:Hanc; [|done].
    intros [= <-]. eapply chain_below; eauto.
Qed.

Lemma ancestors_complete t a l :
  parent_chain t a l → ∀ fuel, length l ≤ fuel → ancestors fuel t a = Ok l.
Proof.
  induction 1 as [a img Ha Hp | a img p l Ha Hp Hne _ IH]; intros fuel Hfuel.
  - destruct fuel as [|fuel]; simpl in *; [lia|].
    rewrite Ha. by rewrite decide_True.
  - rewrite length_app in Hfuel. simpl in Hfuel.
    destruct fuel as [|fuel]; [lia|]. simpl.
    rewrite Ha. rewrite decide_False by congruence.
    rewrite Hp. rewrite IH by lia. done.
Qed.

Lemma parent_chain_last t a l : parent_chain t a l → last l = Some a.
Proof. destruct 1; [done | by rewrite last_snoc]. Qed.

Lemma parent_chain_length t a l : parent_chain t a l → 0 < length l.
Proof. destruct 1; [simpl; lia | rewrite length_app; simpl; lia]. Qed.

Lemma parent_chain_fun t a l1 l2 :
  parent_chain t a l1 → parent_chain t a l2 → l1 = l2.
Proof.
  intros H1 H2.
  pose proof (ancestors_complete _ _ _ H1 (length l1 + length l2) ltac:(lia)) as E1.
  pose proof (ancestors_complete _ _ _ H2 (length l1 + length l2) ltac:(lia)) as E2.
  congruence.
Qed.

(** Consecutive nodes of a chain are parent and child, and the parent of
    the first one is the root image. *)
Lemma parent_chain_links t a l :
  parent_chain t a l →
  (∃ x img, head l = Some x ∧ heap t !! x = Some img ∧ parent img = root_image t)
  ∧ (∀ i x y, l !! i = Some x → l !! S i = Some y →
       ∃ img, heap t !! y = Some img ∧ parent img = Some x).
Proof.
  induction 1 as [a img Ha Hp | a img p l Ha Hp Hne Hc [IH1 IH2]].
  - split; [by exists a, img|]. intros i x y _ Hy. by destruct i.
  - pose proof (parent_chain_last _ _ _ Hc) as Hlast.
    pose proof (parent_chain_length _ _ _ Hc) as Hlen.
    split.
    + destruct IH1 as (x & ximg & Hhd & Hx & Hxp). exists x, ximg.
      split; [|done]. destruct l; [done | done].
    + intros i x y Hx Hy.
      destruct (decide (S i < length l)) as [Hlt|Hge].
      * rewrite lookup_app_l in Hx by lia. rewrite lookup_app_l in Hy by lia. eauto.
      * assert (S i = length l) as Hi.
        { apply lookup_lt_Some in Hy. rewrite length_app in Hy. simpl in Hy. lia. }
        rewrite lookup_app_l in Hx by lia.
        rewrite Hi, list_lookup_middle in Hy by done. injection Hy as <-.
        rewrite last_lookup in Hlast.
        replace (Init.Nat.pred (length l)) with i in Hlast by lia.
        exists img. split; [done|]. congruence.
Qed.

(** The root image has no chain: [ancestors] reads an attribute of its
    missing parent. *)
Lemma ancestors_root fuel t r img :
  root_image t = Some r → heap t !! r = Some img → parent img = None →
  ancestors (S fuel) t r = Raise AttributeError.
Proof.
  intros Hr Hh Hp. simpl. rewrite Hh, Hp, Hr. by rewrite decide_False.
Qed.

(** ** The dictionary *)

Lemma dict_set_fresh k v d : k ∉ dict_keys d → dict_set k v d = d ++ [(k, v)].
Proof.
  unfold dict_keys. induction d as [|[k' v'] d IH]; simpl; [done|].
  rewrite not_elem_of_cons. intros [Hne Hnin].
  rewrite decide_False by done. by rewrite IH.
Qed.

Lemma dict_get_elem k v d : NoDup (dict_keys d) → (k, v) ∈ d → dict_get k d = Some v.
Proof.
  unfold dict_keys. induction d as [|[k' v'] d IH]; simpl.
  - by intros _ ?%elem_of_nil.
  - rewrite NoDup_cons. intros [Hnin Hnd] [[= -> ->]|Hin]%elem_of_cons.
    + by rewrite decide_True.
    + rewrite decide_False; [by apply IH|].
      intros ->. apply Hnin. apply list_elem_of_fmap. by exists (k', v).
Qed.

Lemma dict_get_app_fresh k k' v d :
  dict_get k (d ++ [(k', v)]) =
    match dict_get k d with
    | Some a => Some a
    | None => if decide (k = k') then Some v else None
    end.
Proof.
  induction d as [|[k'' v''] d IH]; simpl; [done|].
  destruct (decide (k = k'')); simpl; [done | exact IH].
Qed.

(** ** What the construction does, read off the file system *)

Section Plan.

Variable fs : filesystem.
Variable version : option string.

Lemma parse_eq t self img d :
  python_version t = version →
  heap t !! self = Some img → dirpath img = Some d →
  _parse_parent_from_dockerfile fs self t =
    match parse_pure fs version d with
    | Ok (p, b) =>
        (Ok p, if b then with_heap (alter (set_python_compat false) self (heap t)) t
               else t)
    | Raise e => (Raise e, t)
    end.
Proof.
  intros Hv Hself Hd. unfold _parse_parent_from_dockerfile, parse_pure.
  rewrite (bind_ok _ _ _ _ _ (obj_ok _ _ _ Hself)). rewrite Hd.
  destruct (fs d) as [|[dockerfile|]]; [done| |done].
  unfold bind, lift.
  destruct (image_tag_of dockerfile) as [image_tag|e]; [|done].
  destruct (split_image_tag image_tag) as [parent_image parent_tag]. cbn. rewrite Hv.
  by destruct (pinned_elsewhere parent_tag version) as [[|]|].
Qed.

Lemma plan_mono fuel fuel' D n c :
  plan fs version fuel D n = Some c → fuel ≤ fuel' → plan fs version fuel' D n = Some c.
Proof.
  revert fuel' n c. induction fuel as [|fuel IH]; intros fuel' n c; [done|].
  destruct fuel' as [|fuel']; [lia|]. simpl. intros H Hle.
  destruct (is_dir (fs n)); [|done].
  destruct (parse_pure fs version n) as [[p b]|]; [|done].
  case_decide; [done|].
  destruct (plan fs version fuel D p) as [c'|] eqn:E; [|done].
  rewrite (IH fuel' p c') by (done || lia). done.
Qed.

Lemma plan_head fuel D n c : plan fs version fuel D n = Some c → ∃ c', c = n :: c'.
Proof.
  destruct fuel as [|fuel]; simpl; [done|].
  destruct (is_dir (fs n)); [|intros [= <-]; eauto].
  destruct (parse_pure fs version n) as [[p b]|]; [|done].
  case_decide; [intros [= <-]; eauto|].
  destruct (plan fs version fuel D p); simpl; [intros [= <-]; eauto | done].
Qed.

Lemma plan_suffix fuel D n c i m :
  plan fs version fuel D n = Some c → c !! i = Some m → plan fs version (fuel - i) D m = Some (drop i c).
Proof.
  revert n c i. induction fuel as [|fuel IH]; intros n c i; [done|].
  intros H Hm. destruct i as [|i].
  { destruct (plan_head _ _ _ _ H) as [c' ->]. injection Hm as <-. exact H. }
  simpl in H. destruct (is_dir (fs n)); [|by injection H as <-].
  destruct (parse_pure fs version n) as [[p b]|]; [|done].
  case_decide; [by injection H as <-|].
  destruct (plan fs version fuel D p) as [c'|] eqn:E; [|done].
  injection H as <-. simpl in Hm. simpl. eapply IH; eauto.
Qed.

Lemma plan_NoDup fuel D n c : plan fs version fuel D n = Some c → NoDup c.
Proof.
  intros H. apply NoDup_alt. intros i j m Hi Hj.
  pose proof (plan_suffix _ _ _ _ _ _ H Hi) as Pi.
  pose proof (plan_suffix _ _ _ _ _ _ H Hj) as Pj.
  pose proof (plan_mono _ fuel _ _ _ Pi ltac:(lia)) as Qi.
  pose proof (plan_mono _ fuel _ _ _ Pj ltac:(lia)) as Qj.
  assert (length (drop i c) = length (drop j c)) as L by congruence.
  rewrite !length_drop in L.
  apply lookup_lt_Some in Hi, Hj. lia.
Qed.

Lemma plan_fresh fuel D n c : n ∉ D → plan fs version fuel D n = Some c → ∀ m, m ∈ c → m ∉ D.
Proof.
  revert n c. induction fuel as [|fuel IH]; intros n c Hn; [done|]. simpl.
  destruct (is_dir (fs n)); [|by intros [= <-] m ->%list_elem_of_singleton].
  destruct (parse_pure fs version n) as [[p b]|]; [|done].
  case_decide as Hp; [by intros [= <-] m ->%list_elem_of_singleton|].
  destruct (plan fs version fuel D p) as [c'|] eqn:E; [|done].
  intros [= <-] m [->|Hm]%elem_of_cons; [done|]. eapply IH; eauto.
Qed.

End Plan.

(** ** The invariant of the construction *)

Section Invariant.

Variable fs : filesystem.
Variable version : option string.

Lemma registered_lookup t a : registered t a ↔ ∃ i n, images t !! i = Some (n, a).
Proof.
  unfold registered. rewrite list_elem_of_fmap. split.
  - intros ([n a'] & -> & Hin). apply list_elem_of_lookup in Hin as [i Hi]. eauto.
  - intros (i & n & Hi). exists (n, a). split; [done|]. by eapply list_elem_of_lookup_2.
Qed.

Lemma wf_dict_get t i n a : wf fs version t → images t !! i = Some (n, a) → dict_get n (images t) = Some a.
Proof.
  intros W Hi. apply dict_get_elem; [apply W|]. by eapply list_elem_of_lookup_2.
Qed.

Lemma wf_dict_get_inv t n a : dict_get n (images t) = Some a → ∃ i, images t !! i = Some (n, a).
Proof. intros H%dict_get_Some_elem. by apply list_elem_of_lookup in H. Qed.

Lemma wf_addr_inj t i j n m a :
  wf fs version t → images t !! i = Some (n, a) → images t !! j = Some (m, a) → i = j ∧ n = m.
Proof.
  intros W Hi Hj.
  assert (i = j) as ->.
  { eapply NoDup_lookup; [apply (wf_addrs _ _ _ W)| |];
      rewrite list_lookup_fmap; [rewrite Hi | rewrite Hj]; done. }
  split; [done|]. congruence.
Qed.

(** The invariant does not look at nodes that are not registered. *)
Lemma wf_frame t t' :
  wf fs version t →
  images t' = images t → root_image t' = root_image t →
  python_version t' = python_version t →
  (∀ x, registered t x → heap t' !! x = heap t !! x) →
  wf fs version t'.
Proof.
  intros W Him Hroot Hver Hheap.
  assert (∀ x, registered t' x ↔ registered t x) as Hreg.
  { intros x. unfold registered. by rewrite Him. }
  split.
  - rewrite Hver. apply W.
  - rewrite Him. apply W.
  - rewrite Him. apply W.
  - intros i n a Hi. rewrite Him in Hi.
    destruct (wf_nodes _ _ _ W i n a Hi) as (img & Ha & [N1 N2 N3 N4 N5]).
    exists img. split.
    { rewrite Hheap; [done|]. apply registered_lookup. eauto. }
    split; [done|done| | |].
    + intros c Hc. destruct (N3 c Hc) as (Rc & cimg & Hcimg & Hcp).
      split; [by apply Hreg|]. exists cimg. by rewrite Hheap.
    + intros Hd. destruct (N4 Hd) as (Hdp & P & b & j & p & pimg & H1 & H2 & H3 & H4 & H5 & H6).
      split; [done|]. exists P, b, j, p, pimg. rewrite Him.
      rewrite Hheap; [done|]. apply registered_lookup. eauto.
    + intros Hd. rewrite Hroot. by apply N5.
  - intros r Hr. rewrite Hroot in Hr. rewrite Him. by apply (wf_root _ _ _ W).
Qed.

Lemma registered_snoc t t' X a x :
  images t' = images t ++ [(X, a)] →
  registered t' x ↔ registered t x ∨ x = a.
Proof.
  intros Him. unfold registered. rewrite Him, fmap_app, elem_of_app. simpl.
  by rewrite list_elem_of_singleton.
Qed.

Lemma lookup_snoc_old {A} (l : list A) (x y : A) i :
  (l ++ [x]) !! i = Some y → (i < length l ∧ l !! i = Some y) ∨ (i = length l ∧ y = x).
Proof.
  intros H. destruct (decide (i < length l)) as [Hlt|Hge].
  - left. rewrite lookup_app_l in H by done. done.
  - right. pose proof (lookup_lt_Some _ _ _ H) as Hi. rewrite length_app in Hi. simpl in Hi.
    assert (i = length l) as -> by lia. rewrite list_lookup_middle in H by done.
    split; congruence.
Qed.

(** Registering a fresh node that has no directory: it becomes the root. *)
Lemma wf_new_root t t' X a :
  wf fs version t →
  ¬ registered t a → X ∉ dict_keys (images t) →
  is_dir (fs X) = false →
  heap t' !! a = Some (mkImage X None [] None true) →
  (∀ x, x ≠ a → heap t' !! x = heap t !! x) →
  images t' = images t ++ [(X, a)] →
  root_image t' = Some a →
  python_version t' = python_version t →
  wf fs version t'.
Proof.
  intros W Hunreg Hfresh Hnodir Ha Hframe Him Hroot Hver.
  assert (∀ x, registered t x → x ≠ a) as Hne by (intros x Hx ->; done).
  split.
  - rewrite Hver. apply W.
  - unfold dict_keys. rewrite Him, fmap_app. apply NoDup_app. split; [apply W|].
    split; [|apply NoDup_singleton].
    intros k Hk ->%list_elem_of_singleton. done.
  - rewrite Him, fmap_app. apply NoDup_app. split; [apply W|].
    split; [|apply NoDup_singleton].
    intros k Hk ->%list_elem_of_singleton. done.
  - intros i n b Hi. rewrite Him in Hi.
    apply lookup_snoc_old in Hi as [[Hlt Hi]|[-> [= -> ->]]].
    + destruct (wf_nodes _ _ _ W i n b Hi) as (img & Hb & [N1 N2 N3 N4 N5]).
      assert (registered t b) as Rb by (apply registered_lookup; eauto).
      exists img. split; [rewrite Hframe; auto|].
      split; [done|done| | |].
      * intros c Hc. destruct (N3 c Hc) as (Rc & cimg & Hcimg & Hcp).
        split; [apply (registered_snoc _ _ _ _ _ Him); by left|].
        exists cimg. rewrite Hframe; auto.
      * intros Hd. destruct (N4 Hd) as (Hdp & P & q & j & p & pimg & H1 & H2 & H3 & H4 & H5 & H6).
        split; [done|]. exists P, q, j, p, pimg.
        rewrite Him, lookup_app_l by (apply lookup_lt_Some in H3; lia).
        rewrite Hframe; [done|]. apply Hne, registered_lookup. eauto.
      * intros Hd. rewrite Hroot. destruct (N5 Hd) as (? & ? & ? & ?). eauto.
    + exists (mkImage X None [] None true). split; [done|].
      split; simpl; [done|apply NoDup_nil_2| | |].
      * by intros c ?%elem_of_nil.
      * intros Hd. congruence.
      * intros _. rewrite Hroot. eauto.
  - intros r Hr. rewrite Hroot in Hr. injection Hr as <-.
    exists (length (images t)), X. rewrite Him, list_lookup_middle by done. done.
Qed.

(** Registering a fresh node under its parent, which is registered. *)
Lemma wf_attach t t' X a aimg P b j p pimg :
  wf fs version t →
  ¬ registered t a → X ∉ dict_keys (images t) →
  is_dir (fs X) = true →
  parse_pure fs version X = Ok (P, b) →
  images t !! j = Some (P, p) →
  heap t !! p = Some pimg →
  heap t !! a = Some aimg →
  heap t' !! a = Some (mkImage X (Some p) [] (Some X) (negb b && python_compat pimg)) →
  heap t' !! p = Some (set_children (children pimg ++ [a]) pimg) →
  (∀ x, x ≠ a → x ≠ p → heap t' !! x = heap t !! x) →
  images t' = images t ++ [(X, a)] →
  root_image t' = root_image t →
  python_version t' = python_version t →
  wf fs version t'.
Proof.
  intros W Hunreg Hfresh Hdir Hparse Hj Hp Ha0 Ha Hp' Hframe Him Hroot Hver.
  assert (∀ x, registered t x → x ≠ a) as Hne by (intros x Hx ->; done).
  assert (registered t p) as Rp by (apply registered_lookup; eauto).
  assert (p ≠ a) as Hpa by auto.
  (* a node of [t], in [t'] *)
  assert (∀ x img, registered t x → heap t !! x = Some img →
            ∃ img', heap t' !! x = Some img'
                    ∧ name img' = name img ∧ parent img' = parent img
                    ∧ dirpath img' = dirpath img ∧ python_compat img' = python_compat img
                    ∧ (∀ c, c ∈ children img → c ∈ children img')
                    ∧ (∀ c, c ∈ children img' → c ∈ children img ∨ (x = p ∧ c = a))
                    ∧ (NoDup (children img) → a ∉ children img → NoDup (children img')))
    as Hold.
  { intros x img Rx Hx. destruct (decide (x = p)) as [->|Hxp].
    - exists (set_children (children pimg ++ [a]) pimg).
      assert (img = pimg) as -> by congruence.
      split; [done|]. simpl. repeat split; try done.
      + intros c Hc. apply elem_of_app. by left.
      + intros c [Hc|Hc%list_elem_of_singleton]%elem_of_app; auto.
      + intros Hnd Hnin. apply NoDup_app. split; [done|].
        split; [|apply NoDup_singleton].
        intros c Hc ->%list_elem_of_singleton. done.
    - exists img. rewrite Hframe by auto. repeat split; auto. }
  split.
  - rewrite Hver. apply W.
  - unfold dict_keys. rewrite Him, fmap_app. apply NoDup_app. split; [apply W|].
    split; [|apply NoDup_singleton].
    intros k Hk ->%list_elem_of_singleton. done.
  - rewrite Him, fmap_app. apply NoDup_app. split; [apply W|].
    split; [|apply NoDup_singleton].
    intros k Hk ->%list_elem_of_singleton. done.
  - intros i n x Hi. rewrite Him in Hi.
    apply lookup_snoc_old in Hi as [[Hlt Hi]|[-> [= -> ->]]].
    + destruct (wf_nodes _ _ _ W i n x Hi) as (img & Hx & [N1 N2 N3 N4 N5]).
      assert (registered t x) as Rx by (apply registered_lookup; eauto).
      destruct (Hold x img Rx Hx) as (img' & Hx' & E1 & E2 & E3 & E4 & C1 & C2 & C3).
      exists img'. split; [done|].
      split.
      * congruence.
      * apply C3; [done|]. intros Hin. destruct (N3 a Hin) as [Ra _]. done.
      * intros c Hc. destruct (C2 c Hc) as [Hc'|[-> ->]].
        -- destruct (N3 c Hc') as (Rc & cimg & Hcimg & Hcp).
           split; [apply (registered_snoc _ _ _ _ _ Him); by left|].
           destruct (Hold c cimg Rc Hcimg) as (cimg' & Hc'' & _ & F2 & _).
           exists cimg'. split; [done|]. congruence.
        -- split; [apply (registered_snoc _ _ _ _ _ Him); by right|].
           eexists. split; [exact Ha|done].
      * intros Hd. destruct (N4 Hd) as (Hdp & P' & q & j' & p' & pimg' & H1 & H2 & H3 & H4 & H5 & H6 & H7).
        split; [congruence|].
        assert (registered t p') as Rp' by (apply registered_lookup; eauto).
        destruct (Hold p' pimg' Rp' H5) as (pimg'' & Hp'' & _ & _ & _ & G4 & G1 & _).
        exists P', q, j', p', pimg''.
        rewrite Him, lookup_app_l by (apply lookup_lt_Some in H3; lia).
        repeat split; auto; congruence.
      * intros Hd. rewrite Hroot. destruct (N5 Hd) as (? & ? & ? & ?).
        repeat split; congruence.
    + eexists. split; [exact Ha|].
      split; simpl; [done|apply NoDup_nil_2| | |].
      * by intros c ?%elem_of_nil.
      * intros _. split; [done|].
        exists P, b, j, p, (set_children (children pimg ++ [a]) pimg).
        rewrite Him, lookup_app_l by (apply lookup_lt_Some in Hj; lia).
        repeat split; auto.
        -- by apply lookup_lt_Some in Hj.
        -- simpl. apply elem_of_app. right. by apply list_elem_of_singleton.
      * intros Hd. congruence.
  - intros r Hr. rewrite Hroot in Hr.
    destruct (wf_root _ _ _ W r Hr) as (i & n & Hi & Hn).
    exists i, n. rewrite Him, lookup_app_l by (apply lookup_lt_Some in Hi; lia). done.
Qed.

(** *** The code of one registration *)

Lemma bind_assoc {A B C} (m : M A) (k1 : A → M B) (k2 : B → M C) t :
  bind (bind m k1) k2 t = bind m (fun x => bind (k1 x) k2) t.
Proof. unfold bind. by destruct (m t) as [[x|e] t']. Qed.

Lemma with_heap_same t : with_heap (heap t) t = t.
Proof. by destruct t. Qed.

Lemma alter_fixed {A} (f : A → A) (l : list A) i x :
  l !! i = Some x → f x = x → alter f i l = l.
Proof.
  intros Hi Hf. apply list_eq. intros j.
  destruct (decide (i = j)) as [<-|Hne].
  - rewrite list_lookup_alter_eq, Hi. simpl. by rewrite Hf.
  - by rewrite list_lookup_alter_ne.
Qed.

Lemma link_images_by_name cr P a t :
  link_images_with cr (ByName P) (ByImage a) t
  = bind (get_image_with cr P true) (fun p => link_tail p a) t.
Proof. reflexivity. Qed.

Lemma link_tail_eq p a t pimg :
  heap t !! p = Some pimg → p ≠ a →
  link_tail p a t = (Ok tt, with_heap (link_heap (heap t) p a pimg) t).
Proof.
  intros Hp Hne. unfold link_tail, link_heap.
  rewrite (bind_ok _ _ _ _ _ (obj_ok _ _ _ Hp)).
  set (h1 := if python_compat pimg then heap t
             else alter (set_python_compat false) a (heap t)).
  assert ((if python_compat pimg then ret tt
           else update a (set_python_compat false)) t = (Ok tt, with_heap h1 t)) as E1.
  { unfold h1. destruct (python_compat pimg); cbn; [by rewrite with_heap_same | done]. }
  rewrite (bind_ok _ _ _ _ _ E1).
  assert (heap (with_heap h1 t) !! p = Some pimg) as Hp1.
  { unfold h1. simpl. destruct (python_compat pimg); [done|].
    rewrite list_lookup_alter_ne by done. done. }
  assert (add_child p a (with_heap h1 t)
          = (Ok tt, with_heap (if bool_decide (a ∈ children pimg) then h1
                               else alter (set_children (children pimg ++ [a])) p h1) t))
    as E2.
  { unfold add_child. rewrite (bind_ok _ _ _ _ _ (obj_ok _ _ _ Hp1)).
    destruct (bool_decide (a ∈ children pimg)); done. }
  rewrite (bind_ok _ _ _ _ _ E2). done.
Qed.

Lemma link_heap_length h p a pimg : length (link_heap h p a pimg) = length h.
Proof.
  unfold link_heap. rewrite length_alter.
  destruct (bool_decide _), (python_compat pimg); by rewrite ?length_alter.
Qed.

Lemma link_heap_other h p a pimg x :
  x ≠ a → x ≠ p → link_heap h p a pimg !! x = h !! x.
Proof.
  intros Ha Hp. unfold link_heap. rewrite list_lookup_alter_ne by done.
  destruct (bool_decide _), (python_compat pimg);
    by rewrite ?list_lookup_alter_ne by done.
Qed.

Lemma link_heap_child h p a pimg aimg :
  p ≠ a → h !! a = Some aimg →
  link_heap h p a pimg !! a
  = Some (mkImage (name aimg) (Some p) (children aimg) (dirpath aimg)
            (python_compat aimg && python_compat pimg)).
Proof.
  intros Hne Ha. unfold link_heap. rewrite list_lookup_alter_eq.
  assert ((if python_compat pimg then h else alter (set_python_compat false) a h) !! a
          = Some (set_python_compat (python_compat aimg && python_compat pimg) aimg)) as E.
  { destruct (python_compat pimg).
    - rewrite Ha. destruct aimg. simpl. by rewrite andb_true_r.
    - rewrite list_lookup_alter_eq, Ha. simpl. by rewrite andb_false_r. }
  destruct (bool_decide _); [|rewrite list_lookup_alter_ne by done]; by rewrite E.
Qed.

Lemma link_heap_parent h p a pimg :
  p ≠ a → h !! p = Some pimg →
  link_heap h p a pimg !! p
  = Some (if bool_decide (a ∈ children pimg) then pimg
          else set_children (children pimg ++ [a]) pimg).
Proof.
  intros Hne Hp. unfold link_heap. rewrite list_lookup_alter_ne by done.
  assert ((if python_compat pimg then h else alter (set_python_compat false) a h) !! p
          = Some pimg) as E.
  { destruct (python_compat pimg); [done|]. by rewrite list_lookup_alter_ne. }
  destruct (bool_decide _); [done|]. by rewrite list_lookup_alter_eq, E.
Qed.

Lemma create_image_S fuel X t :
  create_image fs (S fuel) X t
  = bind (add_to_tree_with fs (create_image fs fuel) (length (heap t)))
      (fun _ => store X (length (heap t)))
      (with_heap (heap t ++ [fresh_image X]) t).
Proof. reflexivity. Qed.

Lemma lookup_alloc (h : list Image) x : (h ++ [x]) !! length h = Some x.
Proof. by rewrite list_lookup_middle. Qed.

Lemma lookup_alloc_other (h : list Image) x i : i ≠ length h → (h ++ [x]) !! i = h !! i.
Proof.
  intros Hne. destruct (decide (i < length h)).
  - by rewrite lookup_app_l.
  - rewrite !lookup_ge_None_2; [done| lia |rewrite length_app; simpl; lia].
Qed.

Lemma registered_lt t x : wf fs version t → registered t x → x < length (heap t).
Proof.
  intros W (i & n & Hi)%registered_lookup.
  destruct (wf_nodes _ _ _ W i n x Hi) as (img & Hx & _). by apply lookup_lt_Some in Hx.
Qed.

Lemma extends_refl t : wf fs version t → extends fs version t t [].
Proof.
  intros W. split; [done| | lia | done | lia].
  exists []. by rewrite app_nil_r.
Qed.

Lemma store_eq X a t :
  X ∉ dict_keys (images t) →
  store X a t = (Ok a, with_images (images t ++ [(X, a)]) t).
Proof. intros H. unfold store, bind, ret. by rewrite dict_set_fresh. Qed.

(** The end of a registration under a parent that is registered. *)
Lemma attach_step t X a P b p :
  wf fs version t → dict_get P (images t) = Some p →
  heap t !! a = Some (mkImage X None [] (Some X) (negb b)) →
  ¬ registered t a → X ∉ dict_keys (images t) →
  is_dir (fs X) = true → parse_pure fs version X = Ok (P, b) →
  ∃ t', bind (link_tail p a) (fun _ => store X a) t = (Ok a, t')
        ∧ wf fs version t'
        ∧ images t' = images t ++ [(X, a)]
        ∧ length (heap t') = length (heap t)
        ∧ (∀ x, ¬ registered t x → x ≠ a → heap t' !! x = heap t !! x).
Proof.
  intros W HP Ha Hunreg Hfresh Hdir Hparse.
  destruct (wf_dict_get_inv _ _ _ HP) as [j Hj].
  destruct (wf_nodes _ _ _ W j P p Hj) as (pimg & Hp & [N1 N2 N3 N4 N5]).
  assert (registered t p) as Rp by (apply registered_lookup; eauto).
  assert (p ≠ a) as Hne by (intros ->; done).
  assert (a ∉ children pimg) as Hnc.
  { intros Hin. destruct (N3 a Hin) as [Ra _]. done. }
  eexists. split.
  { rewrite (bind_ok _ _ _ _ _ (link_tail_eq _ _ _ _ Hp Hne)). by apply store_eq. }
  simpl. split; [|split; [done|split; [by rewrite link_heap_length|]]].
  - eapply (wf_attach t _ X a _ P b j p pimg); eauto; simpl.
    + rewrite (link_heap_child _ _ _ _ _ Hne Ha). done.
    + rewrite (link_heap_parent _ _ _ _ Hne Hp). by rewrite bool_decide_false.
    + intros x Hxa Hxp. by apply link_heap_other.
  - intros x Hx Hxa. apply link_heap_other; [done|]. by intros ->.
Qed.

Lemma finish_registration t t2 t3 X P b p c' :
  let a := length (heap t) in
  images t2 = images t → length (heap t2) = S (length (heap t)) →
  heap t2 !! a = Some (mkImage X None [] (Some X) (negb b)) →
  (∀ x, x ≠ a → heap t2 !! x = heap t !! x) →
  ¬ registered t a → X ∉ dict_keys (images t) → X ∉ c' →
  is_dir (fs X) = true → parse_pure fs version X = Ok (P, b) →
  extends fs version t2 t3 c' → dict_get P (images t3) = Some p →
  ∃ t4, bind (link_tail p a) (fun _ => store X a) t3 = (Ok a, t4)
        ∧ extends fs version t t4 (X :: c') ∧ dict_get X (images t4) = Some a.
Proof.
  intros a H2im H2len H2a H2o Hunreg Hfresh Hc' Hdir Hparse [W3 (new & Him3 & Hnew) L3 F3 N3] HP.
  assert (¬ registered t2 a) as Hunreg2 by (unfold registered; by rewrite H2im).
  destruct (F3 a ltac:(lia) Hunreg2) as [Ha3 Hunreg3].
  assert (X ∉ dict_keys (images t3)) as Hfresh3.
  { unfold dict_keys. rewrite Him3, H2im, fmap_app, Hnew, not_elem_of_app, elem_of_reverse. done. }
  destruct (attach_step t3 X a P b p W3 HP) as (t4 & E4 & W4 & Him4 & L4 & F4);
    try done; [by rewrite Ha3|].
  exists t4. split; [done|]. split.
  - split.
    + done.
    + exists (new ++ [(X, a)]). rewrite Him4, Him3, H2im, <- app_assoc. split; [done|].
      rewrite fmap_app, Hnew, reverse_cons. done.
    + lia.
    + intros x Hx Hunregx.
      assert (¬ registered t2 x) as Hunregx2 by (unfold registered; by rewrite H2im).
      destruct (F3 x ltac:(lia) Hunregx2) as [Hx3 Hunregx3].
      assert (x ≠ a) as Hxa by (unfold a; lia).
      split.
      * rewrite F4 by done. rewrite Hx3. by apply H2o.
      * rewrite (registered_snoc _ _ _ _ _ Him4). intros [?|?]; done.
    + intros x Hx. rewrite (registered_snoc _ _ _ _ _ Him4).
      destruct (decide (x = a)) as [->|Hxa]; [by right|]. left.
      apply N3. unfold a in *. lia.
  - rewrite Him4, dict_get_app_fresh.
    apply dict_get_None in Hfresh3. rewrite Hfresh3. by rewrite decide_True.
Qed.

Lemma create_image_spec fuel : ∀ X t,
  wf fs version t → X ∉ dict_keys (images t) →
  match plan fs version fuel (dict_keys (images t)) X with
  | Some c =>
      ∃ a t', create_image fs fuel X t = (Ok a, t')
              ∧ extends fs version t t' c ∧ dict_get X (images t') = Some a
  | None => ∃ e t', create_image fs fuel X t = (Raise e, t')
  end.
Proof.
  induction fuel as [|fuel IH]; intros X t W Hfresh.
  { simpl. by eexists _, _. }
  rewrite create_image_S.
  set (a := length (heap t)).
  set (t1 := with_heap (heap t ++ [fresh_image X]) t).
  assert (¬ registered t a) as Hunreg.
  { intros Ha%registered_lt; [|done]. unfold a in Ha. lia. }
  assert (heap t1 !! a = Some (fresh_image X)) as Ha1 by apply lookup_alloc.
  assert (wf fs version t1) as W1.
  { apply (wf_frame t); try done. intros x Rx. simpl.
    apply lookup_alloc_other. intros ->. done. }
  unfold add_to_tree_with.
  rewrite bind_assoc, (bind_ok _ _ _ _ _ (obj_ok _ _ _ Ha1)).
  simpl dirpath. cbv iota beta. simpl plan.
  destruct (is_dir (fs X)) eqn:Hdir.
  - (* a directory: parse, link under the parent *)
    rewrite bind_assoc.
    pose proof (parse_eq fs version t1 a (fresh_image X) X (wf_version _ _ _ W1) Ha1 eq_refl)
      as Eparse.
    destruct (parse_pure fs version X) as [[P b]|e] eqn:Hparse.
    2:{ rewrite (bind_raise _ _ _ _ _ Eparse). by eexists _, _. }
    rewrite (bind_ok _ _ _ _ _ Eparse).
    set (t2 := if b then with_heap (alter (set_python_compat false) a (heap t1)) t1 else t1).
    assert (images t2 = images t) as H2im by (unfold t2; by destruct b).
    assert (root_image t2 = root_image t) as H2root by (unfold t2; by destruct b).
    assert (python_version t2 = python_version t) as H2ver by (unfold t2; by destruct b).
    assert (length (heap t2) = S (length (heap t))) as H2len.
    { unfold t2. destruct b; simpl; rewrite ?length_alter, length_app; simpl; lia. }
    assert (heap t2 !! a = Some (mkImage X None [] (Some X) (negb b))) as H2a.
    { unfold t2. destruct b; simpl; [|done].
      rewrite list_lookup_alter_eq. unfold a. by rewrite lookup_alloc. }
    assert (∀ x, x ≠ a → heap t2 !! x = heap t !! x) as H2o.
    { intros x Hx. unfold t2. destruct b; simpl;
        rewrite ?list_lookup_alter_ne by done; by apply lookup_alloc_other. }
    assert (wf fs version t2) as W2.
    { apply (wf_frame t); try done. intros x Rx. apply H2o. by intros ->. }
    change (bind (link_images_with (create_image fs fuel) (ByName P) (ByImage a))
              (λ _, store X a) t2)
      with (bind (bind (get_image_with (create_image fs fuel) P true)
                    (fun p => link_tail p a)) (λ _, store X a) t2).
    rewrite bind_assoc.
    destruct (dict_get P (images t)) as [p|] eqn:HP.
    + (* the parent is registered *)
      rewrite decide_True by (apply dict_get_is_Some; eauto).
      assert (get_image_with (create_image fs fuel) P true t2 = (Ok p, t2)) as Eget.
      { unfold get_image_with. by rewrite H2im, HP. }
      rewrite (bind_ok _ _ _ _ _ Eget).
      destruct (finish_registration t t2 t2 X P b p []) as (t4 & E4 & X4 & G4);
        try done.
      * by intros ?%elem_of_nil.
      * by apply extends_refl.
      * by rewrite H2im.
      * by exists a, t4.
    + (* the parent is created first *)
      rewrite decide_False by (apply dict_get_None; done).
      assert (get_image_with (create_image fs fuel) P true t2
              = create_image fs fuel P t2) as Eget.
      { unfold get_image_with. by rewrite H2im, HP. }
      assert (P ∉ dict_keys (images t2)) as HP2.
      { rewrite H2im. by apply dict_get_None. }
      specialize (IH P t2 W2 HP2). rewrite H2im in IH.
      destruct (plan fs version fuel (dict_keys (images t)) P) as [c'|] eqn:Hplan;
        cbn [fmap option_fmap option_map].
      * destruct IH as (p & t3 & Ecr & X3 & G3).
        rewrite <- Eget in Ecr. rewrite (bind_ok _ _ _ _ _ Ecr).
        assert (NoDup (X :: c')) as Hnd.
        { apply (plan_NoDup fs version (S fuel) (dict_keys (images t)) X). simpl.
          rewrite Hdir, Hparse, decide_False by (apply dict_get_None; done).
          by rewrite Hplan. }
        apply NoDup_cons in Hnd as [Hc' _].
        destruct (finish_registration t t2 t3 X P b p c') as (t4 & E4 & X4 & G4);
          try done.
        by exists a, t4.
      * destruct IH as (e & t3 & Ecr).
        rewrite <- Eget in Ecr. rewrite (bind_raise _ _ _ _ _ Ecr). by eexists _, _.
  - (* no directory: the root image *)
    eexists _, _. split; [|split].
    + cbn. rewrite dict_set_fresh by done. reflexivity.
    + split.
      * eapply (wf_new_root t _ X a); eauto; simpl.
        -- rewrite list_lookup_alter_eq. unfold a. by rewrite lookup_alloc.
        -- intros x Hx. rewrite list_lookup_alter_ne by done. by apply lookup_alloc_other.
      * by exists [(X, a)].
      * simpl. rewrite length_alter, length_app. simpl. lia.
      * intros x Hx Hunregx. simpl. split.
        -- rewrite list_lookup_alter_ne by (unfold a; lia).
           apply lookup_alloc_other. lia.
        -- unfold registered. simpl. rewrite fmap_app, elem_of_app. simpl.
           rewrite list_elem_of_singleton. intros [?|?]; [done|unfold a in *; lia].
      * simpl. rewrite length_alter, length_app. simpl. intros x Hx.
        assert (x = a) as -> by (unfold a; lia).
        unfold registered. simpl. rewrite fmap_app, elem_of_app. right. simpl.
        by apply list_elem_of_singleton.
    + simpl. rewrite dict_get_app_fresh.
      apply dict_get_None in Hfresh. rewrite Hfresh. by rewrite decide_True.
Qed.

(** *** Registering a registered node again *)

Lemma set_python_compat_fixed img :
  python_compat img = false → set_python_compat false img = img.
Proof. destruct img. simpl. by intros ->. Qed.

Lemma set_parent_fixed img p : parent img = Some p → set_parent (Some p) img = img.
Proof. destruct img. simpl. by intros ->. Qed.

(** A second [add_to_tree] on a registered node changes nothing: it links
    the node under the parent it has, or raises on the root image, whose
    [dirpath] is [None]. *)
Lemma add_to_tree_again fuel t i n a :
  wf fs version t → images t !! i = Some (n, a) →
  add_to_tree fs fuel a t
  = (if is_dir (fs n) then Ok tt else Raise AttributeError, t).
Proof.
  intros W Hi.
  destruct (wf_nodes _ _ _ W i n a Hi) as (img & Ha & [N1 N2 N3 N4 N5]).
  unfold add_to_tree, add_to_tree_with.
  rewrite (bind_ok _ _ _ _ _ (obj_ok _ _ _ Ha)).
  destruct (is_dir (fs n)) eqn:Hdir.
  - destruct (N4 eq_refl) as (Hdp & P & b & j & p & pimg & H1 & H2 & H3 & H4 & H5 & H6 & H7).
    rewrite Hdp, Hdir.
    pose proof (parse_eq fs version t a img n (wf_version _ _ _ W) Ha Hdp) as Eparse.
    rewrite H1 in Eparse.
    assert ((if b then with_heap (alter (set_python_compat false) a (heap t)) t else t) = t)
      as E2.
    { destruct b; [|done].
      rewrite (alter_fixed _ _ _ _ Ha), with_heap_same; [done|].
      apply set_python_compat_fixed. by rewrite H7. }
    rewrite E2 in Eparse. rewrite (bind_ok _ _ _ _ _ Eparse).
    rewrite link_images_by_name.
    assert (get_image_with (create_image fs fuel) P true t = (Ok p, t)) as Eget.
    { unfold get_image_with. by rewrite (wf_dict_get _ _ _ _ W H3). }
    rewrite (bind_ok _ _ _ _ _ Eget).
    assert (p ≠ a) as Hne.
    { intros ->. destruct (wf_addr_inj _ _ _ _ _ _ W Hi H3). lia. }
    rewrite (link_tail_eq _ _ _ _ H5 Hne).
    assert (link_heap (heap t) p a pimg = heap t) as ->; [|by rewrite with_heap_same].
    unfold link_heap. rewrite bool_decide_true by done.
    assert ((if python_compat pimg then heap t
             else alter (set_python_compat false) a (heap t)) = heap t) as ->.
    { destruct (python_compat pimg) eqn:Hc; [done|].
      apply (alter_fixed _ _ _ _ Ha), set_python_compat_fixed.
      rewrite H7. by rewrite andb_false_r. }
    by apply (alter_fixed _ _ _ _ Ha), set_parent_fixed.
  - destruct (N5 eq_refl) as (Hdp & _). by rewrite Hdp.
Qed.

(** *** The whole construction *)

Lemma extends_all_registered t t' c :
  all_registered t → extends fs version t t' c → all_registered t'.
Proof.
  intros Hall [W (new & Him & _) L F N] x Hx.
  destruct (decide (x < length (heap t))) as [Hlt|Hge].
  - specialize (Hall x Hlt). unfold registered in *. rewrite Him, fmap_app, elem_of_app. by left.
  - apply N. lia.
Qed.

Lemma create_tree_spec fuel paths : ∀ t,
  wf fs version t → all_registered t →
  match plan_tree fs version fuel (dict_keys (images t)) paths with
  | Some D =>
      ∃ t', _create_tree fs fuel paths t = (Ok tt, t')
            ∧ wf fs version t' ∧ all_registered t' ∧ dict_keys (images t') = D
  | None => ∃ e t', _create_tree fs fuel paths t = (Raise e, t')
  end.
Proof.
  induction paths as [|n rest IH]; intros t W Hall; simpl.
  { by exists t. }
  destruct (dict_get n (images t)) as [a|] eqn:Hn.
  - (* registered already *)
    assert (get_image fs fuel n true t = (Ok a, t)) as Eget.
    { unfold get_image, get_image_with. by rewrite Hn. }
    rewrite (bind_ok _ _ _ _ _ Eget).
    destruct (wf_dict_get_inv _ _ _ Hn) as [i Hi].
    pose proof (add_to_tree_again fuel t i n a W Hi) as Eadd.
    destruct (is_dir (fs n)).
    + rewrite decide_True by (apply dict_get_is_Some; eauto).
      rewrite (bind_ok _ _ _ _ _ Eadd). by apply IH.
    + rewrite (bind_raise _ _ _ _ _ Eadd). by eexists _, _.
  - (* created now *)
    assert (get_image fs fuel n true t = create_image fs fuel n t) as Eget.
    { unfold get_image, get_image_with. by rewrite Hn. }
    apply dict_get_None in Hn.
    pose proof (create_image_spec fuel n t W Hn) as Hcr.
    destruct (plan fs version fuel (dict_keys (images t)) n) as [c|] eqn:Hplan.
    + destruct Hcr as (a & t1 & Ecr & X1 & G1).
      rewrite <- Eget in Ecr. rewrite (bind_ok _ _ _ _ _ Ecr).
      destruct (wf_dict_get_inv _ _ _ G1) as [i Hi].
      pose proof (add_to_tree_again fuel t1 i n a (ex_wf _ _ _ _ _ X1) Hi) as Eadd.
      destruct (is_dir (fs n)).
      * rewrite decide_False by done.
        rewrite (bind_ok _ _ _ _ _ Eadd).
        assert (dict_keys (images t1) = dict_keys (images t) ++ reverse c) as Hk.
        { destruct (ex_images _ _ _ _ _ X1) as (new & -> & Hnew).
          unfold dict_keys. by rewrite fmap_app, Hnew. }
        rewrite <- Hk. apply IH; [apply X1|]. by eapply extends_all_registered.
      * rewrite (bind_raise _ _ _ _ _ Eadd). by eexists _, _.
    + destruct Hcr as (e & t1 & Ecr).
      rewrite <- Eget in Ecr. rewrite (bind_raise _ _ _ _ _ Ecr).
      destruct (is_dir (fs n)); [rewrite decide_False by done|]; by eexists _, _.
Qed.

Lemma wf_empty : wf fs version (empty_tree version).
Proof.
  split; simpl; [done|apply NoDup_nil_2|apply NoDup_nil_2| |done].
  intros i n a Hi. by rewrite lookup_nil in Hi.
Qed.

Lemma constructed_wf t : constructed fs version t → wf fs version t ∧ all_registered t.
Proof.
  intros (fuel & paths & Hinit). unfold ImageTree_init in Hinit.
  pose proof (create_tree_spec fuel paths (empty_tree version) wf_empty) as H.
  destruct (plan_tree fs version fuel (dict_keys (images (empty_tree version))) paths).
  - destruct H as (t' & E & W & A & _); [intros x Hx; simpl in Hx; lia|].
    rewrite E in Hinit. injection Hinit as <-. done.
  - destruct H as (e & t' & E); [intros x Hx; simpl in Hx; lia|]. congruence.
Qed.

End Invariant.

(** ** The shape of a tree that satisfies the invariant *)

Lemma extend_each_ok {A} (g : A → outcome (list addr)) xs l :
  extend_each g xs = Ok l →
  ∀ y, y ∈ l ↔ ∃ x d, x ∈ xs ∧ g x = Ok d ∧ y ∈ d.
Proof.
  revert l. induction xs as [|x xs IH]; intros l; simpl.
  - intros [= <-] y. split; [by intros ?%elem_of_nil|].
    by intros (x & d & ?%elem_of_nil & _).
  - destruct (g x) as [d|] eqn:Hg; [|done].
    destruct (extend_each g xs) as [ds|]; [|done].
    intros [= <-] y. rewrite elem_of_app, (IH ds eq_refl). split.
    + intros [Hy|(x' & d' & Hx' & Hg' & Hy)].
      * exists x, d. split; [left|done].
      * exists x', d'. split; [by right|done].
    + intros (x' & d' & [->|Hx']%elem_of_cons & Hg' & Hy).
      * left. congruence.
      * right. eauto.
Qed.

Lemma extend_each_all {A} (g : A → outcome (list addr)) xs :
  (∀ x, x ∈ xs → ∃ d, g x = Ok d) → ∃ l, extend_each g xs = Ok l.
Proof.
  induction xs as [|x xs IH]; intros H; simpl; [by eexists|].
  destruct (H x) as [d ->]; [left|].
  destruct IH as [ds ->]; [intros y Hy; apply H; by right|]. by eexists.
Qed.

Lemma extend_each_raise {A} (g : A → outcome (list addr)) xs x e :
  x ∈ xs → g x = Raise e → ∃ e', extend_each g xs = Raise e'.
Proof.
  induction xs as [|y xs IH]; [by intros ?%elem_of_nil|].
  intros [->|Hx]%elem_of_cons Hg; simpl.
  - rewrite Hg. by eexists.
  - destruct (g y); [|by eexists].
    destruct (IH Hx Hg) as [e' ->]. by eexists.
Qed.

Lemma descendants_sound fuel t a l :
  descendants fuel t a = Ok l → ∀ x, x ∈ l → descends t a x.
Proof.
  revert a l. induction fuel as [|fuel IH]; intros a l; simpl; [done|].
  destruct (heap t !! a) as [img|] eqn:Ha; [|done].
  destruct (extend_each _ _) as [descs|] eqn:He; [|done].
  intros [= <-] x [->|Hx]%elem_of_cons; [constructor|].
  apply (extend_each_ok _ _ _ He) in Hx as (c & d & Hc & Hd & Hx).
  assert (descends t a c) as Hac by (eapply descends_child; [constructor|done..]).
  specialize (IH c d Hd x Hx). clear -Hac IH.
  induction IH as [|y yimg x Hcy IHy Hy Hx]; [done|].
  eapply descends_child; eauto.
Qed.

Lemma descendants_self fuel t a l : descendants fuel t a = Ok l → a ∈ l.
Proof.
  destruct fuel as [|fuel]; simpl; [done|].
  destruct (heap t !! a); [|done].
  destruct (extend_each _ _); [|done]. intros [= <-]. left.
Qed.

Section Structure.

Variable fs : filesystem.
Variable version : option string.
Variable t : ImageTree.
Hypothesis W : wf fs version t.

(** A child is registered after its parent, points back to it, and is
    incompatible when the parent is. *)
Lemma child_facts i n a img c :
  images t !! i = Some (n, a) → heap t !! a = Some img → c ∈ children img →
  ∃ i' m cimg, images t !! i' = Some (m, c) ∧ i < i'
               ∧ heap t !! c = Some cimg ∧ parent cimg = Some a
               ∧ (python_compat img = false → python_compat cimg = false).
Proof.
  intros Hi Ha Hc.
  destruct (wf_nodes _ _ _ W i n a Hi) as (img' & Ha' & [N1 N2 N3 N4 N5]).
  assert (img' = img) as -> by congruence.
  destruct (N3 c Hc) as ((i' & m & Hi')%registered_lookup & cimg & Hcimg & Hcp).
  destruct (wf_nodes _ _ _ W i' m c Hi') as (cimg' & Hc' & [C1 C2 C3 C4 C5]).
  assert (cimg' = cimg) as -> by congruence.
  destruct (is_dir (fs m)) eqn:Hdir.
  - destruct (C4 eq_refl) as (_ & P & b & j & p & pimg & H1 & H2 & H3 & H4 & H5 & H6 & H7).
    assert (p = a) as -> by congruence.
    destruct (wf_addr_inj _ _ _ _ _ _ _ _ W Hi H3) as [-> ->].
    assert (pimg = img) as -> by congruence.
    exists i', m, cimg. repeat split; try done.
    intros Hf. rewrite H7, Hf. by rewrite andb_false_r.
  - destruct (C5 eq_refl) as (_ & Hnone & _). congruence.
Qed.

(** Below a registered node there are registered nodes only. *)
Lemma descends_registered a x :
  registered t a → descends t a x → registered t x.
Proof.
  intros Ra. induction 1 as [|y yimg x _ IH Hy Hx]; [done|].
  apply registered_lookup in IH as (i & n & Hi).
  destruct (child_facts _ _ _ _ _ Hi Hy Hx) as (i' & m & cimg & Hi' & _).
  apply registered_lookup. eauto.
Qed.

(** [descendants] returns, and returns the nodes below the node. *)
Lemma descendants_complete k : ∀ i n a,
  images t !! i = Some (n, a) → length (images t) - i ≤ k →
  ∀ fuel, k ≤ fuel →
  ∃ l, descendants fuel t a = Ok l ∧ ∀ x, x ∈ l ↔ descends t a x.
Proof.
  induction k as [|k IH]; intros i n a Hi Hk fuel Hfuel.
  { apply lookup_lt_Some in Hi. lia. }
  destruct fuel as [|fuel]; [lia|].
  destruct (wf_nodes _ _ _ W i n a Hi) as (img & Ha & _).
  assert (∃ descs, extend_each (descendants fuel t) (children img) = Ok descs) as [descs He].
  { apply extend_each_all. intros c Hc.
    destruct (child_facts _ _ _ _ _ Hi Ha Hc) as (i' & m & cimg & Hi' & Hlt & _).
    destruct (IH i' m c Hi' ltac:(lia) fuel ltac:(lia)) as (d & Hd & _). eauto. }
  exists (a :: descs). simpl. rewrite Ha, He. split; [done|].
  intros x. split.
  - apply (descendants_sound (S fuel)). simpl. by rewrite Ha, He.
  - intros Hx. rewrite elem_of_cons.
    destruct (decide (x = a)) as [->|Hne]; [by left|]. right.
    apply (extend_each_ok _ _ _ He).
    (* the first step of the path from [a] to [x] *)
    assert (∃ c, c ∈ children img ∧ descends t c x) as (c & Hc & Hcx).
    { clear -Hx Hne Ha. induction Hx as [|y yimg x Hay IHy Hy Hx]; [done|].
      destruct (decide (y = a)) as [->|Hya].
      - exists x. assert (yimg = img) as -> by congruence. split; [done|constructor].
      - destruct (IHy Hya) as (c & Hc & Hcy). exists c. split; [done|].
        eapply descends_child; eauto. }
    destruct (child_facts _ _ _ _ _ Hi Ha Hc) as (i' & m & cimg & Hi' & Hlt & _).
    destruct (IH i' m c Hi' ltac:(lia) fuel ltac:(lia)) as (d & Hd & Hdx).
    exists c, d. split; [done|]. split; [done|]. by apply Hdx.
Qed.


(** The root image is below no other node. *)
Lemma descends_root a r :
  registered t a → root_image t = Some r → descends t a r → a = r.
Proof.
  intros Ra Hr Hx. destruct Hx as [|y yimg x Hay Hy Hx]; [done|].
  pose proof (descends_registered _ _ Ra Hay) as (i & n & Hi)%registered_lookup.
  destruct (child_facts _ _ _ _ _ Hi Hy Hx) as (i' & m & cimg & Hi' & _ & Hc & Hp & _).
  destruct (wf_root _ _ _ W x Hr) as (j & k & Hj & Hk).
  destruct (wf_addr_inj _ _ _ _ _ _ _ _ W Hi' Hj) as [-> ->].
  destruct (wf_nodes _ _ _ W j k x Hj) as (img' & Hx' & [_ _ _ _ N5]).
  destruct (N5 Hk) as (_ & Hnone & _). congruence.
Qed.

(** The chain of a registered node is no longer than its position in the
    mapping allows. *)
Lemma chain_bound i : ∀ n a l,
  images t !! i = Some (n, a) → parent_chain t a l → length l ≤ S i.
Proof.
  induction (lt_wf i) as [i _ IH]. intros n a l Hi Hl.
  destruct (wf_nodes _ _ _ W i n a Hi) as (img & Ha & [_ _ _ N4 N5]).
  inversion Hl as [a' img' Ha' Hp' | a' img' p l' Ha' Hp' Hne Hl']; subst.
  - simpl. lia.
  - assert (img' = img) as -> by congruence.
    rewrite length_app. simpl.
    destruct (is_dir (fs n)) eqn:Hdir.
    + destruct (N4 eq_refl) as (_ & P & b & j & q & pimg & _ & Hj & Hq & Hpq & _).
      assert (q = p) as -> by congruence.
      specialize (IH j Hj P p l' Hq Hl'). lia.
    + destruct (N5 eq_refl) as (_ & Hnone & _). congruence.
Qed.

(** The root image has no chain. *)
Lemma root_no_chain r l : root_image t = Some r → ¬ parent_chain t r l.
Proof.
  intros Hr Hc.
  destruct (wf_root _ _ _ W r Hr) as (j & k & Hj & Hk).
  destruct (wf_nodes _ _ _ W j k r Hj) as (img & Hx & [_ _ _ _ N5]).
  destruct (N5 Hk) as (_ & Hnone & _).
  inversion Hc as [a' img' Ha' Hp' | a' img' p' l' Ha' Hp' _ _]; subst; congruence.
Qed.

(** The chain of a child is the chain of its parent and the child. *)
Lemma chain_child a img l c :
  registered t a → heap t !! a = Some img → parent_chain t a l → c ∈ children img →
  parent_chain t c (l ++ [c]).
Proof.
  intros (i & n & Hi)%registered_lookup Ha Hl Hc.
  destruct (child_facts _ _ _ _ _ Hi Ha Hc) as (i' & m & cimg & Hi' & _ & Hcimg & Hp & _).
  eapply chain_below; eauto.
  intros Hr. symmetry in Hr. by apply (root_no_chain _ _ Hr) in Hl.
Qed.

Lemma chain_descends a l x :
  registered t a → parent_chain t a l → descends t a x →
  ∃ l', parent_chain t x l' ∧ length l ≤ length l' ∧ (x ≠ a → length l < length l').
Proof.
  intros Ra Hl Hx. induction Hx as [|y yimg x Hay IH Hy Hx].
  - exists l. split; [done|]. split; [lia|done].
  - destruct IH as (ly & Hly & Hlen & _).
    pose proof (descends_registered _ _ Ra Hay) as Ry.
    exists (ly ++ [x]). split; [by eapply chain_child|].
    rewrite length_app. simpl. split; [lia|]. intros _. lia.
Qed.

Lemma descends_trans a x y : descends t a x → descends t x y → descends t a y.
Proof.
  intros Hax Hxy. induction Hxy as [|z zimg y _ IH Hz Hy]; [done|].
  eapply descends_child; eauto.
Qed.

(** A node below the root image has its chain of ancestors. *)
Lemma below_root_chain a : below_root t a → ∃ l, parent_chain t a l.
Proof.
  intros (r & Hr & Hd & Hne).
  assert (registered t r) as Rr.
  { destruct (wf_root _ _ _ W r Hr) as (i & n & Hi & _). apply registered_lookup. eauto. }
  induction Hd as [|y yimg x Hry IH Hy Hx]; [done|].
  pose proof (descends_registered _ _ Rr Hry) as Ry.
  destruct (decide (y = r)) as [->|Hyr].
  - apply registered_lookup in Ry as (i & n & Hi).
    destruct (child_facts _ _ _ _ _ Hi Hy Hx) as (i' & m & cimg & _ & _ & Hc & Hp & _).
    exists [x]. eapply chain_top; [done|]. congruence.
  - destruct (IH Hyr) as [ly Hly]. exists (ly ++ [x]). by eapply chain_child.
Qed.

Lemma below_root_descends a x :
  registered t a → below_root t a → descends t a x → below_root t x.
Proof.
  intros Ra (r & Hr & Hd & Hne) Hx. exists r. split; [done|].
  split; [by eapply descends_trans|].
  intros ->. apply Hne. by eapply descends_root.
Qed.

End Structure.

(** ** Sorting by the length of the chain *)

Lemma insert_by_key_perm x l : insert_by_key x l ≡ₚ x :: l.
Proof.
  induction l as [|y l IH]; simpl; [done|].
  destruct (Nat.leb x.1 y.1); [done|]. rewrite IH. apply Permutation_swap.
Qed.

Lemma sort_by_key_perm l : sort_by_key l ≡ₚ l.
Proof.
  induction l as [|x l IH]; simpl; [done|].
  rewrite insert_by_key_perm. by rewrite IH.
Qed.

Lemma insert_by_key_sorted x l :
  StronglySorted key_le l → StronglySorted key_le (insert_by_key x l).
Proof.
  induction 1 as [|y l Hl IH Hy]; simpl.
  - repeat constructor.
  - destruct (Nat.leb_spec x.1 y.1) as [Hle|Hgt].
    + constructor; [by constructor|]. constructor; [done|].
      eapply Forall_impl; [exact Hy|]. unfold key_le. intros z Hz. lia.
    + constructor; [done|].
      rewrite insert_by_key_perm. constructor; [unfold key_le; lia|done].
Qed.

Lemma sort_by_key_sorted l : StronglySorted key_le (sort_by_key l).
Proof.
  induction l as [|x l IH]; simpl; [constructor|]. by apply insert_by_key_sorted.
Qed.

Lemma StronglySorted_lookup {A} (R : relation A) l i j x y :
  StronglySorted R l → i < j → l !! i = Some x → l !! j = Some y → R x y.
Proof.
  intros Hs. revert i j. induction Hs as [|z l Hl IH Hz]; intros i j Hij Hi Hj; [done|].
  destruct j as [|j]; [lia|]. simpl in Hj. destruct i as [|i].
  - injection Hi as ->. rewrite Forall_forall in Hz. apply Hz.
    by eapply list_elem_of_lookup_2.
  - simpl in Hi. apply (IH i j); [lia|done..].
Qed.

Lemma StronglySorted_filter {A} (R : relation A) (P : A → Prop)
    `{∀ x, Decision (P x)} l :
  StronglySorted R l → StronglySorted R (filter P l).
Proof.
  induction 1 as [|z l Hl IH Hz]; [constructor|].
  rewrite filter_cons. case_decide; [|done].
  constructor; [done|]. rewrite Forall_forall in *.
  intros y [_ Hy]%list_elem_of_filter. by apply Hz.
Qed.

(** Sorting pairs whose key is a function of the element sorts the
    elements by that function. *)
Lemma sorted_by (f : addr → nat) (l : list addr) :
  StronglySorted (fun x y => f x ≤ f y) (sort_by_key ((fun a => (f a, a)) <$> l)).*2.
Proof.
  pose proof (sort_by_key_sorted ((fun a => (f a, a)) <$> l)) as Hs.
  assert (Forall (fun p : nat * addr => p.1 = f p.2)
            (sort_by_key ((fun a => (f a, a)) <$> l))) as Hk.
  { rewrite sort_by_key_perm. apply Forall_fmap, Forall_forall. done. }
  induction Hs as [|z s Hs IH Hz]; simpl; [constructor|].
  apply Forall_cons in Hk as [Hz1 Hk].
  constructor; [by apply IH|].
  rewrite Forall_fmap, Forall_forall. intros p Hp. simpl.
  rewrite Forall_forall in Hz, Hk.
  specialize (Hz p Hp). specialize (Hk p Hp). unfold key_le in Hz. lia.
Qed.

Lemma sorted_by_perm (f : addr → nat) (l : list addr) :
  (sort_by_key ((fun a => (f a, a)) <$> l)).*2 ≡ₚ l.
Proof.
  rewrite sort_by_key_perm, <- list_fmap_compose.
  induction l as [|a l IH]; simpl; [done|]. by rewrite IH.
Qed.

(** ** The parts of [determine_rebuilds] *)

Lemma keyed_eq fuel t l :
  (∀ a, a ∈ l → ∃ la, ancestors fuel t a = Ok la ∧ length la = depth_of t a) →
  keyed fuel t l = Ok ((fun a => (depth_of t a, a)) <$> l).
Proof.
  induction l as [|a l IH]; intros H; simpl; [done|].
  destruct (H a) as (la & -> & <-); [left|].
  rewrite IH; [done|]. intros b Hb. apply H. by right.
Qed.

Lemma keyed_raise fuel t l a e :
  a ∈ l → ancestors fuel t a = Raise e → ∃ e', keyed fuel t l = Raise e'.
Proof.
  induction l as [|b l IH]; [by intros ?%elem_of_nil|].
  intros [->|Ha]%elem_of_cons He; simpl.
  - rewrite He. by eexists.
  - destruct (ancestors fuel t b); [|by eexists].
    destruct (IH Ha He) as [e' ->]. by eexists.
Qed.

Lemma compatible_names_eq t l :
  (∀ a, a ∈ l → is_Some (heap t !! a)) →
  compatible_names t l
  = Ok (node_name t <$> filter (fun a => node_compat t a = true) l).
Proof.
  induction l as [|a l IH]; intros H; simpl; [done|].
  destruct (H a) as [img Ha]; [left|].
  assert (node_compat t a = python_compat img) as Hc by (unfold node_compat; by rewrite Ha).
  assert (node_name t a = name img) as Hn by (unfold node_name; by rewrite Ha).
  rewrite Ha, IH by (intros b Hb; apply H; by right).
  rewrite filter_cons, Hc.
  destruct (python_compat img); case_decide; try done.
  by rewrite fmap_cons, Hn.
Qed.

Lemma extend_each_ext {A} (g g' : A → outcome (list addr)) xs :
  (∀ x, x ∈ xs → g x = g' x) → extend_each g xs = extend_each g' xs.
Proof.
  induction xs as [|x xs IH]; intros H; simpl; [done|].
  rewrite (H x) by left. rewrite IH; [done|]. intros y Hy. apply H. by right.
Qed.

Lemma descendants_mono fuel : ∀ fuel' t a l,
  descendants fuel t a = Ok l → fuel ≤ fuel' → descendants fuel' t a = Ok l.
Proof.
  induction fuel as [|fuel IH]; intros fuel' t a l; [done|].
  destruct fuel' as [|fuel']; [lia|]. simpl. intros H Hle.
  destruct (heap t !! a) as [img|]; [|done].
  destruct (extend_each (descendants fuel t) (children img)) as [descs|] eqn:He; [|done].
  assert (extend_each (descendants fuel' t) (children img) = Ok descs) as ->; [|done].
  clear H. revert descs He. induction (children img) as [|c cs IHc]; intros descs; simpl; [done|].
  destruct (descendants fuel t c) as [d|] eqn:Hd; [|done].
  rewrite (IH fuel' t c d Hd) by lia.
  destruct (extend_each (descendants fuel t) cs) as [ds|]; [|done].
  rewrite (IHc ds eq_refl). done.
Qed.

(** ** The example stack *)

Lemma stack_constructed : constructed Examples.stack_fs (Some "3.8") Examples.stack.
Proof. exists 4, ["leaf1"; "mid"; "leaf2"]. vm_compute. reflexivity. Qed.

Lemma stack_mid_below_root : below_root Examples.stack 1.
Proof.
  exists 2. split; [reflexivity|]. split; [|lia].
  eapply (descends_child _ _ 2); [constructor|reflexivity|]. left.
Qed.

Lemma stack_leaf1_below_root : below_root Examples.stack 0.
Proof.
  exists 2. split; [reflexivity|]. split; [|lia].
  eapply (descends_child _ _ 1); [|reflexivity|left].
  eapply (descends_child _ _ 2); [constructor|reflexivity|]. left.
Qed.

(** ** The chain of ancestors of a node *)

Lemma parent_chain_depth t a l : parent_chain t a l → depth_below_root t a (length l).
Proof.
  induction 1 as [a img Ha Hp | a img p l Ha Hp Hne _ IH].
  - by eapply depth_child.
  - rewrite length_app. simpl. rewrite Nat.add_1_r. by eapply depth_deeper.
Qed.

(** C6, amended.  In a constructed tree, [ancestors] of every node below
    the root image returns the nodes on the parent chain from the child of
    the root image down to the node: the parent of the first is the root
    image, each next one is a child of the one before, the last is the node
    itself, and the length is the depth of the node below the root image. *)
Theorem ancestors_chain_below_root fs version t a :
  constructed fs version t → below_root t a →
  ∃ l, (∀ fuel, length (images t) ≤ fuel → ancestors fuel t a = Ok l)
       ∧ last l = Some a
       ∧ (∃ x ximg, head l = Some x ∧ heap t !! x = Some ximg
                    ∧ parent ximg = root_image t)
       ∧ (∀ k x y, l !! k = Some x → l !! S k = Some y →
            ∃ yimg, heap t !! y = Some yimg ∧ parent yimg = Some x)
       ∧ depth_below_root t a (length l).
Proof.
  intros [W Hall]%constructed_wf Hbelow.
  destruct (below_root_chain fs version t W a Hbelow) as [l Hl].
  assert (registered t a) as (i & n & Hi)%registered_lookup.
  { inversion Hl as [a' img Ha _ | a' img p l' Ha _ _ _]; subst;
      apply Hall; by apply lookup_lt_Some in Ha. }
  pose proof (chain_bound fs version t W i n a l Hi Hl) as Hlen.
  exists l. split; [|split; [|split; [|split]]].
  - intros fuel Hfuel. apply ancestors_complete; [done|].
    apply lookup_lt_Some in Hi. lia.
  - by eapply parent_chain_last.
  - by eapply parent_chain_links.
  - by eapply parent_chain_links.
  - by apply parent_chain_depth.
Qed.

Lemma ancestors_chain_below_root_witness :
  ∃ l, (∀ fuel, length (images Examples.stack) ≤ fuel →
          ancestors fuel Examples.stack 0 = Ok l)
       ∧ last l = Some 0
       ∧ (∃ x ximg, head l = Some x ∧ heap Examples.stack !! x = Some ximg
                    ∧ parent ximg = root_image Examples.stack)
       ∧ (∀ k x y, l !! k = Some x → l !! S k = Some y →
            ∃ yimg, heap Examples.stack !! y = Some yimg ∧ parent yimg = Some x)
       ∧ depth_below_root Examples.stack 0 (length l).
Proof.
  apply (ancestors_chain_below_root Examples.stack_fs (Some "3.8") Examples.stack 0).
  - exact stack_constructed.
  - exact stack_leaf1_below_root.
Defined.

(** C6 as stated fails at the root image of the example stack, which is a
    node of a constructed tree: [ancestors] returns no sequence for it. *)
Lemma ancestors_of_root_fails :
  ¬ (constructed Examples.stack_fs (Some "3.8") Examples.stack →
     ∀ a img, heap Examples.stack !! a = Some img →
       ∃ fuel l, ancestors fuel Examples.stack a = Ok l).
Proof.
  intros H.
  destruct (H stack_constructed 2 (mkImage "base" None [1] None true) eq_refl)
    as (fuel & l & Hl).
  apply ancestors_sound in Hl.
  destruct (constructed_wf _ _ _ stack_constructed) as [W _].
  by apply (root_no_chain _ _ _ W 2 l) in Hl.
Qed.

(** ** The rebuild set *)

(** The loop over the edited names collects the descendants of each, or
    raises for the first name that is not a key or whose descendants
    raise. *)
Lemma dependents_eq fs fuel edited t :
  dependents fs fuel edited t
  = (extend_each
       (fun img_name =>
          match dict_get img_name (images t) with
          | Some image => descendants fuel t image
          | None => Raise (ValueError (no_image_msg img_name (images t)))
          end) edited, t).
Proof.
  induction edited as [|n rest IH]; simpl; [done|].
  unfold bind at 1. unfold get_image, get_image_with.
  destruct (dict_get n (images t)) as [a|]; [|done].
  unfold bind at 1.
  destruct (descendants fuel t a) as [d|e]; [|done].
  unfold bind at 1. rewrite IH.
  by destruct (extend_each _ rest).
Qed.

Section Rebuilds.

(** The order of iteration over [set(dependent_imgs)]: any order of its
    distinct elements. *)
Variable set_order : list addr → list addr.
Hypothesis set_order_perm : ∀ l, set_order l ≡ₚ remove_dups l.

Lemma depth_of_chain t x l :
  parent_chain t x l → length l ≤ length (images t) → depth_of t x = length l.
Proof. intros Hl Hlen. unfold depth_of. by rewrite (ancestors_complete _ _ _ Hl). Qed.

(** C1, amended.  In a constructed tree, for names that are keys of the
    mapping and denote nodes below the root image, [determine_rebuilds]
    returns the names of the compatible nodes of a sequence [L] that holds,
    once each, the nodes at or below the edited nodes, in ascending order
    of the length of their chains of ancestors; a node comes before every
    node below it. *)
Theorem determine_rebuilds_spec fs version t edited :
  constructed fs version t →
  (∀ n, n ∈ edited →
     ∃ a, dict_get n (images t) = Some a ∧ below_root t a) →
  ∃ L,
    (∀ fuel, length (images t) ≤ fuel →
       determine_rebuilds fs set_order fuel edited t
       = (Ok (node_name t <$> filter (fun a => node_compat t a = true) L), t))
    ∧ NoDup L
    ∧ (∀ x, x ∈ L ↔
         ∃ n a, n ∈ edited ∧ dict_get n (images t) = Some a ∧ descends t a x)
    ∧ StronglySorted (fun x y => depth_of t x ≤ depth_of t y) L
    ∧ (∀ x, x ∈ L → depth_below_root t x (depth_of t x))
    ∧ (∀ i j x y,
         filter (fun a => node_compat t a = true) L !! i = Some x →
         filter (fun a => node_compat t a = true) L !! j = Some y →
         descends t x y → x ≠ y → i < j).
Proof.
  intros [W Hall]%constructed_wf Hed.
  set (N := length (images t)).
  set (g := fun fuel img_name =>
              match dict_get img_name (images t) with
              | Some image => descendants fuel t image
              | None => Raise (ValueError (no_image_msg img_name (images t)))
              end).
  (* the descendants of every edited node *)
  assert (∀ n, n ∈ edited → ∃ a d, dict_get n (images t) = Some a
            ∧ registered t a ∧ below_root t a
            ∧ (∀ fuel, N ≤ fuel → descendants fuel t a = Ok d)
            ∧ ∀ x, x ∈ d ↔ descends t a x) as Hdesc.
  { intros n Hn. destruct (Hed n Hn) as (a & Ha & Hroot).
    destruct (wf_dict_get_inv _ _ _ Ha) as [i Hi].
    destruct (descendants_complete fs version t W N i n a Hi ltac:(unfold N; lia) N
                ltac:(lia)) as (d & Hd & Hchar).
    exists a, d. split; [done|]. split; [apply registered_lookup; eauto|].
    split; [done|]. split; [|done].
    intros fuel Hfuel. by apply (descendants_mono N). }
  assert (∃ deps, extend_each (g N) edited = Ok deps) as [deps Hdeps].
  { apply extend_each_all. intros n Hn.
    destruct (Hdesc n Hn) as (a & d & Ha & _ & _ & Hd & _).
    exists d. unfold g. rewrite Ha. by apply Hd. }
  assert (∀ fuel, N ≤ fuel → extend_each (g fuel) edited = Ok deps) as Hdeps'.
  { intros fuel Hfuel. rewrite <- Hdeps. apply extend_each_ext. intros n Hn.
    destruct (Hdesc n Hn) as (a & d & Ha & _ & _ & Hd & _).
    unfold g. rewrite Ha, !Hd by lia. done. }
  assert (∀ x, x ∈ deps ↔
            ∃ n a, n ∈ edited ∧ dict_get n (images t) = Some a ∧ descends t a x)
    as Hmem.
  { intros x. rewrite (extend_each_ok _ _ _ Hdeps x). split.
    - intros (n & d & Hn & Hg & Hx).
      destruct (Hdesc n Hn) as (a & d' & Ha & _ & _ & Hd & Hchar).
      unfold g in Hg. rewrite Ha, Hd in Hg by lia. injection Hg as <-.
      exists n, a. split; [done|]. split; [done|]. by apply Hchar.
    - intros (n & a & Hn & Ha & Hx).
      destruct (Hdesc n Hn) as (a' & d & Ha' & _ & _ & Hd & Hchar).
      assert (a' = a) as -> by congruence.
      exists n, d. split; [done|]. split; [|by apply Hchar].
      unfold g. rewrite Ha. by apply Hd. }
  (* each of them has its chain *)
  assert (∀ x, x ∈ deps → ∃ l, parent_chain t x l ∧ length l ≤ N
                               ∧ is_Some (heap t !! x)) as Hchain.
  { intros x (n & a & Hn & Ha & Hx)%Hmem.
    destruct (Hdesc n Hn) as (a' & d & Ha' & Ra & Hroot & _).
    assert (a' = a) as -> by congruence.
    pose proof (descends_registered fs version t W a x Ra Hx) as (i & m & Hi)%registered_lookup.
    pose proof (below_root_descends fs version t W a x Ra Hroot Hx) as Hrx.
    destruct (below_root_chain fs version t W x Hrx) as [l Hl].
    pose proof (chain_bound fs version t W i m x l Hi Hl) as Hlen.
    exists l. split; [done|]. split; [apply lookup_lt_Some in Hi; unfold N; lia|].
    destruct (wf_nodes _ _ _ W i m x Hi) as (img & -> & _). eauto. }
  assert (∀ x, x ∈ set_order deps ↔ x ∈ deps) as Hord.
  { intros x. by rewrite set_order_perm, elem_of_remove_dups. }
  set (L := (sort_by_key ((fun a => (depth_of t a, a)) <$> set_order deps)).*2).
  assert (L ≡ₚ set_order deps) as HL by apply sorted_by_perm.
  assert (∀ x, x ∈ L ↔ x ∈ deps) as HLmem.
  { intros x. by rewrite HL. }
  exists L. split; [|split; [|split; [|split; [|split]]]].
  - intros fuel Hfuel. unfold determine_rebuilds.
    assert (dependents fs fuel edited t = (Ok deps, t)) as E1.
    { rewrite dependents_eq. f_equal. by apply Hdeps'. }
    rewrite (bind_ok _ _ _ _ _ E1).
    assert ((fun t0 => (keyed fuel t0 (set_order deps), t0)) t
            = (Ok ((fun a => (depth_of t a, a)) <$> set_order deps), t)) as E2.
    { simpl. f_equal. apply keyed_eq. intros x Hx%Hord.
      destruct (Hchain x Hx) as (l & Hl & Hlen & _).
      exists l. split; [apply ancestors_complete; [done|lia]|].
      symmetry. by apply depth_of_chain. }
    rewrite (bind_ok _ _ _ _ _ E2). f_equal.
    apply compatible_names_eq. intros x Hx%HLmem.
    by destruct (Hchain x Hx) as (_ & _ & _ & ?).
  - rewrite HL, set_order_perm. apply NoDup_remove_dups.
  - intros x. by rewrite HLmem.
  - apply sorted_by.
  - intros x Hx%HLmem. destruct (Hchain x Hx) as (l & Hl & Hlen & _).
    rewrite (depth_of_chain _ _ _ Hl Hlen). by apply parent_chain_depth.
  - intros i j x y Hi Hj Hxy Hne.
    assert (x ∈ deps) as Hx.
    { apply HLmem. apply list_elem_of_lookup_2 in Hi.
      by apply list_elem_of_filter in Hi as [_ ?]. }
    assert (y ∈ deps) as Hy.
    { apply HLmem. apply list_elem_of_lookup_2 in Hj.
      by apply list_elem_of_filter in Hj as [_ ?]. }
    destruct (Hchain x Hx) as (lx & Hlx & Hlenx & _).
    destruct (Hchain y Hy) as (ly & Hly & Hleny & _).
    assert (registered t x) as Rx.
    { apply Hmem in Hx as (n & a & Hn & Ha & Hx).
      destruct (Hdesc n Hn) as (a' & d & Ha' & Ra & _).
      assert (a' = a) as -> by congruence.
      by eapply (descends_registered fs version t W). }
    destruct (chain_descends fs version t W x lx y Rx Hlx Hxy) as (ly' & Hly' & _ & Hlt).
    rewrite (parent_chain_fun _ _ _ _ Hly' Hly) in Hlt. specialize (Hlt ltac:(done)).
    pose proof (StronglySorted_filter _ (fun a => node_compat t a = true) L
                  (sorted_by (depth_of t) (set_order deps))) as Hsorted.
    destruct (decide (i < j)) as [|Hge]; [done|]. exfalso.
    destruct (decide (i = j)) as [->|Hij]; [congruence|].
    pose proof (StronglySorted_lookup _ _ j i y x Hsorted ltac:(lia) Hj Hi) as Hle.
    simpl in Hle.
    rewrite (depth_of_chain _ _ _ Hlx Hlenx), (depth_of_chain _ _ _ Hly Hleny) in Hle.
    lia.
Qed.

(** When the root image is among the collected descendants, the sort
    raises on its key. *)
Lemma determine_rebuilds_root_raises fs t r rimg fuel edited n a l :
  root_image t = Some r → heap t !! r = Some rimg → parent rimg = None →
  n ∈ edited → dict_get n (images t) = Some a →
  descendants fuel t a = Ok l → r ∈ l →
  ∃ e, determine_rebuilds fs set_order fuel edited t = (Raise e, t).
Proof.
  intros Hr Hrimg Hp Hn Ha Hl Hrl. unfold determine_rebuilds.
  set (g := fun img_name =>
              match dict_get img_name (images t) with
              | Some image => descendants fuel t image
              | None => Raise (ValueError (no_image_msg img_name (images t)))
              end).
  destruct (extend_each g edited) as [deps|e] eqn:Hdeps.
  - assert (dependents fs fuel edited t = (Ok deps, t)) as E1.
    { rewrite dependents_eq. f_equal. exact Hdeps. }
    rewrite (bind_ok _ _ _ _ _ E1).
    assert (r ∈ set_order deps) as Hin.
    { rewrite set_order_perm, elem_of_remove_dups.
      apply (extend_each_ok _ _ _ Hdeps). exists n, l.
      split; [done|]. split; [|done]. unfold g. by rewrite Ha. }
    assert (∃ e, ancestors fuel t r = Raise e) as [e He].
    { destruct fuel as [|fuel]; [by eexists|].
      eexists. by eapply ancestors_root. }
    destruct (keyed_raise _ _ _ _ _ Hin He) as [e' He'].
    exists e'. apply bind_raise. simpl. by rewrite He'.
  - exists e. apply bind_raise. rewrite dependents_eq. f_equal. exact Hdeps.
Qed.

Lemma determine_rebuilds_ok_inv fs t fuel edited names t' :
  determine_rebuilds fs set_order fuel edited t = (Ok names, t') →
  ∀ n, n ∈ edited →
    ∃ a l, dict_get n (images t) = Some a ∧ descendants fuel t a = Ok l.
Proof.
  unfold determine_rebuilds. intros H n Hn.
  set (g := fun img_name =>
              match dict_get img_name (images t) with
              | Some image => descendants fuel t image
              | None => Raise (ValueError (no_image_msg img_name (images t)))
              end).
  destruct (g n) as [l|e] eqn:Hg.
  - unfold g in Hg. destruct (dict_get n (images t)) as [a|]; [|done]. eauto.
  - destruct (extend_each_raise g edited n e Hn Hg) as [e' He'].
    assert (dependents fs fuel edited t = (Raise e', t)) as E1.
    { rewrite dependents_eq. f_equal. exact He'. }
    rewrite (bind_raise _ _ _ _ _ E1) in H. discriminate H.
Qed.

(** C10.  On the root image of a constructed tree [ancestors] raises
    [AttributeError], the attribute of the missing parent; so
    [determine_rebuilds] raises whenever the root image is among the
    descendants collected for an edited name.  The root image is among the
    descendants of no other node. *)
Theorem ancestors_of_root_undefined fs version t r :
  constructed fs version t → root_image t = Some r →
  (∀ fuel, ancestors (S fuel) t r = Raise AttributeError)
  ∧ (∀ fuel l, ancestors fuel t r ≠ Ok l)
  ∧ (∀ fuel edited n a l,
       n ∈ edited → dict_get n (images t) = Some a →
       descendants fuel t a = Ok l → r ∈ l →
       ∃ e, determine_rebuilds fs set_order fuel edited t = (Raise e, t))
  ∧ (∀ fuel n a l,
       dict_get n (images t) = Some a → a ≠ r →
       descendants fuel t a = Ok l → r ∉ l).
Proof.
  intros [W Hall]%constructed_wf Hr.
  destruct (wf_root _ _ _ W r Hr) as (j & k & Hj & Hk).
  destruct (wf_nodes _ _ _ W j k r Hj) as (rimg & Hrimg & [_ _ _ _ N5]).
  destruct (N5 Hk) as (_ & Hnone & _).
  split; [|split; [|split]].
  - intros fuel. by eapply ancestors_root.
  - intros fuel l Hl%ancestors_sound. by apply (root_no_chain _ _ _ W r l) in Hl.
  - intros fuel edited n a l Hn Ha Hl Hrl. by eapply determine_rebuilds_root_raises.
  - intros fuel n a l Ha Hne Hl Hrl. apply Hne.
    apply (descends_root fs version t W); [|done|by eapply descendants_sound].
    apply registered_lookup. destruct (wf_dict_get_inv _ _ _ Ha) as [i Hi]. eauto.
Qed.

End Rebuilds.

Lemma remove_dups_order : ∀ l : list addr, remove_dups l ≡ₚ remove_dups l.
Proof. done. Qed.

Lemma determine_rebuilds_spec_witness :
  ∃ L,
    (∀ fuel, length (images Examples.stack) ≤ fuel →
       determine_rebuilds Examples.stack_fs remove_dups fuel ["mid"] Examples.stack
       = (Ok (node_name Examples.stack
                <$> filter (fun a => node_compat Examples.stack a = true) L),
          Examples.stack))
    ∧ NoDup L
    ∧ (∀ x, x ∈ L ↔
         ∃ n a, n ∈ ["mid"] ∧ dict_get n (images Examples.stack) = Some a
                ∧ descends Examples.stack a x)
    ∧ StronglySorted
        (fun x y => depth_of Examples.stack x ≤ depth_of Examples.stack y) L
    ∧ (∀ x, x ∈ L → depth_below_root Examples.stack x (depth_of Examples.stack x))
    ∧ (∀ i j x y,
         filter (fun a => node_compat Examples.stack a = true) L !! i = Some x →
         filter (fun a => node_compat Examples.stack a = true) L !! j = Some y →
         descends Examples.stack x y → x ≠ y → i < j).
Proof.
  apply (determine_rebuilds_spec remove_dups remove_dups_order
           Examples.stack_fs (Some "3.8") Examples.stack ["mid"]).
  - exact stack_constructed.
  - intros n ->%list_elem_of_singleton. exists 1.
    split; [reflexivity | exact stack_mid_below_root].
Defined.

Lemma ancestors_of_root_undefined_witness :
  (∀ fuel, ancestors (S fuel) Examples.stack 2 = Raise AttributeError)
  ∧ (∀ fuel l, ancestors fuel Examples.stack 2 ≠ Ok l)
  ∧ (∀ fuel edited n a l,
       n ∈ edited → dict_get n (images Examples.stack) = Some a →
       descendants fuel Examples.stack a = Ok l → 2 ∈ l →
       ∃ e, determine_rebuilds Examples.stack_fs remove_dups fuel edited Examples.stack
            = (Raise e, Examples.stack))
  ∧ (∀ fuel n a l,
       dict_get n (images Examples.stack) = Some a → a ≠ 2 →
       descendants fuel Examples.stack a = Ok l → 2 ∉ l).
Proof.
  apply (ancestors_of_root_undefined remove_dups remove_dups_order
           Examples.stack_fs (Some "3.8") Examples.stack 2).
  - exact stack_constructed.
  - reflexivity.
Defined.

(** The scenario of the specification: editing [mid] rebuilds [mid] and
    then the two leaves. *)
Example rebuild_mid :
  determine_rebuilds Examples.stack_fs remove_dups 4 ["mid"] Examples.stack
  = (Ok ["mid"; "leaf1"; "leaf2"], Examples.stack).
Proof. vm_compute. reflexivity. Qed.

(** C1 as stated fails when an edited name denotes the root image, which is
    a key of the mapping: [determine_rebuilds] returns no sequence. *)
Lemma determine_rebuilds_root_fails :
  ¬ (constructed Examples.stack_fs (Some "3.8") Examples.stack →
     ∀ edited, (∀ n, n ∈ edited → n ∈ dict_keys (images Examples.stack)) →
       ∃ fuel names,
         determine_rebuilds Examples.stack_fs remove_dups fuel edited Examples.stack
         = (Ok names, Examples.stack)).
Proof.
  intros H.
  destruct (H stack_constructed ["base"]) as (fuel & names & Hn).
  { intros n ->%list_elem_of_singleton. vm_compute. left. }
  destruct (determine_rebuilds_ok_inv _ _ _ _ _ _ _ Hn "base") as (a & l & Ha & Hl).
  { by apply list_elem_of_singleton. }
  assert (a = 2) as -> by (vm_compute in Ha; congruence).
  destruct (determine_rebuilds_root_raises remove_dups remove_dups_order
              Examples.stack_fs Examples.stack 2 (mkImage "base" None [1] None true)
              fuel ["base"] "base" 2 l) as [e He].
  - reflexivity.
  - reflexivity.
  - reflexivity.
  - by apply list_elem_of_singleton.
  - exact Ha.
  - exact Hl.
  - by eapply descendants_self.
  - rewrite Hn in He. discriminate He.
Qed.

(** ** Incompatibility and the descendants *)





(** ** The compatibility flag never goes back to true *)

Lemma flags_le_refl t : flags_le t t.
Proof. intros a img Ha. eauto. Qed.

Lemma flags_le_trans t1 t2 t3 : flags_le t1 t2 → flags_le t2 t3 → flags_le t1 t3.
Proof.
  intros H12 H23 a img Ha.
  destruct (H12 a img Ha) as (img2 & Ha2 & Hf2).
  destruct (H23 a img2 Ha2) as (img3 & Ha3 & Hf3).
  exists img3. split; [done|]. auto.
Qed.

Lemma flags_le_heap t t' : heap t' = heap t → flags_le t t'.
Proof. intros E a img Ha. exists img. by rewrite E. Qed.

Lemma keeps_ret {A} (x : A) : keeps_flags (ret x).
Proof. intros t. apply flags_le_refl. Qed.

Lemma keeps_raise {A} e : keeps_flags (@raise A e).
Proof. intros t. apply flags_le_refl. Qed.

Lemma keeps_lift {A} (o : outcome A) : keeps_flags (lift o).
Proof. intros t. apply flags_le_refl. Qed.

Lemma keeps_bind {A B} (m : M A) (k : A → M B) :
  keeps_flags m → (∀ x, keeps_flags (k x)) → keeps_flags (bind m k).
Proof.
  intros Hm Hk t. unfold bind. specialize (Hm t).
  destruct (m t) as [[x|e] t1]; simpl in *; [|done].
  eapply flags_le_trans; [exact Hm|apply Hk].
Qed.

Lemma keeps_obj a : keeps_flags (obj a).
Proof. intros t. unfold obj. destruct (heap t !! a); apply flags_le_refl. Qed.

Lemma keeps_update a f :
  (∀ img, python_compat img = false → python_compat (f img) = false) →
  keeps_flags (update a f).
Proof.
  intros Hf t b img Hb. simpl.
  destruct (decide (a = b)) as [->|Hne].
  - exists (f img). rewrite list_lookup_alter_eq, Hb. split; [done|]. apply Hf.
  - exists img. by rewrite list_lookup_alter_ne.
Qed.

Lemma keeps_Image_init n : keeps_flags (Image_init n).
Proof.
  intros t a img Ha. simpl. exists img. split; [|done].
  by apply lookup_app_l_Some.
Qed.

Lemma keeps_parse fs self : keeps_flags (_parse_parent_from_dockerfile fs self).
Proof.
  unfold _parse_parent_from_dockerfile.
  apply keeps_bind; [apply keeps_obj|]. intros img.
  destruct (dirpath img) as [d|]; [|apply keeps_raise].
  destruct (fs d) as [|[dockerfile|]]; try apply keeps_raise.
  apply keeps_bind; [apply keeps_lift|]. intros image_tag.
  destruct (split_image_tag image_tag) as [parent_image parent_tag].
  intros t. destruct (pinned_elsewhere parent_tag (python_version t)) as [[|]|];
    try apply flags_le_refl.
  apply (keeps_bind (update self (set_python_compat false)) (fun _ => ret parent_image));
    [by apply keeps_update | intros; apply keeps_ret].
Qed.

Lemma keeps_add_child self child : keeps_flags (add_child self child).
Proof.
  unfold add_child. apply keeps_bind; [apply keeps_obj|]. intros img.
  destruct (bool_decide _); [apply keeps_ret | by apply keeps_update].
Qed.

Lemma keeps_add_parent self p : keeps_flags (add_parent self p).
Proof. by apply keeps_update. Qed.

Section KeepsWithCreate.

Variable fs : filesystem.
Variable cr : string → M addr.
Hypothesis keeps_cr : ∀ n, keeps_flags (cr n).

Lemma keeps_get_image_with n b : keeps_flags (get_image_with cr n b).
Proof.
  intros t. unfold get_image_with.
  destruct (dict_get n (images t)); [apply flags_le_refl|].
  destruct b; [apply keeps_cr | apply flags_le_refl].
Qed.

Lemma keeps_link_images_with p c : keeps_flags (link_images_with cr p c).
Proof.
  unfold link_images_with.
  apply keeps_bind.
  { destruct p; [apply keeps_get_image_with | apply keeps_ret]. }
  intros pa. apply keeps_bind.
  { destruct c; [apply keeps_get_image_with | apply keeps_ret]. }
  intros ca. apply keeps_bind; [apply keeps_obj|]. intros pimg.
  apply keeps_bind.
  { destruct (python_compat pimg); [apply keeps_ret | by apply keeps_update]. }
  intros _. apply keeps_bind; [apply keeps_add_child|].
  intros _. apply keeps_add_parent.
Qed.

Lemma keeps_add_to_tree_with self : keeps_flags (add_to_tree_with fs cr self).
Proof.
  unfold add_to_tree_with. apply keeps_bind; [apply keeps_obj|]. intros img.
  destruct (dirpath img) as [d|]; [|apply keeps_raise].
  destruct (is_dir (fs d)).
  - apply keeps_bind; [apply keeps_parse|]. intros. apply keeps_link_images_with.
  - apply keeps_bind; [by apply keeps_update|]. intros _ t. by apply flags_le_heap.
Qed.

End KeepsWithCreate.

Lemma keeps_create_image fs fuel : ∀ n, keeps_flags (create_image fs fuel n).
Proof.
  induction fuel as [|fuel IH]; intros n; simpl; [apply keeps_raise|].
  apply keeps_bind; [apply keeps_Image_init|]. intros image.
  apply keeps_bind; [by apply keeps_add_to_tree_with|]. intros _.
  apply keeps_bind; [|intros; apply keeps_ret].
  intros t. by apply flags_le_heap.
Qed.

Lemma keeps_create_tree fs fuel paths : keeps_flags (_create_tree fs fuel paths).
Proof.
  induction paths as [|n rest IH]; simpl; [apply keeps_ret|].
  apply keeps_bind; [apply keeps_get_image_with, keeps_create_image|]. intros image.
  apply keeps_bind; [apply keeps_add_to_tree_with, keeps_create_image|]. done.
Qed.

Lemma keeps_run fs fuel steps : keeps_flags (run fs fuel steps).
Proof.
  induction steps as [|s rest IH]; simpl; [apply keeps_ret|].
  apply keeps_bind; [|done]. destruct s as [n|p c]; simpl.
  - apply keeps_bind; [apply keeps_get_image_with, keeps_create_image|]. intros image.
    apply keeps_add_to_tree_with, keeps_create_image.
  - apply keeps_link_images_with, keeps_create_image.
Qed.

Lemma determine_rebuilds_state fs set_order fuel edited t :
  snd (determine_rebuilds fs set_order fuel edited t) = t.
Proof.
  unfold determine_rebuilds, bind. rewrite dependents_eq.
  destruct (extend_each _ _); [|done].
  destruct (keyed _ _ _); done.
Qed.

(** C7.  A new node is compatible.  Parsing, registering, creating,
    looking up, linking (on names or nodes), the construction and any
    sequence of registrations and links keep every node and keep an
    incompatible node incompatible, also when they raise; the rebuild query
    does not change the tree at all. *)
Theorem python_compat_monotone fs fuel :
  (∀ image_name t,
     python_compat <$> heap (snd (Image_init image_name t)) !! length (heap t)
     = Some true
     ∧ fst (Image_init image_name t) = Ok (length (heap t)))
  ∧ (∀ self, keeps_flags (_parse_parent_from_dockerfile fs self))
  ∧ (∀ self, keeps_flags (add_to_tree fs fuel self))
  ∧ (∀ image_name, keeps_flags (create_image fs fuel image_name))
  ∧ (∀ image_name create_new, keeps_flags (get_image fs fuel image_name create_new))
  ∧ (∀ parent child, keeps_flags (link_images fs fuel parent child))
  ∧ (∀ paths, keeps_flags (_create_tree fs fuel paths))
  ∧ (∀ steps, keeps_flags (run fs fuel steps))
  ∧ (∀ set_order edited t, snd (determine_rebuilds fs set_order fuel edited t) = t).
Proof.
  repeat split.
  - simpl. by rewrite lookup_alloc.
  - apply keeps_parse.
  - intros self. apply keeps_add_to_tree_with, keeps_create_image.
  - apply keeps_create_image.
  - intros n b. apply keeps_get_image_with, keeps_create_image.
  - intros p c. apply keeps_link_images_with, keeps_create_image.
  - apply keeps_create_tree.
  - apply keeps_run.
  - intros. apply determine_rebuilds_state.
Qed.

(** ** The order of discovery *)

Section Order.

Variable fs : filesystem.
Variable version : option string.

Lemma parent_of_Some n p :
  parent_of fs version n = Some p ↔ is_dir (fs n) = true ∧ ∃ b, parse_pure fs version n = Ok (p, b).
Proof.
  unfold parent_of. destruct (is_dir (fs n)).
  - destruct (parse_pure fs version n) as [[q b]|e].
    + split; [intros [= ->]; eauto|]. by intros (_ & b' & [= -> _]).
    + split; [done|]. by intros (_ & b' & [=]).
  - split; [done|]. by intros [[=] _].
Qed.

Lemma plan_cases fuel D n c :
  plan fs version (S fuel) D n = Some c →
  (is_dir (fs n) = false ∧ c = [n])
  ∨ (∃ p, parent_of fs version n = Some p ∧ p ∈ D ∧ c = [n])
  ∨ (∃ p c', parent_of fs version n = Some p ∧ (p ∉ D) ∧ plan fs version fuel D p = Some c'
             ∧ c = n :: c').
Proof.
  simpl. unfold parent_of. destruct (is_dir (fs n)); [|intros [= <-]; by left].
  destruct (parse_pure fs version n) as [[p b]|e]; [|done].
  case_decide as Hp.
  - intros [= <-]. right. left. by exists p.
  - destruct (plan fs version fuel D p) as [c'|] eqn:E; [|done].
    intros [= <-]. right. right. by exists p, c'.
Qed.

Lemma plan_reach fuel D n c :
  plan fs version fuel D n = Some c → ∀ m, m ∈ c → reach fs version n m.
Proof.
  revert n c. induction fuel as [|fuel IH]; intros n c H; [done|].
  apply plan_cases in H as [[_ ->]|[(p & _ & _ & ->)|(p & c' & Hp & _ & Hc' & ->)]].
  - intros m ->%list_elem_of_singleton. constructor.
  - intros m ->%list_elem_of_singleton. constructor.
  - intros m [->|Hm]%elem_of_cons; [constructor|].
    eapply reach_step; [done|]. by eapply IH.
Qed.

Lemma resolves_nodir n : is_dir (fs n) = false → resolves fs version n.
Proof. intros H. exists 1, [n]. simpl. by rewrite H. Qed.

Lemma resolves_child n p : parent_of fs version n = Some p → resolves fs version p → resolves fs version n.
Proof.
  intros (Hdir & b & Hparse)%parent_of_Some (k & c & Hc).
  exists (S k), (n :: c). simpl. rewrite Hdir, Hparse.
  destruct (decide (p ∈ [])) as [[]%elem_of_nil|_]. by rewrite Hc.
Qed.

Lemma plan_resolves fuel D n c :
  (∀ m, m ∈ D → resolves fs version m) →
  plan fs version fuel D n = Some c → ∀ m, m ∈ c → resolves fs version m.
Proof.
  intros HD. revert n c. induction fuel as [|fuel IH]; intros n c H; [done|].
  apply plan_cases in H as [[Hn ->]|[(p & Hp & HpD & ->)|(p & c' & Hp & _ & Hc' & ->)]].
  - intros m ->%list_elem_of_singleton. by apply resolves_nodir.
  - intros m ->%list_elem_of_singleton. eapply resolves_child; eauto.
  - intros m [->|Hm]%elem_of_cons; [|by eapply IH].
    eapply resolves_child; [done|]. eapply IH; [done|].
    destruct (plan_head _ _ _ _ _ _ Hc') as [c'' ->]. left.
Qed.

Lemma plan_any_keys k n c D :
  plan fs version k [] n = Some c → ∃ c', plan fs version k D n = Some c'.
Proof.
  revert n c. induction k as [|k IH]; intros n c H; [done|].
  apply plan_cases in H as [[Hn ->]|[(p & _ & []%elem_of_nil & _)|(p & c' & Hp & _ & Hc' & ->)]].
  - exists [n]. simpl. by rewrite Hn.
  - apply parent_of_Some in Hp as (Hdir & b & Hparse).
    simpl. rewrite Hdir, Hparse. case_decide; [by eexists|].
    destruct (IH p c' Hc') as [c'' ->]. by eexists.
Qed.

Lemma plan_tree_inv fuel paths : ∀ D D',
  (∀ m, m ∈ D → resolves fs version m) →
  plan_tree fs version fuel D paths = Some D' →
  (∀ m, m ∈ D' → resolves fs version m)
  ∧ (∀ n, n ∈ paths → is_dir (fs n) = true ∧ n ∈ D')
  ∧ (∀ m, m ∈ D → m ∈ D')
  ∧ (∀ m, m ∈ D' → m ∈ D ∨ ∃ n, n ∈ paths ∧ reach fs version n m).
Proof.
  induction paths as [|n rest IH]; intros D D' HD; simpl.
  { intros [= <-]. split; [done|]. split; [|split; [done|]].
    - by intros x ?%elem_of_nil.
    - intros x Hx. by left. }
  destruct (is_dir (fs n)) eqn:Hdir; [|done].
  case_decide as Hn.
  - intros H. destruct (IH D D' HD H) as (R1 & R2 & R3 & R4).
    split; [done|]. split; [|split; [done|]].
    + intros m [->|Hm]%elem_of_cons; [auto|by apply R2].
    + intros m Hm. destruct (R4 m Hm) as [?|(n' & Hn' & Hr)]; [by left|].
      right. exists n'. split; [by right|done].
  - destruct (plan fs version fuel D n) as [c|] eqn:Hplan; [|done].
    intros H.
    assert (∀ m, m ∈ D ++ reverse c → resolves fs version m) as HD'.
    { intros m [Hm|Hm]%elem_of_app; [by apply HD|].
      rewrite elem_of_reverse in Hm.
      exact (plan_resolves fuel D n c HD Hplan m Hm). }
    destruct (IH _ D' HD' H) as (R1 & R2 & R3 & R4).
    split; [done|]. split; [|split].
    + intros m [->|Hm]%elem_of_cons; [|by apply R2]. split; [done|].
      apply R3, elem_of_app. right. rewrite elem_of_reverse.
      destruct (plan_head _ _ _ _ _ _ Hplan) as [c' ->]. left.
    + intros m Hm. apply R3, elem_of_app. by left.
    + intros m Hm.
      destruct (R4 m Hm) as [[?|Hc]%elem_of_app|(n' & Hn' & Hr)].
      * by left.
      * rewrite elem_of_reverse in Hc.
        right. exists n. split; [left|]. by eapply plan_reach.
      * right. exists n'. split; [by right|done].
Qed.

Lemma plan_tree_total K paths : ∀ D,
  (∀ n, n ∈ paths → is_dir (fs n) = true ∧ ∃ c, plan fs version K [] n = Some c) →
  ∃ D', plan_tree fs version K D paths = Some D'.
Proof.
  induction paths as [|n rest IH]; intros D H; simpl; [by eexists|].
  destruct (H n) as (-> & c & Hc); [left|].
  assert (∀ n', n' ∈ rest →
            is_dir (fs n') = true ∧ ∃ c, plan fs version K [] n' = Some c) as H'.
  { intros n' Hn'. apply H. by right. }
  case_decide; [by apply IH|].
  destruct (plan_any_keys _ _ _ D Hc) as [c' ->]. by apply IH.
Qed.

Lemma resolves_bound (paths : list string) :
  (∀ n, n ∈ paths → resolves fs version n) →
  ∃ K, ∀ n, n ∈ paths → ∃ c, plan fs version K [] n = Some c.
Proof.
  induction paths as [|n rest IH]; intros H.
  { exists 0. by intros n ?%elem_of_nil. }
  destruct (H n) as (k & c & Hc); [left|].
  destruct IH as [K HK]; [intros n' Hn'; apply H; by right|].
  exists (k `max` K). intros n' [->|Hn']%elem_of_cons.
  - exists c. eapply plan_mono; [done|lia].
  - destruct (HK n' Hn') as [c' Hc']. exists c'. eapply plan_mono; [done|lia].
Qed.

(** *** The shape, by names *)

Lemma wf_parent_name t n :
  wf fs version t →
  parent_name t n = if decide (n ∈ dict_keys (images t)) then parent_of fs version n else None.
Proof.
  intros W. unfold parent_name. case_decide as Hn.
  - apply dict_get_is_Some in Hn as [a Ha]. rewrite Ha.
    destruct (wf_dict_get_inv _ _ _ Ha) as [i Hi].
    destruct (wf_nodes _ _ _ W i n a Hi) as (img & -> & [N1 N2 N3 N4 N5]).
    unfold parent_of. destruct (is_dir (fs n)) eqn:Hdir.
    + destruct (N4 eq_refl) as (_ & P & b & j & p & pimg & -> & _ & Hj & -> & Hp & _).
      f_equal. unfold node_name. rewrite Hp.
      destruct (wf_nodes _ _ _ W j P p Hj) as (pimg' & Hp' & [M1 _ _ _ _]). congruence.
    + destruct (N5 eq_refl) as (_ & -> & _). done.
  - apply dict_get_None in Hn. by rewrite Hn.
Qed.

Lemma wf_child_names t n m :
  wf fs version t →
  m ∈ child_names t n ↔
    n ∈ dict_keys (images t) ∧ m ∈ dict_keys (images t) ∧ parent_of fs version m = Some n.
Proof.
  intros W. unfold child_names.
  destruct (dict_get n (images t)) as [a|] eqn:Ha.
  2:{ split; [by intros ?%elem_of_nil|]. intros [Hn _].
      apply dict_get_None in Ha. done. }
  destruct (wf_dict_get_inv _ _ _ Ha) as [i Hi].
  destruct (wf_nodes _ _ _ W i n a Hi) as (img & Himg & [N1 N2 N3 N4 N5]).
  rewrite Himg. rewrite list_elem_of_fmap. split.
  - intros (c & -> & Hc).
    destruct (child_facts fs version t W _ _ _ _ _ Hi Himg Hc)
      as (i' & m & cimg & Hi' & Hlt & Hcimg & Hcp & _).
    destruct (wf_nodes _ _ _ W i' m c Hi') as (cimg' & Hc' & [C1 C2 C3 C4 C5]).
    assert (cimg' = cimg) as -> by congruence.
    assert (node_name t c = m) as -> by (unfold node_name; by rewrite Hcimg).
    split; [apply dict_get_is_Some; eauto|].
    split; [apply dict_get_is_Some; exists c; by eapply wf_dict_get|].
    destruct (is_dir (fs m)) eqn:Hdir.
    + destruct (C4 eq_refl) as (_ & P & b & j & p & pimg & H1 & _ & H3 & H4 & _).
      assert (p = a) as -> by congruence.
      destruct (wf_addr_inj _ _ _ _ _ _ _ _ W Hi H3) as [-> ->].
      apply parent_of_Some. eauto.
    + destruct (C5 eq_refl) as (_ & Hnone & _). congruence.
  - intros (_ & [c Hc]%dict_get_is_Some & (Hdir & b & Hparse)%parent_of_Some).
    destruct (wf_dict_get_inv _ _ _ Hc) as [i' Hi'].
    destruct (wf_nodes _ _ _ W i' m c Hi') as (cimg & Hcimg & [C1 C2 C3 C4 C5]).
    destruct (C4 Hdir) as (_ & P & b' & j & p & pimg & H1 & _ & H3 & H4 & H5 & H6 & _).
    assert (P = n) as -> by congruence.
    assert (p = a) as -> by (pose proof (wf_dict_get _ _ _ _ _ _ W H3); congruence).
    assert (pimg = img) as -> by congruence.
    exists c. split; [|done]. unfold node_name. by rewrite Hcimg.
Qed.

Lemma wf_keys_closed t n m :
  wf fs version t → n ∈ dict_keys (images t) → reach fs version n m → m ∈ dict_keys (images t).
Proof.
  intros W Hn Hr. induction Hr as [|n p m Hp _ IH]; [done|]. apply IH.
  apply dict_get_is_Some in Hn as [a Ha].
  destruct (wf_dict_get_inv _ _ _ Ha) as [i Hi].
  destruct (wf_nodes _ _ _ W i n a Hi) as (img & _ & [_ _ _ N4 _]).
  apply parent_of_Some in Hp as (Hdir & b & Hparse).
  destruct (N4 Hdir) as (_ & P & b' & j & q & pimg & H1 & _ & H3 & _).
  assert (P = p) as -> by congruence.
  apply dict_get_is_Some. exists q. by eapply wf_dict_get.
Qed.

(** What a successful construction leaves. *)
Lemma init_spec fuel paths t :
  ImageTree_init fs version fuel paths = (Ok tt, t) →
  wf fs version t
  ∧ plan_tree fs version fuel [] paths = Some (dict_keys (images t)).
Proof.
  unfold ImageTree_init. intros Hinit.
  pose proof (create_tree_spec fs version fuel paths (empty_tree version)
                (wf_empty fs version)) as H.
  simpl in H. destruct (plan_tree fs version fuel [] paths) as [D|].
  - destruct H as (t' & E & W & _ & HD); [intros x Hx; simpl in Hx; lia|].
    rewrite E in Hinit. injection Hinit as <-. by rewrite HD.
  - destruct H as (e & t' & E); [intros x Hx; simpl in Hx; lia|]. congruence.
Qed.

Lemma init_keys fuel paths t m :
  ImageTree_init fs version fuel paths = (Ok tt, t) →
  m ∈ dict_keys (images t) ↔ ∃ n, n ∈ paths ∧ reach fs version n m.
Proof.
  intros [W Hplan]%init_spec.
  destruct (plan_tree_inv _ _ _ _ ltac:(by intros ? ?%elem_of_nil) Hplan)
    as (_ & R2 & _ & R4).
  split.
  - intros Hm. destruct (R4 m Hm) as [[]%elem_of_nil|?]. done.
  - intros (n & Hn & Hr). eapply wf_keys_closed; [done| |done]. by apply R2.
Qed.

(** C9.  When the construction succeeds for one order of discovery, it
    succeeds (with enough fuel) for every other order of the same
    Dockerfiles, and the two trees have the same shape: the same names, the
    same parent for every name, the same set of children for every name.
    Registering a node of a constructed tree again leaves the tree as it
    is. *)
Theorem discovery_order_irrelevant fuel paths paths' t :
  paths ≡ₚ paths' →
  ImageTree_init fs version fuel paths = (Ok tt, t) →
  (∃ fuel' t',
     ImageTree_init fs version fuel' paths' = (Ok tt, t') ∧ same_shape t t')
  ∧ (∀ fuel' a, a < length (heap t) → snd (add_to_tree fs fuel' a t) = t).
Proof.
  intros Hperm Hinit.
  pose proof (init_spec _ _ _ Hinit) as [W Hplan].
  destruct (plan_tree_inv _ _ _ _ ltac:(by intros ? ?%elem_of_nil) Hplan)
    as (R1 & R2 & _ & _).
  split.
  - destruct (resolves_bound paths') as [K HK].
    { intros n Hn. apply R1, R2. by rewrite Hperm. }
    destruct (plan_tree_total K paths' []) as [D' HD'].
    { intros n Hn. split; [|by apply HK]. apply R2. by rewrite Hperm. }
    pose proof (create_tree_spec fs version K paths' (empty_tree version)
                  (wf_empty fs version)) as H.
    simpl in H. rewrite HD' in H.
    destruct H as (t' & E & W' & _ & _); [intros x Hx; simpl in Hx; lia|].
    exists K, t'. split; [done|].
    assert (∀ n, n ∈ dict_keys (images t) ↔ n ∈ dict_keys (images t')) as Hkeys.
    { intros m. rewrite (init_keys _ _ _ m Hinit), (init_keys K paths' t' m E).
      by setoid_rewrite Hperm. }
    split; [done|]. split.
    + intros n. rewrite (wf_parent_name t n W), (wf_parent_name t' n W').
      destruct (decide (n ∈ dict_keys (images t))) as [Hn|Hn].
      * by rewrite decide_True by (by apply Hkeys).
      * by rewrite decide_False by (by rewrite <- Hkeys).
    + intros n m. rewrite (wf_child_names t n m W), (wf_child_names t' n m W').
      by rewrite !Hkeys.
  - intros fuel' a Ha.
    assert (constructed fs version t) as [_ Hall]%constructed_wf by (by exists fuel, paths).
    apply Hall, registered_lookup in Ha as (i & n & Hi).
    by rewrite (add_to_tree_again fs version fuel' t i n a W Hi).
Qed.

End Order.

Lemma discovery_order_irrelevant_witness :
  (∃ fuel' t',
     ImageTree_init Examples.stack_fs (Some "3.8") fuel' ["mid"; "leaf1"; "leaf2"]
     = (Ok tt, t')
     ∧ same_shape Examples.stack t')
  ∧ (∀ fuel' a, a < length (heap Examples.stack) →
       snd (add_to_tree Examples.stack_fs fuel' a Examples.stack) = Examples.stack).
Proof.
  apply (discovery_order_irrelevant Examples.stack_fs (Some "3.8") 4
           ["leaf1"; "mid"; "leaf2"] ["mid"; "leaf1"; "leaf2"] Examples.stack).
  - apply Permutation_swap.
  - vm_compute. reflexivity.
Defined.

(** ** A malformed definition *)

Lemma parse_pure_malformed fs version n dockerfile :
  fs n = Dir (Some dockerfile) → malformed dockerfile →
  parse_pure fs version n = Raise StopIteration.
Proof.
  intros Hfs Hbad. unfold parse_pure. rewrite Hfs.
  by rewrite (image_tag_of_malformed _ Hbad).
Qed.

Lemma malformed_not_resolves fs version n dockerfile :
  fs n = Dir (Some dockerfile) → malformed dockerfile → ¬ resolves fs version n.
Proof.
  intros Hfs Hbad (k & c & Hc). destruct k as [|k]; [done|].
  simpl in Hc. rewrite Hfs in Hc. simpl in Hc.
  by rewrite (parse_pure_malformed fs version n dockerfile Hfs Hbad) in Hc.
Qed.

(** C8.  When the Dockerfile has no line starting with [FROM], or names its
    base image by a build-arg that no line declares, the parse raises
    [StopIteration] and leaves the tree as it was; [add_to_tree] raises it
    too, before any link; [create_image] raises it with the new node
    allocated but not stored and not linked; and the construction of a
    tree over a directory with such a Dockerfile raises. *)
Theorem malformed_definition_is_fatal fs version dockerfile :
  malformed dockerfile →
  (∀ t self img d,
     heap t !! self = Some img → dirpath img = Some d →
     fs d = Dir (Some dockerfile) →
     _parse_parent_from_dockerfile fs self t = (Raise StopIteration, t)
     ∧ ∀ fuel, add_to_tree fs fuel self t = (Raise StopIteration, t))
  ∧ (∀ fuel n t,
       fs n = Dir (Some dockerfile) →
       create_image fs (S fuel) n t
       = (Raise StopIteration,
          with_heap (heap t ++ [mkImage n None [] (Some n) true]) t))
  ∧ (∀ fuel paths n,
       n ∈ paths → fs n = Dir (Some dockerfile) →
       ∃ e t', ImageTree_init fs version fuel paths = (Raise e, t')).
Proof.
  intros Hbad. split; [|split].
  - intros t self img d Hself Hd Hfs. split.
    + by eapply parse_malformed.
    + intros fuel. by eapply add_to_tree_malformed.
  - intros fuel n t Hfs. rewrite create_image_S. apply bind_raise.
    eapply (add_to_tree_malformed fs _ _ _ (fresh_image n) n dockerfile); try done.
    apply lookup_alloc.
  - intros fuel paths n Hn Hfs. unfold ImageTree_init.
    pose proof (create_tree_spec fs version fuel paths (empty_tree version)
                  (wf_empty fs version)) as H.
    simpl in H. destruct (plan_tree fs version fuel [] paths) as [D|] eqn:Hplan.
    + destruct (plan_tree_inv fs version _ _ _ _ ltac:(by intros ? ?%elem_of_nil) Hplan)
        as (R1 & R2 & _ & _).
      destruct (malformed_not_resolves fs version n dockerfile Hfs Hbad).
      apply R1, R2, Hn.
    + apply H. intros x Hx. simpl in Hx. lia.
Qed.

Lemma malformed_definition_is_fatal_witness :
  (∀ t self img d,
     heap t !! self = Some img → dirpath img = Some d →
     Examples.broken_fs d = Dir (Some ["FROM $BASE"]) →
     _parse_parent_from_dockerfile Examples.broken_fs self t = (Raise StopIteration, t)
     ∧ ∀ fuel, add_to_tree Examples.broken_fs fuel self t = (Raise StopIteration, t))
  ∧ (∀ fuel n t,
       Examples.broken_fs n = Dir (Some ["FROM $BASE"]) →
       create_image Examples.broken_fs (S fuel) n t
       = (Raise StopIteration,
          with_heap (heap t ++ [mkImage n None [] (Some n) true]) t))
  ∧ (∀ fuel paths n,
       n ∈ paths → Examples.broken_fs n = Dir (Some ["FROM $BASE"]) →
       ∃ e t', ImageTree_init Examples.broken_fs (Some "3.8") fuel paths = (Raise e, t')).
Proof.
  apply (malformed_definition_is_fatal Examples.broken_fs (Some "3.8") ["FROM $BASE"]).
  right. exists "FROM $BASE". split; [reflexivity|]. split; [reflexivity|].
  repeat constructor.
Defined.

(** * More properties of the code *)

(** ** The nodes of a constructed tree *)

Section MoreStructure.

Variable fs : filesystem.
Variable version : option string.
Variable t : ImageTree.
Hypothesis W : wf fs version t.

(** A node below another one is registered later. *)
Lemma descends_index i n a x :
  images t !! i = Some (n, a) → descends t a x →
  ∃ j m, images t !! j = Some (m, x) ∧ i ≤ j ∧ (x ≠ a → i < j).
Proof.
  intros Hi Hx. induction Hx as [|y yimg x Hay IH Hy Hx].
  - exists i, n. split; [done|]. split; [lia|done].
  - destruct IH as (j & m & Hj & Hle & _).
    destruct (child_facts fs version t W _ _ _ _ _ Hj Hy Hx)
      as (j' & m' & cimg & Hj' & Hlt & _).
    exists j', m'. split; [done|]. split; [lia|]. intros _. lia.
Qed.

Lemma descends_antisym a x :
  registered t a → descends t a x → descends t x a → a = x.
Proof.
  intros (i & n & Hi)%registered_lookup Hax Hxa.
  destruct (decide (a = x)) as [|Hne]; [done|]. exfalso.
  destruct (descends_index _ _ _ _ Hi Hax) as (j & m & Hj & _ & Hlt).
  destruct (descends_index _ _ _ _ Hj Hxa) as (i' & n' & Hi' & Hle & _).
  destruct (wf_addr_inj _ _ _ _ _ _ _ _ W Hi Hi') as [<- _].
  specialize (Hlt ltac:(congruence)). lia.
Qed.

(** The parent of a registered node is registered and has it as a child. *)
Lemma parent_facts i n a img p :
  images t !! i = Some (n, a) → heap t !! a = Some img → parent img = Some p →
  ∃ j m pimg, images t !! j = Some (m, p) ∧ j < i
              ∧ heap t !! p = Some pimg ∧ a ∈ children pimg
              ∧ parent_of fs version n = Some m.
Proof.
  intros Hi Ha Hp.
  destruct (wf_nodes _ _ _ W i n a Hi) as (img' & Ha' & [_ _ _ N4 N5]).
  assert (img' = img) as -> by congruence.
  destruct (is_dir (fs n)) eqn:Hdir.
  - destruct (N4 eq_refl) as (_ & P & b & j & q & pimg & H1 & H2 & H3 & H4 & H5 & H6 & _).
    assert (q = p) as -> by congruence.
    exists j, P, pimg. repeat split; try done.
    apply parent_of_Some. eauto.
  - destruct (N5 eq_refl) as (_ & Hnone & _). congruence.
Qed.

(** A node with a chain of ancestors is below the root image. *)
Lemma chain_below_root i : ∀ n a l,
  images t !! i = Some (n, a) → parent_chain t a l → below_root t a.
Proof.
  induction (lt_wf i) as [i _ IH]. intros n a l Hi Hl.
  inversion Hl as [a' img Ha Hp | a' img p l' Ha Hp Hne Hl']; subst.
  - destruct (wf_nodes _ _ _ W i n a Hi) as (img' & Ha' & [_ _ _ N4 N5]).
    assert (img' = img) as -> by congruence.
    destruct (parent img) as [p|] eqn:Hpar.
    + destruct (parent_facts _ _ _ _ _ Hi Ha Hpar) as (j & m & pimg & Hj & Hlt & Hpimg & Hin & _).
      exists p. split; [done|]. split.
      * eapply descends_child; [constructor|done..].
      * intros ->. destruct (wf_addr_inj _ _ _ _ _ _ _ _ W Hi Hj). lia.
    + destruct (is_dir (fs n)) eqn:Hdir.
      * destruct (N4 eq_refl) as (_ & P & b & j & q & pimg & _ & _ & _ & H4 & _). congruence.
      * destruct (N5 eq_refl) as (_ & _ & _ & [r Hr]). congruence.
  - destruct (parent_facts _ _ _ _ _ Hi Ha Hp) as (j & m & pimg & Hj & Hlt & Hpimg & Hin & _).
    destruct (IH j Hlt m p l' Hj Hl') as (r & Hr & Hrp & Hpr).
    exists r. split; [done|]. split.
    + eapply descends_child; eauto.
    + intros ->. destruct (wf_root _ _ _ W r Hr) as (k & nr & Hk & Hnodir).
      destruct (wf_addr_inj _ _ _ _ _ _ _ _ W Hi Hk) as [-> ->].
      destruct (wf_nodes _ _ _ W k nr r Hk) as (rimg & Hrimg & [_ _ _ _ N5]).
      destruct (N5 Hnodir) as (_ & Hnone & _). congruence.
Qed.

(** Outside the nodes below the root image, [ancestors] reaches a missing
    parent. *)
Lemma ancestors_not_below i : ∀ n a,
  images t !! i = Some (n, a) → ¬ below_root t a →
  ∀ fuel, i < fuel → ancestors fuel t a = Raise AttributeError.
Proof.
  induction (lt_wf i) as [i _ IH]. intros n a Hi Hnot fuel Hfuel.
  destruct fuel as [|fuel]; [lia|]. simpl.
  destruct (wf_nodes _ _ _ W i n a Hi) as (img & Ha & [_ _ _ N4 N5]).
  rewrite Ha.
  destruct (decide (parent img = root_image t)) as [Hp|Hp].
  { destruct Hnot. apply (chain_below_root i n a [a] Hi). by eapply chain_top. }
  destruct (parent img) as [p|] eqn:Hpar; [|done].
  destruct (parent_facts _ _ _ _ _ Hi Ha Hpar) as (j & m & pimg & Hj & Hlt & Hpimg & Hin & _).
  rewrite (IH j Hlt m p Hj); [done| |lia].
  intros (r & Hr & Hrp & Hpr). apply Hnot. exists r. split; [done|]. split.
  - eapply descends_child; eauto.
  - intros ->. destruct (wf_root _ _ _ W r Hr) as (k & nr & Hk & Hnodir).
    destruct (wf_addr_inj _ _ _ _ _ _ _ _ W Hi Hk) as [-> ->].
    destruct (wf_nodes _ _ _ W k nr r Hk) as (rimg & Hrimg & [_ _ _ _ M5]).
    destruct (M5 Hnodir) as (_ & Hnone & _). congruence.
Qed.

End MoreStructure.

(** X1.  In a constructed tree the mapping and the nodes correspond one to
    one: no name and no node occurs twice in the mapping, the node stored
    under a name has that name, every node that was allocated is stored,
    and there are as many nodes as names. *)
Theorem mapping_one_to_one fs version t :
  constructed fs version t →
  NoDup (dict_keys (images t))
  ∧ NoDup (images t).*2
  ∧ (∀ n a, dict_get n (images t) = Some a →
       ∃ img, heap t !! a = Some img ∧ name img = n)
  ∧ (∀ a, a < length (heap t) → ∃ n, dict_get n (images t) = Some a)
  ∧ length (heap t) = length (images t).
Proof.
  intros [W Hall]%constructed_wf.
  split; [apply W|]. split; [apply W|]. split; [|split].
  - intros n a [i Hi]%wf_dict_get_inv.
    destruct (wf_nodes _ _ _ W i n a Hi) as (img & Ha & [N1 _ _ _ _]). eauto.
  - intros a (i & n & Hi)%Hall%registered_lookup.
    exists n. by eapply wf_dict_get.
  - rewrite <- (length_fmap snd (images t)).
    rewrite <- (length_seq (length (heap t)) 0) at 1.
    apply Permutation_length, NoDup_Permutation; [apply NoDup_seq|apply W|].
    intros a. rewrite elem_of_seq. split.
    + intros [_ Ha]. apply Hall. lia.
    + intros Ha. apply (registered_lt fs version) in Ha; [lia|done].
Qed.

Lemma mapping_one_to_one_witness :
  NoDup (dict_keys (images Examples.stack))
  ∧ NoDup (images Examples.stack).*2
  ∧ (∀ n a, dict_get n (images Examples.stack) = Some a →
       ∃ img, heap Examples.stack !! a = Some img ∧ name img = n)
  ∧ (∀ a, a < length (heap Examples.stack) →
       ∃ n, dict_get n (images Examples.stack) = Some a)
  ∧ length (heap Examples.stack) = length (images Examples.stack).
Proof.
  apply (mapping_one_to_one Examples.stack_fs (Some "3.8") Examples.stack).
  exact stack_constructed.
Defined.

(** X2.  In a constructed tree the two directions of an edge agree: a node
    is in the [children] of another exactly when that other is its
    [parent]; no node is listed twice among the children of a node; and
    the edges have no cycle (two nodes below each other are the same). *)
Theorem parent_and_children_agree fs version t :
  constructed fs version t →
  (∀ a c aimg cimg,
     heap t !! a = Some aimg → heap t !! c = Some cimg →
     (c ∈ children aimg ↔ parent cimg = Some a))
  ∧ (∀ a aimg, heap t !! a = Some aimg → NoDup (children aimg) ∧ a ∉ children aimg)
  ∧ (∀ a x, a < length (heap t) → descends t a x → descends t x a → a = x).
Proof.
  intros [W Hall]%constructed_wf.
  assert (∀ a img, heap t !! a = Some img → ∃ i n, images t !! i = Some (n, a)) as Hreg.
  { intros a img Ha. apply registered_lookup, Hall. by apply lookup_lt_Some in Ha. }
  split; [|split].
  - intros a c aimg cimg Ha Hc. split.
    + destruct (Hreg a aimg Ha) as (i & n & Hi). intros Hin.
      destruct (child_facts fs version t W _ _ _ _ _ Hi Ha Hin)
        as (i' & m & cimg' & _ & _ & Hc' & Hp & _). congruence.
    + destruct (Hreg c cimg Hc) as (i & n & Hi). intros Hp.
      destruct (parent_facts fs version t W _ _ _ _ _ Hi Hc Hp)
        as (j & m & pimg & _ & _ & Hpimg & Hin & _). congruence.
  - intros a aimg Ha. destruct (Hreg a aimg Ha) as (i & n & Hi).
    destruct (wf_nodes _ _ _ W i n a Hi) as (img & Ha' & [_ N2 _ _ _]).
    assert (img = aimg) as -> by congruence. split; [done|].
    intros Hin.
    destruct (child_facts fs version t W _ _ _ _ _ Hi Ha Hin) as (i' & m & cimg & Hi' & Hlt & _).
    destruct (wf_addr_inj _ _ _ _ _ _ _ _ W Hi Hi'). lia.
  - intros a x Ha. apply (descends_antisym fs version t W). by apply Hall.
Qed.

Lemma parent_and_children_agree_witness :
  (∀ a c aimg cimg,
     heap Examples.stack !! a = Some aimg → heap Examples.stack !! c = Some cimg →
     (c ∈ children aimg ↔ parent cimg = Some a))
  ∧ (∀ a aimg, heap Examples.stack !! a = Some aimg →
       NoDup (children aimg) ∧ a ∉ children aimg)
  ∧ (∀ a x, a < length (heap Examples.stack) →
       descends Examples.stack a x → descends Examples.stack x a → a = x).
Proof.
  apply (parent_and_children_agree Examples.stack_fs (Some "3.8") Examples.stack).
  exact stack_constructed.
Defined.

(** X3.  In a constructed tree [ancestors] returns a sequence exactly for the
    nodes below the root image; for every other node (the root image, and
    a node under another image without directory) it raises
    [AttributeError] once the fuel exceeds the size of the mapping. *)
Theorem ancestors_defined_iff_below_root fs version t a img :
  constructed fs version t → heap t !! a = Some img →
  ((∃ fuel l, ancestors fuel t a = Ok l) ↔ below_root t a)
  ∧ (¬ below_root t a →
     ∀ fuel, length (images t) ≤ fuel → ancestors fuel t a = Raise AttributeError).
Proof.
  intros [W Hall]%constructed_wf Ha.
  assert (registered t a) as (i & n & Hi)%registered_lookup.
  { apply Hall. by apply lookup_lt_Some in Ha. }
  split; [split|].
  - intros (fuel & l & Hl%ancestors_sound). by eapply (chain_below_root fs version t W).
  - intros Hbelow. destruct (below_root_chain fs version t W a Hbelow) as [l Hl].
    exists (length l), l. by apply ancestors_complete.
  - intros Hnot fuel Hfuel. apply (ancestors_not_below fs version t W i n a Hi Hnot).
    apply lookup_lt_Some in Hi. lia.
Qed.

Lemma ancestors_defined_iff_below_root_witness :
  ((∃ fuel l, ancestors fuel Examples.stack 2 = Ok l) ↔ below_root Examples.stack 2)
  ∧ (¬ below_root Examples.stack 2 →
     ∀ fuel, length (images Examples.stack) ≤ fuel →
       ancestors fuel Examples.stack 2 = Raise AttributeError).
Proof.
  apply (ancestors_defined_iff_below_root Examples.stack_fs (Some "3.8") Examples.stack 2
           (mkImage "base" None [1] None true)).
  - exact stack_constructed.
  - reflexivity.
Defined.

(** ** [descendants] and [ancestors] as inverse walks *)

(** A successful loop over [xs] has called [g] with success on each. *)
Lemma extend_each_ok_all {A} (g : A → outcome (list addr)) xs l :
  extend_each g xs = Ok l →
  ∀ x, x ∈ xs → ∃ d, g x = Ok d ∧ ∀ y, y ∈ d → y ∈ l.
Proof.
  revert l. induction xs as [|x0 xs IH]; intros l H x Hx; [by apply elem_of_nil in Hx|].
  simpl in H. destruct (g x0) as [d0|] eqn:E0; [|done].
  destruct (extend_each g xs) as [ds|] eqn:E; [|done]. injection H as <-.
  apply elem_of_cons in Hx as [->|Hx].
  - exists d0. split; [done|]. intros y Hy. apply elem_of_app. by left.
  - destruct (IH ds eq_refl x Hx) as (d & Hd & Hsub). exists d. split; [done|].
    intros y Hy. apply elem_of_app. right. by apply Hsub.
Qed.

(** The result of the loop has no duplicates when the results of the calls
    have none and do not overlap. *)
Lemma extend_each_NoDup {A} (g : A → outcome (list addr)) xs l :
  extend_each g xs = Ok l → NoDup xs →
  (∀ x d, x ∈ xs → g x = Ok d → NoDup d) →
  (∀ x1 x2 d1 d2 y, x1 ∈ xs → x2 ∈ xs → g x1 = Ok d1 → g x2 = Ok d2 →
     y ∈ d1 → y ∈ d2 → x1 = x2) →
  NoDup l.
Proof.
  revert l. induction xs as [|x0 xs IH]; intros l H Hnd Hd Hdisj.
  { injection H as <-. constructor. }
  simpl in H. destruct (g x0) as [d0|] eqn:E0; [|done].
  destruct (extend_each g xs) as [ds|] eqn:E; [|done]. injection H as <-.
  apply NoDup_cons in Hnd as [Hx0 Hnd].
  apply NoDup_app. split; [|split].
  - apply (Hd x0); [left|done].
  - intros y Hy Hys. apply (extend_each_ok _ _ _ E) in Hys as (x & d & Hx & Hg & Hyd).
    assert (x0 = x) as ->; [|done].
    apply (Hdisj x0 x d0 d y); [left|by right|done..].
  - apply IH; [done|done| |].
    + intros x d Hx. apply Hd. by right.
    + intros x1 x2 d1 d2 y H1 H2. apply Hdisj; by right.
Qed.

(** What [descendants] returns is closed under [children]. *)
Lemma descendants_closed fuel : ∀ t a l,
  descendants fuel t a = Ok l →
  ∀ y yimg x, y ∈ l → heap t !! y = Some yimg → x ∈ children yimg → x ∈ l.
Proof.
  induction fuel as [|fuel IH]; intros t a l H y yimg x Hy Hyimg Hx; [done|].
  simpl in H. destruct (heap t !! a) as [img|] eqn:Ha; [|done].
  destruct (extend_each (descendants fuel t) (children img)) as [descs|] eqn:E; [|done].
  injection H as <-.
  apply elem_of_cons in Hy as [->|Hy].
  - assert (yimg = img) as -> by congruence.
    destruct (extend_each_ok_all _ _ _ E x Hx) as (d & Hd & Hsub).
    right. apply Hsub. by eapply descendants_self.
  - apply (extend_each_ok _ _ _ E) in Hy as (c & d & Hc & Hd & Hyd).
    right. apply (extend_each_ok _ _ _ E). exists c, d. split; [done|]. split; [done|].
    by eapply IH.
Qed.

(** A node with nodes below it is allocated. *)
Lemma descends_lt t a x : descends t a x → x ≠ a → a < length (heap t).
Proof.
  induction 1 as [|y yimg x Hay IH Hy Hx]; [done|]. intros _.
  destruct (decide (y = a)) as [->|Hne]; [by apply lookup_lt_Some in Hy|by apply IH].
Qed.

Section Walks.

Variable fs : filesystem.
Variable version : option string.
Variable t : ImageTree.
Hypothesis W : wf fs version t.

(** Above a node below [a] there is its parent, below [a] too. *)
Lemma descends_parent a x :
  registered t a → descends t a x → x ≠ a →
  ∃ ximg p, heap t !! x = Some ximg ∧ parent ximg = Some p ∧ descends t a p.
Proof.
  intros Ra Hx Hne. destruct Hx as [|y yimg x Hay Hy Hx]; [done|].
  pose proof (descends_registered fs version t W a y Ra Hay) as (i & n & Hi)%registered_lookup.
  destruct (child_facts fs version t W _ _ _ _ _ Hi Hy Hx) as (_ & _ & cimg & _ & _ & Hc & Hp & _).
  by exists cimg, y.
Qed.

(** Two nodes above the same node are one above the other. *)
Lemma descends_comparable a b x :
  registered t a → registered t b →
  descends t a x → descends t b x → descends t a b ∨ descends t b a.
Proof.
  intros Ra Rb Hax. revert b Rb. induction Hax as [|y yimg x Hay IH Hy Hx]; intros b Rb Hbx.
  - by right.
  - destruct (decide (x = b)) as [->|Hne].
    + left. by eapply descends_child.
    + destruct (descends_parent b x Rb Hbx Hne) as (ximg & p & Hximg & Hp & Hbp).
      pose proof (descends_registered fs version t W a y Ra Hay) as (i & n & Hi)%registered_lookup.
      destruct (child_facts fs version t W _ _ _ _ _ Hi Hy Hx)
        as (_ & _ & cimg & _ & _ & Hc & Hp' & _).
      assert (p = y) as -> by congruence.
      by apply IH.
Qed.

(** A node is not among its own children. *)
Lemma not_own_child i n a img :
  images t !! i = Some (n, a) → heap t !! a = Some img → a ∉ children img.
Proof.
  intros Hi Ha Hin.
  destruct (child_facts fs version t W _ _ _ _ _ Hi Ha Hin) as (i' & m & cimg & Hi' & Hlt & _).
  destruct (wf_addr_inj _ _ _ _ _ _ _ _ W Hi Hi'). lia.
Qed.

(** [descendants] lists no node twice. *)
Lemma descendants_NoDup fuel : ∀ i n a l,
  images t !! i = Some (n, a) → descendants fuel t a = Ok l → NoDup l.
Proof.
  induction fuel as [|fuel IH]; intros i n a l Hi H; [done|].
  simpl in H. destruct (heap t !! a) as [img|] eqn:Ha; [|done].
  destruct (extend_each (descendants fuel t) (children img)) as [descs|] eqn:E; [|done].
  injection H as <-.
  assert (registered t a) as Ra by (apply registered_lookup; eauto).
  assert (∀ c, c ∈ children img →
            ∃ i' m cimg, images t !! i' = Some (m, c) ∧ heap t !! c = Some cimg
                         ∧ parent cimg = Some a) as Hch.
  { intros c Hc.
    destruct (child_facts fs version t W _ _ _ _ _ Hi Ha Hc) as (i' & m & cimg & ? & _ & ? & ? & _).
    by exists i', m, cimg. }
  apply NoDup_cons. split.
  - intros (c & d & Hc & Hd & Hin)%(extend_each_ok _ _ _ E).
    assert (descends t c a) as Hca by (by eapply descendants_sound).
    assert (descends t a c) as Hac by (eapply descends_child; [apply descends_self|done..]).
    assert (a = c) as Hac' by (by apply (descends_antisym fs version t W)).
    rewrite <- Hac' in Hc. exact (not_own_child i n a img Hi Ha Hc).
  - apply (extend_each_NoDup _ _ _ E).
    + destruct (wf_nodes _ _ _ W i n a Hi) as (img' & Ha' & [_ N2 _ _ _]).
      by assert (img' = img) as -> by congruence.
    + intros c d Hc Hd. destruct (Hch c Hc) as (i' & m & cimg & Hi' & _). by eapply IH.
    + intros c1 c2 d1 d2 y Hc1 Hc2 Hd1 Hd2 Hy1 Hy2.
      destruct (Hch c1 Hc1) as (i1 & m1 & cimg1 & Hi1 & Hcimg1 & Hp1).
      destruct (Hch c2 Hc2) as (i2 & m2 & cimg2 & Hi2 & Hcimg2 & Hp2).
      assert (registered t c1) as R1 by (apply registered_lookup; eauto).
      assert (registered t c2) as R2 by (apply registered_lookup; eauto).
      assert (descends t c1 y) as H1 by (by eapply descendants_sound).
      assert (descends t c2 y) as H2 by (by eapply descendants_sound).
      assert (∀ u v uimg, registered t u → registered t v →
                u ∈ children img → heap t !! v = Some uimg → parent uimg = Some a →
                descends t u v → u = v) as Hup.
      { intros u v vimg Ru Rv Hu Hv Hpv Huv.
        destruct (decide (u = v)) as [|Hne]; [done|]. exfalso.
        destruct (descends_parent u v Ru Huv ltac:(congruence)) as (vimg' & p & Hv' & Hp & Hup).
        assert (p = a) as -> by congruence.
        assert (a = u) as Hau.
        { apply (descends_antisym fs version t W); [done| |done].
          eapply descends_child; [apply descends_self|done..]. }
        rewrite <- Hau in Hu. exact (not_own_child i n a img Hi Ha Hu). }
      destruct (descends_comparable c1 c2 y R1 R2 H1 H2) as [H|H].
      * by eapply Hup.
      * symmetry. by eapply Hup.
Qed.

(** The chain of a node holds the nodes above it, the root image apart. *)
Lemma chain_elements i : ∀ n x l,
  images t !! i = Some (n, x) → parent_chain t x l →
  ∀ a, a ∈ l → descends t a x ∧ root_image t ≠ Some a ∧ registered t a.
Proof.
  induction (lt_wf i) as [i _ IH]. intros n x l Hi Hl a Ha.
  assert (registered t x) as Rx by (apply registered_lookup; eauto).
  assert (root_image t ≠ Some x) as Hxr.
  { intros Hr. by apply (root_no_chain fs version t W x l). }
  inversion Hl as [x' img Hx Hp | x' img p l' Hx Hp Hne Hl']; subst.
  - apply list_elem_of_singleton in Ha as ->. split; [apply descends_self|done].
  - apply elem_of_app in Ha as [Ha| ->%list_elem_of_singleton]; [|split; [apply descends_self|done]].
    destruct (parent_facts fs version t W _ _ _ _ _ Hi Hx Hp) as (j & m & pimg & Hj & Hlt & Hpimg & Hin & _).
    destruct (IH j Hlt m p l' Hj Hl' a Ha) as (Hap & Har & Ra).
    split; [|done]. by eapply descends_child.
Qed.

Lemma chain_contains a x l :
  all_registered t →
  parent_chain t x l → descends t a x → root_image t ≠ Some a → a ∈ l.
Proof.
  intros Hall Hl Hax Hne. revert l Hl. induction Hax as [|y yimg x Hay IH Hy Hx]; intros l Hl.
  - apply parent_chain_last in Hl. rewrite last_lookup in Hl.
    by eapply list_elem_of_lookup_2.
  - assert (registered t y) as (i & n & Hi)%registered_lookup.
    { apply Hall. by apply lookup_lt_Some in Hy. }
    destruct (child_facts fs version t W _ _ _ _ _ Hi Hy Hx) as (_ & _ & cimg & _ & _ & Hc & Hp & _).
    inversion Hl as [x' img Hx' Hp' | x' img p l' Hx' Hp' Hne' Hl']; subst.
    + assert (img = cimg) as -> by congruence.
      assert (root_image t = Some y) as Hr by congruence.
      destruct (decide (y = a)) as [->|Hya]; [done|]. exfalso.
      assert (registered t a) as Ra by (by apply Hall, (descends_lt t a y)).
      apply Hya. symmetry. by apply (descends_root fs version t W a y Ra Hr).
    + assert (img = cimg) as -> by congruence.
      assert (p = y) as -> by congruence.
      apply elem_of_app. left. by apply IH.
Qed.

End Walks.

(** X4.  On any tree state, when [descendants] returns, it returns the node
    itself first and exactly the nodes reachable from it along [children]
    edges. *)
Theorem descendants_is_children_closure fuel t a l :
  descendants fuel t a = Ok l →
  head l = Some a ∧ ∀ x, x ∈ l ↔ descends t a x.
Proof.
  intros H. split.
  - destruct fuel as [|fuel]; [done|]. simpl in H.
    destruct (heap t !! a); [|done].
    destruct (extend_each _ _); [|done]. by injection H as <-.
  - intros x. split; [by apply (descendants_sound fuel)|].
    induction 1 as [|y yimg x _ IH Hy Hx]; [by eapply descendants_self|].
    by eapply descendants_closed.
Qed.

Lemma descendants_is_children_closure_witness :
  head [1; 0; 3] = Some 1 ∧ ∀ x, x ∈ [1; 0; 3] ↔ descends Examples.stack 1 x.
Proof.
  apply (descendants_is_children_closure 3 Examples.stack 1 [1; 0; 3]).
  vm_compute. reflexivity.
Defined.

(** X5.  In a constructed tree [descendants] returns for every node, at any
    recursion depth from the size of the mapping on, the same sequence,
    and that sequence lists no node twice: the subtrees of two children
    do not overlap. *)
Theorem descendants_total_without_duplicates fs version t a :
  constructed fs version t → a < length (heap t) →
  ∃ l, (∀ fuel, length (images t) ≤ fuel → descendants fuel t a = Ok l)
       ∧ NoDup l.
Proof.
  intros [W Hall]%constructed_wf Ha.
  pose proof (Hall a Ha) as (i & n & Hi)%registered_lookup.
  destruct (descendants_complete fs version t W (length (images t)) i n a Hi
              ltac:(lia) (length (images t)) ltac:(lia)) as (l & Hl & _).
  exists l. split.
  - intros fuel Hfuel. by apply (descendants_mono (length (images t))).
  - by eapply (descendants_NoDup fs version t W).
Qed.

Lemma descendants_total_without_duplicates_witness :
  ∃ l, (∀ fuel, length (images Examples.stack) ≤ fuel →
          descendants fuel Examples.stack 2 = Ok l)
       ∧ NoDup l.
Proof.
  apply (descendants_total_without_duplicates Examples.stack_fs (Some "3.8")).
  - exact stack_constructed.
  - vm_compute. lia.
Defined.

(** X6.  In a constructed tree [ancestors] is the inverse of [descendants]
    below the root image: for a node below the root image, a node is in
    its [ancestors] exactly when it is not the root image and has the node
    among its [descendants]. *)
Theorem ancestors_inverse_of_descendants fs version t x :
  constructed fs version t → below_root t x →
  ∃ l, (∀ fuel, length (images t) ≤ fuel → ancestors fuel t x = Ok l)
       ∧ ∀ a, a ∈ l ↔
           (root_image t ≠ Some a
            ∧ ∃ d, descendants (length (images t)) t a = Ok d ∧ x ∈ d).
Proof.
  intros [W Hall]%constructed_wf Hx.
  destruct (below_root_chain fs version t W x Hx) as [l Hl].
  assert (registered t x) as (i & n & Hi)%registered_lookup.
  { destruct Hx as (r & Hr & Hd & _).
    destruct (wf_root _ _ _ W r Hr) as (j & m & Hj & _).
    apply (descends_registered fs version t W r); [|done].
    apply registered_lookup. eauto. }
  pose proof (chain_bound fs version t W i n x l Hi Hl) as Hlen.
  pose proof (lookup_lt_Some _ _ _ Hi) as Hlt.
  exists l. split.
  - intros fuel Hfuel. apply ancestors_complete; [done|lia].
  - intros a. split.
    + intros Ha.
      destruct (chain_elements fs version t W i n x l Hi Hl a Ha)
        as (Hax & Hne & (j & m & Hj)%registered_lookup).
      split; [done|].
      destruct (descendants_complete fs version t W (length (images t)) j m a Hj
                  ltac:(lia) (length (images t)) ltac:(lia)) as (d & Hd & Hchar).
      exists d. split; [done|]. by apply Hchar.
    + intros (Hne & d & Hd & Hin).
      apply (chain_contains fs version t W a x l Hall Hl); [|done].
      by eapply descendants_sound.
Qed.

Lemma ancestors_inverse_of_descendants_witness :
  ∃ l, (∀ fuel, length (images Examples.stack) ≤ fuel →
          ancestors fuel Examples.stack 0 = Ok l)
       ∧ ∀ a, a ∈ l ↔
           (root_image Examples.stack ≠ Some a
            ∧ ∃ d, descendants (length (images Examples.stack)) Examples.stack a = Ok d
                   ∧ 0 ∈ d).
Proof.
  apply (ancestors_inverse_of_descendants Examples.stack_fs (Some "3.8")).
  - exact stack_constructed.
  - exact stack_leaf1_below_root.
Defined.

(** ** [determine_rebuilds] on any input *)

(** The steps of a call that returns. *)
Lemma determine_rebuilds_inv fs set_order fuel edited t names t' :
  determine_rebuilds fs set_order fuel edited t = (Ok names, t') →
  ∃ deps ks,
    extend_each
      (fun img_name =>
         match dict_get img_name (images t) with
         | Some image => descendants fuel t image
         | None => Raise (ValueError (no_image_msg img_name (images t)))
         end) edited = Ok deps
    ∧ keyed fuel t (set_order deps) = Ok ks
    ∧ compatible_names t (sort_by_key ks).*2 = Ok names
    ∧ t' = t.
Proof.
  unfold determine_rebuilds, bind. rewrite dependents_eq.
  destruct (extend_each _ edited) as [deps|] eqn:E1; [|done].
  destruct (keyed fuel t (set_order deps)) as [ks|] eqn:E2; [|done].
  intros [= H <-]. by exists deps, ks.
Qed.

Lemma determine_rebuilds_steps fs set_order fuel edited t deps ks names :
  extend_each
    (fun img_name =>
       match dict_get img_name (images t) with
       | Some image => descendants fuel t image
       | None => Raise (ValueError (no_image_msg img_name (images t)))
       end) edited = Ok deps →
  keyed fuel t (set_order deps) = Ok ks →
  compatible_names t (sort_by_key ks).*2 = Ok names →
  determine_rebuilds fs set_order fuel edited t = (Ok names, t).
Proof.
  intros H1 H2 H3. unfold determine_rebuilds, bind. rewrite dependents_eq, H1, H2.
  by rewrite H3.
Qed.

(** The loop over a rearranged sequence collects the same elements. *)
Lemma extend_each_perm {A} (g : A → outcome (list addr)) xs xs' :
  xs ≡ₚ xs' → ∀ l, extend_each g xs = Ok l →
  ∃ l', extend_each g xs' = Ok l' ∧ l ≡ₚ l'.
Proof.
  induction 1 as [|x xs xs' _ IH|x y xs|xs xs' xs'' _ IH1 _ IH2]; intros l H.
  - by exists l.
  - simpl in *. destruct (g x) as [d|]; [|done].
    destruct (extend_each g xs) as [ds|]; [|done]. injection H as <-.
    destruct (IH ds eq_refl) as (ds' & -> & Hp). exists (d ++ ds'). by rewrite Hp.
  - simpl in *. destruct (g y) as [dy|]; [|done]. destruct (g x) as [dx|]; [|done].
    destruct (extend_each g xs) as [ds|]; [|done]. injection H as <-.
    exists (dx ++ dy ++ ds). split; [done|].
    rewrite !app_assoc. apply (Permutation_app_tail ds), Permutation_app_comm.
  - destruct (IH1 l H) as (l' & H' & Hp). destruct (IH2 l' H') as (l'' & H'' & Hp').
    exists l''. split; [done|]. by etrans.
Qed.

(** The keys are those of the elements, and exist for each. *)
Lemma keyed_inv fuel t l ks :
  keyed fuel t l = Ok ks →
  ks.*2 = l ∧ ∀ a, a ∈ l → ∃ la, ancestors fuel t a = Ok la.
Proof.
  revert ks. induction l as [|a l IH]; intros ks H.
  { injection H as <-. split; [done|]. by intros a ?%elem_of_nil. }
  simpl in H. destruct (ancestors fuel t a) as [la|] eqn:Ea; [|done].
  destruct (keyed fuel t l) as [ks'|]; [|done]. injection H as <-.
  destruct (IH ks' eq_refl) as [E Hall]. split; [by rewrite fmap_cons, E|].
  intros b [->|Hb]%elem_of_cons; eauto.
Qed.

Lemma keyed_all fuel t l :
  (∀ a, a ∈ l → ∃ la, ancestors fuel t a = Ok la) → ∃ ks, keyed fuel t l = Ok ks.
Proof.
  induction l as [|a l IH]; intros H; [by exists []|].
  destruct (H a ltac:(left)) as [la Ha].
  destruct IH as [ks Hks]; [intros b Hb; apply H; by right|].
  simpl. rewrite Ha, Hks. eauto.
Qed.

(** The names are those of the compatible nodes, in order. *)
Lemma compatible_names_inv t l names :
  compatible_names t l = Ok names →
  (∀ a, a ∈ l → is_Some (heap t !! a))
  ∧ names = node_name t <$> filter (fun a => node_compat t a = true) l.
Proof.
  intros H.
  assert (∀ a, a ∈ l → is_Some (heap t !! a)) as Hsome.
  { revert names H. induction l as [|a l IH]; intros names H b Hb; [by apply elem_of_nil in Hb|].
    simpl in H. destruct (heap t !! a) as [img|] eqn:Ea; [|done].
    destruct (compatible_names t l) as [ns|]; [|done].
    apply elem_of_cons in Hb as [->|Hb]; [by rewrite Ea|]. by eapply IH. }
  split; [done|]. rewrite (compatible_names_eq t l Hsome) in H. by injection H.
Qed.

Lemma compatible_names_all t l :
  (∀ a, a ∈ l → is_Some (heap t !! a)) → ∃ names, compatible_names t l = Ok names.
Proof. intros H. rewrite (compatible_names_eq t l H). eauto. Qed.

Lemma first_failure {A} (g : A → outcome (list addr)) pre x post e :
  (∀ y, y ∈ pre → ∃ d, g y = Ok d) → g x = Raise e →
  extend_each g (pre ++ x :: post) = Raise e.
Proof.
  induction pre as [|y pre IH]; intros Hpre Hx; simpl.
  - by rewrite Hx.
  - destruct (Hpre y ltac:(left)) as [d ->].
    rewrite IH; [done| |done]. intros z Hz. apply Hpre. by right.
Qed.

(** In a tree that satisfies the invariant, the name determines the node. *)
Lemma node_name_inj fs version t a b :
  wf fs version t → registered t a → registered t b →
  node_name t a = node_name t b → a = b.
Proof.
  intros W (i & n & Hi)%registered_lookup (j & m & Hj)%registered_lookup.
  unfold node_name.
  destruct (wf_nodes _ _ _ W i n a Hi) as (img & -> & [<- _ _ _ _]).
  destruct (wf_nodes _ _ _ W j m b Hj) as (img' & -> & [<- _ _ _ _]).
  intros E. rewrite E in Hi.
  pose proof (wf_dict_get fs version t _ _ _ W Hi).
  pose proof (wf_dict_get fs version t _ _ _ W Hj). congruence.
Qed.

(** X7.  On any tree state, the order of the edited names and the order in
    which the set of dependents is iterated change the result of
    [determine_rebuilds] by a rearrangement only: when the call returns
    for one order, it returns for every other, with the same names. *)
Theorem determine_rebuilds_any_order fs set_order set_order' fuel edited edited' t names t' :
  (∀ l, set_order l ≡ₚ remove_dups l) →
  (∀ l, set_order' l ≡ₚ remove_dups l) →
  edited ≡ₚ edited' →
  determine_rebuilds fs set_order fuel edited t = (Ok names, t') →
  ∃ names',
    determine_rebuilds fs set_order' fuel edited' t = (Ok names', t)
    ∧ names ≡ₚ names'.
Proof.
  intros Hso Hso' Hperm (deps & ks & H1 & H2 & H3 & ->)%determine_rebuilds_inv.
  destruct (extend_each_perm _ _ _ Hperm deps H1) as (deps' & H1' & Hdeps).
  destruct (keyed_inv _ _ _ _ H2) as [Eks Hanc].
  destruct (compatible_names_inv _ _ _ H3) as [Hsome ->].
  assert (set_order deps ≡ₚ set_order' deps') as Hord.
  { rewrite Hso, Hso'. apply NoDup_Permutation; [apply NoDup_remove_dups..|].
    intros x. by rewrite !elem_of_remove_dups, Hdeps. }
  destruct (keyed_all fuel t (set_order' deps')) as [ks' H2'].
  { intros a Ha. apply Hanc. by rewrite Hord. }
  destruct (keyed_inv _ _ _ _ H2') as [Eks' _].
  assert ((sort_by_key ks).*2 ≡ₚ (sort_by_key ks').*2) as Hsorted.
  { by rewrite !sort_by_key_perm, Eks, Eks'. }
  destruct (compatible_names_all t (sort_by_key ks').*2) as [names' H3'].
  { intros a Ha. apply Hsome. by rewrite Hsorted. }
  exists names'. split; [by eapply determine_rebuilds_steps|].
  destruct (compatible_names_inv _ _ _ H3') as [_ ->].
  by rewrite Hsorted.
Qed.

Lemma determine_rebuilds_any_order_witness :
  ∃ names',
    determine_rebuilds Examples.stack_fs remove_dups 4 ["mid"; "leaf2"] Examples.stack
    = (Ok names', Examples.stack)
    ∧ ["mid"; "leaf1"; "leaf2"] ≡ₚ names'.
Proof.
  apply (determine_rebuilds_any_order Examples.stack_fs remove_dups remove_dups 4
           ["leaf2"; "mid"] ["mid"; "leaf2"] Examples.stack
           ["mid"; "leaf1"; "leaf2"] Examples.stack).
  - intros l. reflexivity.
  - intros l. reflexivity.
  - apply Permutation_swap.
  - vm_compute. reflexivity.
Defined.

(** X8.  In a constructed tree, [determine_rebuilds] on names of which the
    first [pre] are keys of the mapping and the next one, [n], is not,
    raises the [ValueError] of [get_image] for [n] and leaves the tree
    unchanged; all the lookups come before the sort, so this holds also
    when a name of [pre] denotes the root image. *)
Theorem determine_rebuilds_unknown_name fs version set_order t pre n post fuel :
  constructed fs version t →
  (∀ m, m ∈ pre → m ∈ dict_keys (images t)) →
  n ∉ dict_keys (images t) →
  length (images t) ≤ fuel →
  determine_rebuilds fs set_order fuel (pre ++ n :: post) t
  = (Raise (ValueError (no_image_msg n (images t))), t).
Proof.
  intros [W Hall]%constructed_wf Hpre Hn Hfuel.
  unfold determine_rebuilds. rewrite bind_raise with (e := ValueError (no_image_msg n (images t))) (t' := t); [done|].
  rewrite dependents_eq. f_equal. apply first_failure.
  - intros m [a Ha]%Hpre%dict_get_is_Some. rewrite Ha.
    destruct (wf_dict_get_inv _ _ _ Ha) as [i Hi].
    destruct (descendants_complete fs version t W (length (images t)) i m a Hi
                ltac:(lia) fuel Hfuel) as (d & Hd & _). eauto.
  - apply dict_get_None in Hn. by rewrite Hn.
Qed.

Lemma determine_rebuilds_unknown_name_witness :
  determine_rebuilds Examples.stack_fs remove_dups 4 (["base"; "mid"] ++ "other" :: ["leaf1"])
    Examples.stack
  = (Raise (ValueError (no_image_msg "other" (images Examples.stack))), Examples.stack).
Proof.
  apply (determine_rebuilds_unknown_name Examples.stack_fs (Some "3.8")).
  - exact stack_constructed.
  - intros m Hm.
    change (dict_keys (images Examples.stack)) with ["base"; "mid"; "leaf1"; "leaf2"].
    repeat (apply elem_of_cons in Hm as [->|Hm]; [repeat constructor|]).
    by apply elem_of_nil in Hm.
  - change (dict_keys (images Examples.stack)) with ["base"; "mid"; "leaf1"; "leaf2"].
    intros H. repeat (apply elem_of_cons in H as [H|H]; [discriminate|]).
    by apply elem_of_nil in H.
  - vm_compute. lia.
Defined.

(** X9.  In a constructed tree, when [determine_rebuilds] returns, every
    edited name is a key of the mapping and denotes a node below the root
    image; the returned names are distinct, and each is the key of a
    compatible node at or below an edited node. *)
Theorem determine_rebuilds_returns fs version set_order fuel edited t names t' :
  (∀ l, set_order l ≡ₚ remove_dups l) →
  constructed fs version t →
  determine_rebuilds fs set_order fuel edited t = (Ok names, t') →
  (∀ n, n ∈ edited → ∃ a, dict_get n (images t) = Some a ∧ below_root t a)
  ∧ NoDup names
  ∧ ∀ m, m ∈ names →
      ∃ x n a, dict_get m (images t) = Some x ∧ node_compat t x = true
               ∧ n ∈ edited ∧ dict_get n (images t) = Some a ∧ descends t a x.
Proof.
  intros Hso [W Hall]%constructed_wf (deps & ks & H1 & H2 & H3 & ->)%determine_rebuilds_inv.
  destruct (keyed_inv _ _ _ _ H2) as [Eks Hanc].
  destruct (compatible_names_inv _ _ _ H3) as [Hsome ->].
  assert (∀ x, x ∈ (sort_by_key ks).*2 ↔ x ∈ deps) as HL.
  { intros x. by rewrite sort_by_key_perm, Eks, Hso, elem_of_remove_dups. }
  assert (∀ x, x ∈ deps → registered t x) as Hreg.
  { intros x Hx%HL. apply Hall. destruct (Hsome x Hx) as [? ?%lookup_lt_Some]. done. }
  assert (∀ x, x ∈ deps → below_root t x) as Hbelow.
  { intros x Hx. pose proof (Hreg x Hx) as (i & m & Hi)%registered_lookup.
    destruct (Hanc x) as [la Hla]; [by rewrite Hso, elem_of_remove_dups|].
    apply ancestors_sound in Hla. by eapply (chain_below_root fs version t W). }
  assert (∀ x, x ∈ deps ↔ ∃ n a, n ∈ edited ∧ dict_get n (images t) = Some a
                                 ∧ ∃ d, descendants fuel t a = Ok d ∧ x ∈ d) as Hdeps.
  { intros x. rewrite (extend_each_ok _ _ _ H1 x). split.
    - intros (n & d & Hn & Hg & Hx). destruct (dict_get n (images t)) as [a|] eqn:Ha; [|done].
      exists n, a. eauto.
    - intros (n & a & Hn & Ha & d & Hd & Hx). exists n, d. by rewrite Ha. }
  split; [|split].
  - intros n Hn. destruct (extend_each_ok_all _ _ _ H1 n Hn) as (d & Hg & Hsub).
    destruct (dict_get n (images t)) as [a|] eqn:Ha; [|done].
    exists a. split; [done|]. apply Hbelow, Hsub. by eapply descendants_self.
  - apply NoDup_fmap_2_strong.
    + intros x y [_ Hx%HL]%list_elem_of_filter [_ Hy%HL]%list_elem_of_filter.
      apply (node_name_inj fs version t x y W); by apply Hreg.
    + apply NoDup_filter. rewrite sort_by_key_perm, Eks, Hso. apply NoDup_remove_dups.
  - intros m (x & -> & [Hc Hx%HL]%list_elem_of_filter)%list_elem_of_fmap.
    pose proof (Hreg x Hx) as (i & k & Hi)%registered_lookup.
    apply Hdeps in Hx as (n & a & Hn & Ha & d & Hd & Hx).
    exists x, n, a. split; [|split; [done|split; [done|split; [done|]]]].
    + unfold node_name. destruct (wf_nodes _ _ _ W i k x Hi) as (img & -> & [<- _ _ _ _]).
      by eapply wf_dict_get.
    + by eapply descendants_sound.
Qed.

Lemma determine_rebuilds_returns_witness :
  (∀ n, n ∈ ["mid"] → ∃ a, dict_get n (images Examples.stack) = Some a
                           ∧ below_root Examples.stack a)
  ∧ NoDup ["mid"; "leaf1"; "leaf2"]
  ∧ ∀ m, m ∈ ["mid"; "leaf1"; "leaf2"] →
      ∃ x n a, dict_get m (images Examples.stack) = Some x
               ∧ node_compat Examples.stack x = true
               ∧ n ∈ ["mid"] ∧ dict_get n (images Examples.stack) = Some a
               ∧ descends Examples.stack a x.
Proof.
  apply (determine_rebuilds_returns Examples.stack_fs (Some "3.8") remove_dups 4
           ["mid"] Examples.stack ["mid"; "leaf1"; "leaf2"] Examples.stack).
  - intros l. reflexivity.
  - exact stack_constructed.
  - vm_compute. reflexivity.
Defined.

(** ** What the definitions make of the construction *)

Section Definitions.

Variable fs : filesystem.
Variable version : option string.

Lemma reach_inv n m :
  reach fs version n m → n = m ∨ ∃ p, parent_of fs version n = Some p ∧ reach fs version p m.
Proof. destruct 1; eauto. Qed.

Lemma parse_pure_is_dir n r : parse_pure fs version n = Ok r → is_dir (fs n) = true.
Proof. unfold parse_pure. by destruct (fs n). Qed.

(** The chain of definitions above a name ends when it reaches a name
    without directory. *)
Lemma resolves_iff n :
  resolves fs version n ↔ ∃ m, reach fs version n m ∧ is_dir (fs m) = false.
Proof.
  split.
  - intros (k & c & H). revert n c H. induction k as [|k IH]; intros n c H; [done|].
    destruct (plan_cases fs version k [] n c H)
      as [[Hdir _]|[(p & _ & Hp%elem_of_nil & _)|(p & c' & Hp & _ & Hc' & _)]]; [|done|].
    + exists n. split; [constructor|done].
    + destruct (IH p c' Hc') as (m & Hm & Hdir). exists m. split; [|done].
      by eapply reach_step.
  - intros (m & Hm & Hdir). induction Hm as [n|n p m Hp _ IH].
    + by apply resolves_nodir.
    + eapply resolves_child; eauto.
Qed.

(** The flag of a node, from the definitions above its name. *)
Lemma flag_by_definitions t i : ∀ n a,
  wf fs version t → images t !! i = Some (n, a) →
  (node_compat t a = false ↔
   ∃ m p, reach fs version n m ∧ parse_pure fs version m = Ok (p, true)).
Proof.
  induction (lt_wf i) as [i _ IH]. intros n a W Hi.
  destruct (wf_nodes _ _ _ W i n a Hi) as (img & Ha & [_ _ _ N4 N5]).
  unfold node_compat at 1. rewrite Ha.
  destruct (is_dir (fs n)) eqn:Hdir.
  - destruct (N4 eq_refl) as (_ & P & b & j & p & pimg & HP & Hlt & Hj & _ & Hp & _ & Hflag).
    assert (parent_of fs version n = Some P) as Hpar by (apply parent_of_Some; eauto).
    pose proof (IH j Hlt P p W Hj) as IHp. unfold node_compat in IHp. rewrite Hp in IHp.
    rewrite Hflag. split.
    + intros [Hb|Hpf]%andb_false_iff.
      * exists n, P. split; [constructor|]. rewrite HP. by destruct b.
      * destruct (proj1 IHp Hpf) as (m & q & Hm & Hq). exists m, q. split; [|done].
        by eapply reach_step.
    + intros (m & q & Hm & Hq). apply andb_false_iff.
      destruct (reach_inv _ _ Hm) as [<-|(P' & HP' & Hm')].
      * left. rewrite HP in Hq. by injection Hq as _ ->.
      * right. apply IHp. exists m, q. split; [|done]. congruence.
  - destruct (N5 eq_refl) as (_ & _ & -> & _). split; [done|].
    intros (m & q & Hm & Hq). exfalso.
    destruct (reach_inv _ _ Hm) as [<-|(P' & HP' & Hm')].
    + apply parse_pure_is_dir in Hq. congruence.
    + apply parent_of_Some in HP' as [? _]. congruence.
Qed.

(** Creation along a chain of definitions that does not end. *)
Lemma create_image_endless fuel : ∀ n t,
  (∀ m, reach fs version n m → is_Some (parent_of fs version m)) →
  python_version t = version →
  (∀ m, reach fs version n m → m ∉ dict_keys (images t)) →
  ∃ t', create_image fs fuel n t = (Raise RecursionError, t') ∧ images t' = images t.
Proof.
  induction fuel as [|fuel IH]; intros n t Hend Hv Hfresh; [by exists t|].
  destruct (Hend n (reach_refl _ _ n)) as [P HP].
  pose proof HP as [Hdir [b Hb]]%parent_of_Some.
  set (a := length (heap t)).
  set (t1 := with_heap (heap t ++ [fresh_image n]) t).
  assert (heap t1 !! a = Some (fresh_image n)) as Ha by apply lookup_alloc.
  set (t2 := if b then with_heap (alter (set_python_compat false) a (heap t1)) t1 else t1).
  assert (images t2 = images t ∧ python_version t2 = version) as [Him Hv2].
  { unfold t2. by destruct b. }
  destruct (IH P t2) as (t' & Hcr & Him').
  { intros m Hm. apply Hend. by eapply reach_step. }
  { done. }
  { intros m Hm. rewrite Him. apply Hfresh. by eapply reach_step. }
  exists t'. split; [|congruence].
  rewrite create_image_S. fold a t1.
  apply bind_raise. unfold add_to_tree_with.
  rewrite (bind_ok _ _ _ _ _ (obj_ok a t1 _ Ha)). change (dirpath (fresh_image n)) with (Some n). cbv beta iota. rewrite Hdir.
  assert (_parse_parent_from_dockerfile fs a t1 = (Ok P, t2)) as Hparse.
  { rewrite (parse_eq fs version t1 a (fresh_image n) n Hv Ha eq_refl), Hb. done. }
  rewrite (bind_ok _ _ _ _ _ Hparse), link_images_by_name.
  apply bind_raise. unfold get_image_with.
  assert (dict_get P (images t2) = None) as ->; [|done].
  apply dict_get_None. rewrite Him. apply Hfresh. eapply reach_step; [done|constructor].
Qed.

Lemma create_tree_app fuel l1 l2 t :
  _create_tree fs fuel (l1 ++ l2) t
  = bind (_create_tree fs fuel l1) (fun _ => _create_tree fs fuel l2) t.
Proof.
  revert t. induction l1 as [|n l1 IH]; intros t; [done|].
  change (_create_tree fs fuel ((n :: l1) ++ l2) t)
    with (bind (get_image fs fuel n true)
            (fun image => bind (add_to_tree fs fuel image)
                            (fun _ => _create_tree fs fuel (l1 ++ l2))) t).
  change (_create_tree fs fuel (n :: l1))
    with (bind (get_image fs fuel n true)
            (fun image => bind (add_to_tree fs fuel image)
                            (fun _ => _create_tree fs fuel l1))).
  unfold bind.
  destruct (get_image fs fuel n true t) as [[a|e] t1]; [|done].
  destruct (add_to_tree fs fuel a t1) as [[[]|e] t2]; [|done].
  apply IH.
Qed.

End Definitions.



(** X11.  The constructor returns, for some recursion depth, exactly when
    every discovered name has a directory and the chain of definitions
    above it reaches a name without directory; otherwise it raises at
    every depth. *)
Theorem constructor_succeeds_iff fs version paths :
  (∃ fuel t, ImageTree_init fs version fuel paths = (Ok tt, t))
  ↔ ∀ n, n ∈ paths →
      is_dir (fs n) = true ∧ ∃ m, reach fs version n m ∧ is_dir (fs m) = false.
Proof.
  split.
  - intros (fuel & t & H). destruct (init_spec fs version fuel paths t H) as [_ Hplan].
    destruct (plan_tree_inv fs version fuel paths [] _ ltac:(by intros ? ?%elem_of_nil) Hplan)
      as (Hres & Hpaths & _).
    intros n Hn. destruct (Hpaths n Hn) as [Hdir Hkey]. split; [done|].
    by apply resolves_iff, Hres.
  - intros H.
    destruct (resolves_bound fs version paths) as [K HK].
    { intros n Hn. apply resolves_iff. by apply H. }
    destruct (plan_tree_total fs version K paths []) as [D' HD'].
    { intros n Hn. split; [by apply H|by apply HK]. }
    pose proof (create_tree_spec fs version K paths (empty_tree version)
                  (wf_empty fs version) ltac:(intros x Hx; simpl in Hx; lia)) as Hspec.
    simpl in Hspec. rewrite HD' in Hspec. destruct Hspec as (t' & Ht' & _).
    by exists K, t'.
Qed.

(** X12.  When the chain of definitions above a name never ends (every name
    on it has a definition that names a parent: the definitions form a
    cycle), creating the node raises [RecursionError] at every recursion
    depth and stores nothing in the mapping, and so does the constructor
    when it discovers the name first. *)
Theorem endless_definitions_recursion_error fs version n :
  (∀ m, reach fs version n m → is_Some (parent_of fs version m)) →
  (∀ fuel t, python_version t = version →
     (∀ m, reach fs version n m → m ∉ dict_keys (images t)) →
     ∃ t', create_image fs fuel n t = (Raise RecursionError, t')
           ∧ images t' = images t)
  ∧ (∀ fuel rest, fst (ImageTree_init fs version fuel (n :: rest)) = Raise RecursionError).
Proof.
  intros Hend. split.
  - intros fuel t Hv Hfresh. by apply (create_image_endless fs version).
  - intros fuel rest. unfold ImageTree_init. simpl.
    destruct (create_image_endless fs version fuel n (empty_tree version) Hend eq_refl)
      as (t' & Hcr & _).
    { intros m _. apply not_elem_of_nil. }
    rewrite bind_raise with (e := RecursionError) (t' := t'); [done|].
    unfold get_image, get_image_with. simpl. done.
Qed.

Lemma endless_definitions_recursion_error_witness :
  (∀ fuel t, python_version t = Some "3.8" →
     (∀ m, reach Examples.cyclic_fs (Some "3.8") "a" m → m ∉ dict_keys (images t)) →
     ∃ t', create_image Examples.cyclic_fs fuel "a" t = (Raise RecursionError, t')
           ∧ images t' = images t)
  ∧ (∀ fuel rest,
       fst (ImageTree_init Examples.cyclic_fs (Some "3.8") fuel ("a" :: rest))
       = Raise RecursionError).
Proof.
  apply (endless_definitions_recursion_error Examples.cyclic_fs (Some "3.8") "a").
  assert (∀ n m, reach Examples.cyclic_fs (Some "3.8") n m →
            n = "a" ∨ n = "b" → m = "a" ∨ m = "b") as Hab.
  { induction 1 as [n|n p m Hp _ IH]; [done|].
    intros [->| ->]; apply IH; vm_compute in Hp; injection Hp as <-; auto. }
  intros m Hm. destruct (Hab _ _ Hm) as [->| ->]; [by left|..]; by eexists.
Defined.

(** X13.  A discovered name that has no directory makes the constructor
    raise [AttributeError]: after the names before it are registered, its
    node is found or created without a directory, and the loop then calls
    [add_to_tree] on it, whose [dirpath] is [None]. *)
Theorem discovered_name_without_directory fs version fuel pre n rest t :
  ImageTree_init fs version (S fuel) pre = (Ok tt, t) →
  is_dir (fs n) = false →
  fst (ImageTree_init fs version (S fuel) (pre ++ n :: rest)) = Raise AttributeError.
Proof.
  intros Hpre Hdir.
  assert (constructed fs version t) as [W _]%constructed_wf by (by exists (S fuel), pre).
  unfold ImageTree_init in *. rewrite create_tree_app, (bind_ok _ _ _ _ _ Hpre).
  change (_create_tree fs (S fuel) (n :: rest) t)
    with (bind (get_image fs (S fuel) n true)
            (fun image => bind (add_to_tree fs (S fuel) image)
                            (fun _ => _create_tree fs (S fuel) rest)) t).
  assert (∃ a t' i, get_image fs (S fuel) n true t = (Ok a, t')
                    ∧ wf fs version t' ∧ images t' !! i = Some (n, a))
    as (a & t' & i & Hget & W' & Hi).
  { unfold get_image, get_image_with.
    destruct (dict_get n (images t)) as [a|] eqn:Ha.
    - destruct (wf_dict_get_inv _ _ _ Ha) as [i Hi]. by exists a, t, i.
    - apply dict_get_None in Ha.
      pose proof (create_image_spec fs version (S fuel) n t W Ha) as Hspec.
      simpl in Hspec. rewrite Hdir in Hspec.
      destruct Hspec as (a & t' & Hcr & Hext & Hget).
      destruct (wf_dict_get_inv _ _ _ Hget) as [i Hi].
      exists a, t', i. split; [done|]. split; [apply Hext|done]. }
  rewrite (bind_ok _ _ _ _ _ Hget).
  rewrite bind_raise with (e := AttributeError) (t' := t'); [done|].
  rewrite (add_to_tree_again fs version (S fuel) t' i n a W' Hi). by rewrite Hdir.
Qed.

Lemma discovered_name_without_directory_witness :
  fst (ImageTree_init Examples.stack_fs (Some "3.8") 4
         (["leaf1"; "mid"; "leaf2"] ++ "base" :: []))
  = Raise AttributeError.
Proof.
  apply (discovered_name_without_directory Examples.stack_fs (Some "3.8") 3
           ["leaf1"; "mid"; "leaf2"] "base" [] Examples.stack).
  - vm_compute. reflexivity.
  - reflexivity.
Defined.

(** ** Lookups, links and tags *)

Lemma bind_ok_inv {A B} (m : M A) (k : A → M B) t b t' :
  bind m k t = (Ok b, t') → ∃ a t1, m t = (Ok a, t1) ∧ k a t1 = (Ok b, t').
Proof. unfold bind. destruct (m t) as [[a|e] t1]; [eauto|done]. Qed.

Lemma dict_get_set k v d : dict_get k (dict_set k v d) = Some v.
Proof.
  induction d as [|[k' v'] d IH]; simpl.
  - by rewrite decide_True.
  - destruct (decide (k = k')) as [->|Hne]; simpl.
    + by rewrite decide_True.
    + by rewrite decide_False.
Qed.

(** X14.  On any tree state, a node that [get_image] returned with
    [create_new=True] is stored under its name: every later [get_image]
    for the name, with or without [create_new], returns that node and
    changes nothing. *)
Theorem get_image_after_create fs fuel fuel' n t a t' :
  get_image fs fuel n true t = (Ok a, t') →
  dict_get n (images t') = Some a
  ∧ ∀ create_new, get_image fs fuel' n create_new t' = (Ok a, t').
Proof.
  intros H.
  assert (dict_get n (images t') = Some a) as Hget.
  { unfold get_image, get_image_with in H.
    destruct (dict_get n (images t)) as [a0|] eqn:E; [by injection H as <- <-|].
    destruct fuel as [|fuel]; [done|]. rewrite create_image_S in H.
    apply bind_ok_inv in H as ([] & t1 & _ & H). unfold store, bind, ret in H.
    injection H as <- <-. simpl. apply dict_get_set. }
  split; [done|]. intros b. unfold get_image, get_image_with. by rewrite Hget.
Qed.

Lemma get_image_after_create_witness :
  dict_get "leaf1" (images Examples.stack) = Some 0
  ∧ ∀ create_new,
      get_image Examples.stack_fs 0 "leaf1" create_new Examples.stack
      = (Ok 0, Examples.stack).
Proof.
  apply (get_image_after_create Examples.stack_fs 4 0 "leaf1" Examples.stack).
  reflexivity.
Defined.

(** X15.  On any tree state, [link_images] on two different nodes makes the
    first the parent of the second, appends the second to the children of
    the first unless it is there, makes the second incompatible when the
    first is, and changes nothing else: in particular a former parent of
    the second node keeps it among its children.  Linking the same two
    nodes again changes nothing. *)
Theorem link_images_on_nodes fs fuel p c t pimg cimg :
  p ≠ c → heap t !! p = Some pimg → heap t !! c = Some cimg →
  ∃ t', link_images fs fuel (ByImage p) (ByImage c) t = (Ok tt, t')
        ∧ heap t' !! c
          = Some (mkImage (name cimg) (Some p) (children cimg) (dirpath cimg)
                    (python_compat cimg && python_compat pimg))
        ∧ heap t' !! p
          = Some (if bool_decide (c ∈ children pimg) then pimg
                  else set_children (children pimg ++ [c]) pimg)
        ∧ (∀ x, x ≠ p → x ≠ c → heap t' !! x = heap t !! x)
        ∧ images t' = images t ∧ root_image t' = root_image t
        ∧ link_images fs fuel (ByImage p) (ByImage c) t' = (Ok tt, t').
Proof.
  intros Hne Hp Hc.
  assert (∀ s, link_images fs fuel (ByImage p) (ByImage c) s = link_tail p c s) as Elink.
  { done. }
  set (h' := link_heap (heap t) p c pimg).
  set (pimg' := if bool_decide (c ∈ children pimg) then pimg
                else set_children (children pimg ++ [c]) pimg).
  assert (h' !! p = Some pimg') as Hp' by (by apply link_heap_parent).
  assert (h' !! c = Some (mkImage (name cimg) (Some p) (children cimg) (dirpath cimg)
                            (python_compat cimg && python_compat pimg))) as Hc'
    by (by apply link_heap_child).
  exists (with_heap h' t). rewrite !Elink.
  split; [by apply link_tail_eq|]. split; [done|]. split; [done|].
  split; [intros x Hxp Hxc; by apply link_heap_other|]. split; [done|]. split; [done|].
  rewrite (link_tail_eq p c (with_heap h' t) pimg' Hp' Hne). f_equal. simpl.
  unfold with_heap. simpl. f_equal.
  assert (python_compat pimg' = python_compat pimg) as Hflag.
  { unfold pimg'. by destruct (bool_decide _). }
  assert (c ∈ children pimg') as Hin.
  { unfold pimg'. case_bool_decide; [done|]. simpl. apply elem_of_app. right. by left. }
  apply list_eq. intros x.
  destruct (decide (x = c)) as [->|Hxc].
  - rewrite (link_heap_child h' p c pimg' _ Hne Hc'), Hc'. simpl. rewrite Hflag.
    by destruct (python_compat cimg), (python_compat pimg).
  - destruct (decide (x = p)) as [->|Hxp].
    + rewrite (link_heap_parent h' p c pimg' Hne Hp'), Hp'. by rewrite bool_decide_true.
    + by rewrite link_heap_other.
Qed.

Lemma link_images_on_nodes_witness :
  ∃ t', link_images Examples.stack_fs 0 (ByImage 3) (ByImage 0) Examples.stack = (Ok tt, t')
        ∧ heap t' !! 0
          = Some (mkImage "leaf1" (Some 3) [] (Some "leaf1") (true && true))
        ∧ heap t' !! 3
          = Some (if bool_decide (0 ∈ @nil nat) then mkImage "leaf2" (Some 1) [] (Some "leaf2") true
                  else set_children ([] ++ [0]) (mkImage "leaf2" (Some 1) [] (Some "leaf2") true))
        ∧ (∀ x, x ≠ 3 → x ≠ 0 → heap t' !! x = heap Examples.stack !! x)
        ∧ images t' = images Examples.stack ∧ root_image t' = root_image Examples.stack
        ∧ link_images Examples.stack_fs 0 (ByImage 3) (ByImage 0) t' = (Ok tt, t').
Proof.
  apply (link_images_on_nodes Examples.stack_fs 0 3 0 Examples.stack
           (mkImage "leaf2" (Some 1) [] (Some "leaf2") true)
           (mkImage "leaf1" (Some 1) [] (Some "leaf1") true)).
  - lia.
  - reflexivity.
  - reflexivity.
Defined.

Lemma after_first_last sep x :
  Str.count sep x = 0 → Str.after_first sep (x +:+ String sep EmptyString) = EmptyString.
Proof.
  induction x as [|c x IH]; intros H.
  - rewrite StrFacts.append_nil_l. simpl. by rewrite Ascii.eqb_refl.
  - rewrite StrFacts.append_cons. simpl in *.
    destruct (Ascii.eqb c sep); [done|]. by apply IH.
Qed.

Lemma count_last sep x :
  Str.count sep (x +:+ String sep EmptyString) = S (Str.count sep x).
Proof.
  induction x as [|c x IH].
  - rewrite StrFacts.append_nil_l. simpl. by rewrite Ascii.eqb_refl.
  - rewrite StrFacts.append_cons. simpl. rewrite IH. lia.
Qed.

(** X16.  A parent reference that ends in its only colon (an empty tag, as
    in [FROM base:]) makes the parse raise [IndexError] on [parent_tag[0]],
    whatever the tree's version; [add_to_tree] and [create_image] raise it
    too, and the node is not stored. *)
Theorem empty_tag_index_error fs dockerfile x :
  image_tag_of dockerfile = Ok (x +:+ ":") → Str.count ":" x = 0 →
  (∀ t self img d,
     heap t !! self = Some img → dirpath img = Some d →
     fs d = Dir (Some dockerfile) →
     _parse_parent_from_dockerfile fs self t = (Raise IndexError, t)
     ∧ ∀ fuel, add_to_tree fs fuel self t = (Raise IndexError, t))
  ∧ (∀ fuel n t,
       fs n = Dir (Some dockerfile) →
       create_image fs (S fuel) n t
       = (Raise IndexError, with_heap (heap t ++ [mkImage n None [] (Some n) true]) t)).
Proof.
  intros Htag Hx.
  assert (split_image_tag (x +:+ ":") = (Str.before_first ":" (x +:+ ":"), Some EmptyString))
    as Hsplit.
  { rewrite split_image_tag_spec, count_last, Hx, decide_True by done.
    by rewrite after_first_last. }
  assert (∀ t self img d,
            heap t !! self = Some img → dirpath img = Some d →
            fs d = Dir (Some dockerfile) →
            _parse_parent_from_dockerfile fs self t = (Raise IndexError, t)) as Hparse.
  { intros t self img d Hself Hd Hfs. unfold _parse_parent_from_dockerfile.
    rewrite (bind_ok _ _ _ _ _ (obj_ok _ _ _ Hself)), Hd, Hfs.
    unfold bind, lift. rewrite Htag, Hsplit. done. }
  assert (∀ cr t self img d,
            heap t !! self = Some img → dirpath img = Some d →
            fs d = Dir (Some dockerfile) →
            add_to_tree_with fs cr self t = (Raise IndexError, t)) as Hadd.
  { intros cr t self img d Hself Hd Hfs. unfold add_to_tree_with.
    rewrite (bind_ok _ _ _ _ _ (obj_ok _ _ _ Hself)), Hd, Hfs. simpl is_dir. cbv iota.
    apply bind_raise. by eapply Hparse. }
  split.
  - intros t self img d Hself Hd Hfs. split; [by eapply Hparse|].
    intros fuel. by eapply Hadd.
  - intros fuel n t Hfs. rewrite create_image_S. apply bind_raise.
    apply (Hadd _ _ _ (fresh_image n) n); [apply lookup_alloc|done..].
Qed.

Lemma empty_tag_index_error_witness :
  (∀ t self img d,
     heap t !! self = Some img → dirpath img = Some d →
     (fun _ : string => Dir (Some ["FROM contextlab/base:"])) d
     = Dir (Some ["FROM contextlab/base:"]) →
     _parse_parent_from_dockerfile (fun _ => Dir (Some ["FROM contextlab/base:"])) self t
     = (Raise IndexError, t)
     ∧ ∀ fuel, add_to_tree (fun _ => Dir (Some ["FROM contextlab/base:"])) fuel self t
               = (Raise IndexError, t))
  ∧ (∀ fuel n t,
       (fun _ : string => Dir (Some ["FROM contextlab/base:"])) n
       = Dir (Some ["FROM contextlab/base:"]) →
       create_image (fun _ => Dir (Some ["FROM contextlab/base:"])) (S fuel) n t
       = (Raise IndexError, with_heap (heap t ++ [mkImage n None [] (Some n) true]) t)).
Proof.
  apply (empty_tag_index_error (fun _ => Dir (Some ["FROM contextlab/base:"]))
           ["FROM contextlab/base:"] "base").
  - vm_compute. reflexivity.
  - reflexivity.
Defined.

Lemma find_skip {A} (f : A → bool) pre x post :
  (∀ y, y ∈ pre → f y = false) → f x = true →
  List.find f (pre ++ x :: post) = Some x.
Proof.
  induction pre as [|y pre IH]; intros Hpre Hx; simpl.
  - by rewrite Hx.
  - rewrite (Hpre y ltac:(left)). apply IH; [|done]. intros z Hz. apply Hpre. by right.
Qed.

(** X17.  The parent reference is read from the first line that starts with
    [FROM]: the lines before it that do not start with [FROM] are skipped,
    and, unless the reference is a build-arg, no line after it is read (a
    later [FROM] of a multi-stage definition is ignored). *)
Theorem first_from_line_decides pre from_line rest :
  (∀ l, l ∈ pre → Str.startswith l "FROM" = false) →
  Str.startswith from_line "FROM" = true →
  Str.startswith (Str.replace from_line "FROM " "") "$" = false →
  image_tag_of (pre ++ from_line :: rest)
  = Ok (Str.replace (Str.replace from_line "FROM " "") "contextlab/" "").
Proof.
  intros Hpre Hfrom Harg. unfold image_tag_of, parent_info_of, next_startswith.
  rewrite (find_skip _ pre from_line rest Hpre Hfrom). by rewrite Harg.
Qed.

Lemma first_from_line_decides_witness :
  image_tag_of (["# syntax=docker/dockerfile:1"; "ARG X=1"]
                ++ "FROM contextlab/base:3.8" :: ["RUN true"; "FROM other"])
  = Ok (Str.replace (Str.replace "FROM contextlab/base:3.8" "FROM " "") "contextlab/" "").
Proof.
  apply (first_from_line_decides ["# syntax=docker/dockerfile:1"; "ARG X=1"]
           "FROM contextlab/base:3.8" ["RUN true"; "FROM other"]).
  - intros l Hl. repeat (apply elem_of_cons in Hl as [->|Hl]; [reflexivity|]).
    by apply elem_of_nil in Hl.
  - reflexivity.
  - reflexivity.
Defined.

(** ** Nothing is removed *)

Lemma node_le_refl img : node_le img img.
Proof. split; [done|]. split; [done|by left]. Qed.

Lemma node_le_fields img img' :
  name img' = name img → children img' = children img → dirpath img' = dirpath img →
  node_le img img'.
Proof. intros N C D. split; [done|]. split; [by rewrite C|by left]. Qed.

Lemma node_le_trans i1 i2 i3 : node_le i1 i2 → node_le i2 i3 → node_le i1 i3.
Proof.
  intros (N1 & C1 & D1) (N2 & C2 & D2). split; [congruence|]. split; [by etrans|].
  destruct D2 as [D2|D2]; [|by right]. destruct D1 as [D1|D1]; [left|right]; congruence.
Qed.

Lemma grows_refl t : grows t t.
Proof.
  split; [|done]. intros a img Ha. exists img. split; [done|apply node_le_refl].
Qed.

Lemma grows_trans t1 t2 t3 : grows t1 t2 → grows t2 t3 → grows t1 t3.
Proof.
  intros (H1 & K1 & V1) (H2 & K2 & V2). split; [|split; [by etrans|congruence]].
  intros a img Ha. destruct (H1 a img Ha) as (img2 & Ha2 & L2).
  destruct (H2 a img2 Ha2) as (img3 & Ha3 & L3).
  exists img3. split; [done|]. by eapply node_le_trans.
Qed.

Lemma grows_heap t t' :
  heap t' = heap t → images t' = images t → python_version t' = python_version t →
  grows t t'.
Proof.
  intros Eh Ei Ev. split; [|by rewrite Ei]. intros a img Ha. exists img.
  rewrite Eh. split; [done|apply node_le_refl].
Qed.

Lemma grows_ret {A} (x : A) : only_grows (ret x).
Proof. intros t. apply grows_refl. Qed.

Lemma grows_raise {A} e : only_grows (@raise A e).
Proof. intros t. apply grows_refl. Qed.

Lemma grows_lift {A} (o : outcome A) : only_grows (lift o).
Proof. intros t. apply grows_refl. Qed.

Lemma grows_bind {A B} (m : M A) (k : A → M B) :
  only_grows m → (∀ x, only_grows (k x)) → only_grows (bind m k).
Proof.
  intros Hm Hk t. unfold bind. specialize (Hm t).
  destruct (m t) as [[x|e] t1]; simpl in *; [|done].
  eapply grows_trans; [exact Hm|apply Hk].
Qed.

Lemma grows_obj a : only_grows (obj a).
Proof. intros t. unfold obj. destruct (heap t !! a); apply grows_refl. Qed.

Lemma grows_update a f : (∀ img, node_le img (f img)) → only_grows (update a f).
Proof.
  intros Hf t. split; [|done]. intros b img Hb. simpl.
  destruct (decide (a = b)) as [->|Hne].
  - exists (f img). by rewrite list_lookup_alter_eq, Hb.
  - exists img. rewrite list_lookup_alter_ne by done. split; [done|apply node_le_refl].
Qed.

Lemma grows_Image_init n : only_grows (Image_init n).
Proof.
  intros t. split; [|done]. intros a img Ha. simpl. exists img.
  split; [by apply lookup_app_l_Some|apply node_le_refl].
Qed.

Lemma dict_keys_set k v d :
  dict_keys (dict_set k v d) = if decide (k ∈ dict_keys d) then dict_keys d else dict_keys d ++ [k].
Proof.
  unfold dict_keys. induction d as [|[k' v'] d IH].
  - destruct (decide (k ∈ ([] : list (string * nat)).*1)) as [H|_]; [|done].
    by apply elem_of_nil in H.
  - change (dict_set k v ((k', v') :: d))
      with (if decide (k = k') then (k, v) :: d else (k', v') :: dict_set k v d).
    destruct (decide (k = k')) as [->|Hne].
    + destruct (decide (k' ∈ ((k', v') :: d).*1)) as [_|H]; [done|]. destruct H. left.
    + rewrite !fmap_cons, IH. cbn [fst].
      destruct (decide (k ∈ d.*1)) as [Hin|Hnin], (decide (k ∈ k' :: d.*1)) as [Hin'|Hnin'];
        try done.
      * destruct Hnin'. by right.
      * apply elem_of_cons in Hin' as [?|?]; done.
Qed.

Lemma grows_store n a :
  only_grows (fun t => (Ok tt, with_images (dict_set n a (images t)) t)).
Proof.
  intros t. split; [|split; [|done]].
  - intros b img Hb. exists img. split; [done|apply node_le_refl].
  - simpl. rewrite dict_keys_set. case_decide; [done|]. by apply prefix_app_r.
Qed.

Lemma grows_parse fs self : only_grows (_parse_parent_from_dockerfile fs self).
Proof.
  unfold _parse_parent_from_dockerfile.
  apply grows_bind; [apply grows_obj|]. intros img.
  destruct (dirpath img) as [d|]; [|apply grows_raise].
  destruct (fs d) as [|[dockerfile|]]; try apply grows_raise.
  apply grows_bind; [apply grows_lift|]. intros image_tag.
  destruct (split_image_tag image_tag) as [parent_image parent_tag].
  intros t. destruct (pinned_elsewhere parent_tag (python_version t)) as [[|]|];
    try apply grows_refl.
  apply (grows_bind (update self (set_python_compat false)) (fun _ => ret parent_image));
    [|intros; apply grows_ret].
  apply grows_update. intros i. by apply node_le_fields.
Qed.

Lemma grows_add_child self child : only_grows (add_child self child).
Proof.
  unfold add_child. intros t. unfold bind, obj.
  destruct (heap t !! self) as [img|] eqn:Hself; [|apply grows_refl].
  destruct (bool_decide _); [apply grows_refl|].
  split; [|done]. intros b img' Hb. simpl.
  destruct (decide (self = b)) as [->|Hne].
  - assert (img' = img) as -> by congruence.
    exists (set_children (children img ++ [child]) img).
    rewrite list_lookup_alter_eq, Hb. split; [done|].
    split; [done|]. split; [by apply prefix_app_r|by left].
  - exists img'. rewrite list_lookup_alter_ne by done. split; [done|apply node_le_refl].
Qed.

Lemma grows_add_parent self p : only_grows (add_parent self p).
Proof. apply grows_update. intros i. by apply node_le_fields. Qed.

Section GrowsWithCreate.

Variable fs : filesystem.
Variable cr : string → M addr.
Hypothesis grows_cr : ∀ n, only_grows (cr n).

Lemma grows_get_image_with n b : only_grows (get_image_with cr n b).
Proof.
  intros t. unfold get_image_with.
  destruct (dict_get n (images t)); [apply grows_refl|].
  destruct b; [apply grows_cr | apply grows_refl].
Qed.

Lemma grows_link_images_with p c : only_grows (link_images_with cr p c).
Proof.
  unfold link_images_with.
  apply grows_bind.
  { destruct p; [apply grows_get_image_with | apply grows_ret]. }
  intros pa. apply grows_bind.
  { destruct c; [apply grows_get_image_with | apply grows_ret]. }
  intros ca. apply grows_bind; [apply grows_obj|]. intros pimg.
  apply grows_bind.
  { destruct (python_compat pimg); [apply grows_ret|].
    apply grows_update. intros i. by apply node_le_fields. }
  intros _. apply grows_bind; [apply grows_add_child|].
  intros _. apply grows_add_parent.
Qed.

Lemma grows_add_to_tree_with self : only_grows (add_to_tree_with fs cr self).
Proof.
  unfold add_to_tree_with. apply grows_bind; [apply grows_obj|]. intros img.
  destruct (dirpath img) as [d|]; [|apply grows_raise].
  destruct (is_dir (fs d)).
  - apply grows_bind; [apply grows_parse|]. intros. apply grows_link_images_with.
  - apply grows_bind.
    + apply grows_update. intros i. split; [done|]. split; [done|by right].
    + intros _ t. by apply grows_heap.
Qed.

End GrowsWithCreate.

Lemma grows_create_image fs fuel : ∀ n, only_grows (create_image fs fuel n).
Proof.
  induction fuel as [|fuel IH]; intros n; simpl; [apply grows_raise|].
  apply grows_bind; [apply grows_Image_init|]. intros image.
  apply grows_bind; [by apply grows_add_to_tree_with|]. intros _.
  apply grows_bind; [apply grows_store|intros; apply grows_ret].
Qed.

Lemma grows_create_tree fs fuel paths : only_grows (_create_tree fs fuel paths).
Proof.
  induction paths as [|n rest IH]; simpl; [apply grows_ret|].
  apply grows_bind; [apply grows_get_image_with, grows_create_image|]. intros image.
  apply grows_bind; [apply grows_add_to_tree_with, grows_create_image|]. done.
Qed.

(** X18.  No operation removes anything, on any tree state and also when it
    raises: parsing, registering, creating, looking up, linking and the
    construction keep every node under its address with its name and its
    children (new children are appended), keep every key of the mapping
    in its place, and keep the version; a directory is only ever changed
    to [None]. *)
Theorem nothing_is_removed fs fuel :
  (∀ image_name, only_grows (Image_init image_name))
  ∧ (∀ self, only_grows (_parse_parent_from_dockerfile fs self))
  ∧ (∀ self, only_grows (add_to_tree fs fuel self))
  ∧ (∀ image_name, only_grows (create_image fs fuel image_name))
  ∧ (∀ image_name create_new, only_grows (get_image fs fuel image_name create_new))
  ∧ (∀ parent child, only_grows (link_images fs fuel parent child))
  ∧ (∀ paths, only_grows (_create_tree fs fuel paths)).
Proof.
  split; [apply grows_Image_init|].
  split; [apply grows_parse|].
  split; [intros self; apply grows_add_to_tree_with, grows_create_image|].
  split; [apply grows_create_image|].
  split; [intros n b; apply grows_get_image_with, grows_create_image|].
  split; [intros p c; apply grows_link_images_with, grows_create_image|].
  apply grows_create_tree.
Qed.

(** ** A single external image *)

Lemma single_root_below fs version t r :
  wf fs version t → root_image t = Some r →
  (∀ n a, dict_get n (images t) = Some a → is_dir (fs n) = false → a = r) →
  ∀ i n a, images t !! i = Some (n, a) → a ≠ r → below_root t a.
Proof.
  intros W Hr Hone i. induction (lt_wf i) as [i _ IH]. intros n a Hi Hne.
  destruct (wf_nodes _ _ _ W i n a Hi) as (img & Ha & [_ _ _ N4 _]).
  destruct (is_dir (fs n)) eqn:Hdir.
  - destruct (N4 eq_refl) as (_ & P & b & j & p & pimg & _ & Hlt & Hj & _ & Hp & Hin & _).
    exists r. split; [done|]. split; [|done].
    destruct (decide (p = r)) as [->|Hpr].
    + eapply descends_child; [apply descends_self|done..].
    + destruct (IH j Hlt P p Hj Hpr) as (r' & Hr' & Hd & _).
      assert (r' = r) as -> by congruence.
      by eapply descends_child.
  - destruct Hne. apply (Hone n); [|done]. by eapply wf_dict_get.
Qed.

(** X19.  In a constructed tree with a single name without directory (one
    external base image), that node being the root image, every other
    node is below the root image, and [descendants] of the root image
    lists every node of the tree. *)
Theorem single_external_image fs version t r :
  constructed fs version t → root_image t = Some r →
  (∀ n a, dict_get n (images t) = Some a → is_dir (fs n) = false → a = r) →
  (∀ a, a < length (heap t) → a ≠ r → below_root t a)
  ∧ ∃ l, descendants (length (images t)) t r = Ok l
         ∧ ∀ a, a < length (heap t) → a ∈ l.
Proof.
  intros [W Hall]%constructed_wf Hr Hone.
  assert (∀ a, a < length (heap t) → a ≠ r → below_root t a) as Hbelow.
  { intros a Ha Hne. pose proof (Hall a Ha) as (i & n & Hi)%registered_lookup.
    by eapply single_root_below. }
  split; [done|].
  destruct (wf_root _ _ _ W r Hr) as (i & n & Hi & _).
  destruct (descendants_complete fs version t W (length (images t)) i n r Hi
              ltac:(lia) (length (images t)) ltac:(lia)) as (l & Hl & Hchar).
  exists l. split; [done|]. intros a Ha. apply Hchar.
  destruct (decide (a = r)) as [->|Hne]; [apply descends_self|].
  destruct (Hbelow a Ha Hne) as (r' & Hr' & Hd & _). congruence.
Qed.

Lemma single_external_image_witness :
  (∀ a, a < length (heap Examples.stack) → a ≠ 2 → below_root Examples.stack a)
  ∧ ∃ l, descendants (length (images Examples.stack)) Examples.stack 2 = Ok l
         ∧ ∀ a, a < length (heap Examples.stack) → a ∈ l.
Proof.
  apply (single_external_image Examples.stack_fs (Some "3.8") Examples.stack 2).
  - exact stack_constructed.
  - reflexivity.
  - intros n a Hget Hdir.
    apply dict_get_Some_elem in Hget.
    change (images Examples.stack)
      with [("base", 2); ("mid", 1); ("leaf1", 0); ("leaf2", 3)] in Hget.
    repeat (apply elem_of_cons in Hget as [Hget|Hget];
            [injection Hget as -> ->; first [reflexivity | discriminate Hdir]|]).
    by apply elem_of_nil in Hget.
Defined.

(** ** Names, definitions and the root image *)

Section Names.

Variable fs : filesystem.
Variable version : option string.

(** The chain of definitions above a name has one end. *)
Lemma reach_end_unique n m m' :
  reach fs version n m → is_dir (fs m) = false →
  reach fs version n m' → is_dir (fs m') = false → m = m'.
Proof.
  intros Hm Hdir. revert m'. induction Hm as [n|n p m Hp _ IH]; intros m' Hm' Hdir'.
  - destruct (reach_inv _ _ _ _ Hm') as [|(p & [? _]%parent_of_Some & _)]; [done|congruence].
  - pose proof Hp as [Hn _]%parent_of_Some.
    destruct (reach_inv _ _ _ _ Hm') as [<-|(p' & Hp' & Hm'')]; [congruence|].
    apply IH; [done| |done]. congruence.
Qed.

(** Below a node there are the nodes whose definitions lead to its name. *)
Lemma descends_reach t r nr j a :
  wf fs version t → images t !! j = Some (nr, r) → descends t r a →
  ∀ i n, images t !! i = Some (n, a) → reach fs version n nr.
Proof.
  intros W Hj. induction 1 as [|y yimg a Hry IH Hy Ha]; intros i n Hi.
  - destruct (wf_addr_inj _ _ _ _ _ _ _ _ W Hi Hj) as [_ ->]. constructor.
  - assert (registered t r) as Rr by (apply registered_lookup; eauto).
    pose proof (descends_registered fs version t W r y Rr Hry) as (k & m & Hk)%registered_lookup.
    destruct (child_facts fs version t W _ _ _ _ _ Hk Hy Ha)
      as (i' & n' & cimg & Hi' & _ & Hc & Hp & _).
    destruct (parent_facts fs version t W _ _ _ _ _ Hi Hc Hp)
      as (k' & m' & _ & Hk' & _ & _ & _ & Hpar).
    destruct (wf_addr_inj _ _ _ _ _ _ _ _ W Hk Hk') as [_ <-].
    eapply reach_step; [done|]. by eapply IH.
Qed.

Lemma below_root_reach t n a :
  wf fs version t → dict_get n (images t) = Some a → below_root t a →
  ∃ r nr, root_image t = Some r ∧ dict_get nr (images t) = Some r
          ∧ is_dir (fs nr) = false ∧ reach fs version n nr.
Proof.
  intros W [i Hi]%wf_dict_get_inv (r & Hr & Hd & _).
  destruct (wf_root _ _ _ W r Hr) as (j & nr & Hj & Hdir).
  exists r, nr. split; [done|]. split; [by eapply wf_dict_get|]. split; [done|].
  by eapply descends_reach.
Qed.

End Names.

(** When [determine_rebuilds] returns, the edited names denote nodes below
    the root image. *)
Lemma determine_rebuilds_ok_below fs version set_order fuel edited t names t' :
  (∀ l, set_order l ≡ₚ remove_dups l) →
  wf fs version t → all_registered t →
  determine_rebuilds fs set_order fuel edited t = (Ok names, t') →
  ∀ n, n ∈ edited → ∃ a, dict_get n (images t) = Some a ∧ below_root t a.
Proof.
  intros Hso W Hall (deps & ks & H1 & H2 & H3 & ->)%determine_rebuilds_inv n Hn.
  destruct (keyed_inv _ _ _ _ H2) as [Eks Hanc].
  destruct (compatible_names_inv _ _ _ H3) as [Hsome _].
  destruct (extend_each_ok_all _ _ _ H1 n Hn) as (d & Hg & Hsub).
  destruct (dict_get n (images t)) as [a|] eqn:Ha; [|done].
  exists a. split; [done|].
  assert (a ∈ deps) as Hin by (apply Hsub; by eapply descendants_self).
  destruct (wf_dict_get_inv _ _ _ Ha) as [i Hi].
  destruct (Hanc a) as [la Hla]; [by rewrite Hso, elem_of_remove_dups|].
  apply ancestors_sound in Hla. by eapply (chain_below_root fs version t W).
Qed.

(** X20.  A node whose chain of definitions ends at a name without
    directory other than the root image's (an image built from another
    external image than the one registered last) has no [ancestors]: the
    property raises [AttributeError], and [determine_rebuilds] raises for
    every sequence of edited names that contains its name. *)
Theorem under_another_external_image fs version set_order t n a m b :
  (∀ l, set_order l ≡ₚ remove_dups l) →
  constructed fs version t →
  dict_get n (images t) = Some a →
  reach fs version n m → is_dir (fs m) = false →
  dict_get m (images t) = Some b → root_image t ≠ Some b →
  (∀ fuel, length (images t) ≤ fuel → ancestors fuel t a = Raise AttributeError)
  ∧ (∀ fuel edited, n ∈ edited →
       ∃ e, determine_rebuilds fs set_order fuel edited t = (Raise e, t)).
Proof.
  intros Hso [W Hall]%constructed_wf Ha Hm Hdir Hb Hroot.
  assert (¬ below_root t a) as Hnot.
  { intros Hbelow.
    destruct (below_root_reach fs version t n a W Ha Hbelow) as (r & nr & Hr & Hnr & Hdir' & Hreach).
    assert (m = nr) as -> by (by eapply reach_end_unique).
    congruence. }
  split.
  - destruct (wf_dict_get_inv _ _ _ Ha) as [i Hi].
    intros fuel Hfuel. apply (ancestors_not_below fs version t W i n a Hi Hnot).
    apply lookup_lt_Some in Hi. lia.
  - intros fuel edited Hn.
    pose proof (determine_rebuilds_state fs set_order fuel edited t) as Hstate.
    destruct (determine_rebuilds fs set_order fuel edited t) as [[names|e] t'] eqn:E;
      simpl in Hstate; subst t'; [|by exists e].
    destruct (determine_rebuilds_ok_below fs version set_order fuel edited t names t
                Hso W Hall E n Hn) as (a' & Ha' & Hbelow).
    destruct Hnot. congruence.
Qed.

Lemma under_another_external_image_witness :
  (∀ fuel, length (images Examples.two_bases) ≤ fuel →
     ancestors fuel Examples.two_bases 0 = Raise AttributeError)
  ∧ (∀ fuel edited, "a" ∈ edited →
       ∃ e, determine_rebuilds Examples.two_bases_fs remove_dups fuel edited
              Examples.two_bases
            = (Raise e, Examples.two_bases)).
Proof.
  apply (under_another_external_image Examples.two_bases_fs None remove_dups
           Examples.two_bases "a" 0 "ext1" 1).
  - intros l. reflexivity.
  - exists 2, ["a"; "b"]. vm_compute. reflexivity.
  - reflexivity.
  - eapply reach_step; [|apply reach_refl]. vm_compute. reflexivity.
  - reflexivity.
  - reflexivity.
  - vm_compute. discriminate.
Defined.

(** X21.  What a name stands for does not depend on what was discovered: in
    any two trees constructed over the same directories and version, a
    name that both hold has the same compatibility flag and the same
    parent name. *)
Theorem name_decides_flag_and_parent fs version t t' n a a' :
  constructed fs version t → constructed fs version t' →
  dict_get n (images t) = Some a → dict_get n (images t') = Some a' →
  node_compat t a = node_compat t' a' ∧ parent_name t n = parent_name t' n.
Proof.
  intros [W _]%constructed_wf [W' _]%constructed_wf Ha Ha'.
  split.
  - destruct (wf_dict_get_inv _ _ _ Ha) as [i Hi].
    destruct (wf_dict_get_inv _ _ _ Ha') as [i' Hi'].
    pose proof (flag_by_definitions fs version t i n a W Hi) as H.
    pose proof (flag_by_definitions fs version t' i' n a' W' Hi') as H'.
    destruct (node_compat t a), (node_compat t' a'); try done.
    + apply (proj2 H). by apply (proj1 H').
    + symmetry. apply (proj2 H'). by apply (proj1 H).
  - rewrite (wf_parent_name fs version t n W), (wf_parent_name fs version t' n W').
    rewrite !decide_True; [done|apply dict_get_is_Some; eauto..].
Qed.

Lemma name_decides_flag_and_parent_witness :
  node_compat Examples.stack 1
  = node_compat (snd (ImageTree_init Examples.stack_fs (Some "3.8") 2 ["mid"])) 0
  ∧ parent_name Examples.stack "mid"
    = parent_name (snd (ImageTree_init Examples.stack_fs (Some "3.8") 2 ["mid"])) "mid".
Proof.
  apply (name_decides_flag_and_parent Examples.stack_fs (Some "3.8")).
  - exact stack_constructed.
  - exists 2, ["mid"]. vm_compute. reflexivity.
  - reflexivity.
  - vm_compute. reflexivity.
Defined.

(** X22.  A parent reference given by a build-arg ([FROM $VAR]) is read from
    the first line of the whole definition that starts with [ARG VAR=],
    wherever it stands, also after the [FROM] line: the reference is that
    line without the declaration and without [contextlab/]. *)
Theorem build_arg_reference dockerfile pre from_line rest pre' arg_line rest' :
  dockerfile = pre ++ from_line :: rest →
  (∀ l, l ∈ pre → Str.startswith l "FROM" = false) →
  Str.startswith from_line "FROM" = true →
  Str.startswith (Str.replace from_line "FROM " "") "$" = true →
  let declaration := declaration_of (Str.replace from_line "FROM " "") in
  dockerfile = pre' ++ arg_line :: rest' →
  (∀ l, l ∈ pre' → Str.startswith l declaration = false) →
  Str.startswith arg_line declaration = true →
  image_tag_of dockerfile
  = Ok (Str.replace (Str.replace arg_line declaration "") "contextlab/" "").
Proof.
  intros E Hpre Hfrom Harg declaration E' Hpre' Hdecl.
  unfold image_tag_of, parent_info_of, next_startswith.
  rewrite E at 1. rewrite (find_skip _ pre from_line rest Hpre Hfrom), Harg.
  unfold _value_from_arg, next_startswith. fold declaration.
  rewrite E'. by rewrite (find_skip _ pre' arg_line rest' Hpre' Hdecl).
Qed.

Lemma build_arg_reference_witness :
  image_tag_of ["FROM $BASE"; "ARG BASE=contextlab/mid:3.8"]
  = Ok (Str.replace
          (Str.replace "ARG BASE=contextlab/mid:3.8"
             (declaration_of (Str.replace "FROM $BASE" "FROM " "")) "")
          "contextlab/" "").
Proof.
  apply (build_arg_reference ["FROM $BASE"; "ARG BASE=contextlab/mid:3.8"]
           [] "FROM $BASE" ["ARG BASE=contextlab/mid:3.8"]
           ["FROM $BASE"] "ARG BASE=contextlab/mid:3.8" []).
  - reflexivity.
  - intros l Hl. by apply elem_of_nil in Hl.
  - reflexivity.
  - reflexivity.
  - reflexivity.
  - intros l Hl. apply list_elem_of_singleton in Hl as ->. reflexivity.
  - reflexivity.
Defined.
